(** * LIRS cache: a shallow embedding of [lirs_cache.hpp] and its properties

    The C++ class [LIRSCache<K, V>] keeps four containers: the value list
    [cache_], the LIRS stack S ([lirs_stack_]), the resident-HIR queue Q
    ([hir_stack_]) and the entry table [map_].  Entries hold iterators into
    the three lists.  The embedding keeps all of that:

    - a [std::list] is a list of nodes, each node carrying an identity that
      is never reused; the head of the list is [begin()] (the top), the last
      element is [back()] (the bottom);
    - an iterator is the identity of the node it designates ([None] for a
      value-initialised iterator); erasing or dereferencing through an
      iterator whose node is not in the list is undefined, and the model
      returns [None] for it;
    - [std::unordered_map] is a [gmap]; [map[k]] inserts a value-initialised
      entry when [k] is missing, as [operator[]] does;
    - an [Entry&] is the key of the entry: reads and writes go through the
      table, and a write through a reference whose entry was erased is
      undefined;
    - [std::size_t] is a [Z] reduced modulo [2^64] after each arithmetic
      step; [double] is binary64 as specified by [SpecFloat];
    - [Display] of [lirs_cache_extension.hpp] is the text it writes to
      [std::cout], with [operator<<] on keys and values as [pretty]. *)

From Stdlib Require Import ZArith Floats.SpecFloat.
From stdpp Require Import base option list gmap strings pretty.

Open Scope Z_scope.

(** ** Machine numbers *)

Module SizeT.
Definition modulus : Z := 2 ^ 64.
Definition wrap (z : Z) : Z := z mod modulus.
Definition incr (z : Z) : Z := wrap (z + 1).
Definition decr (z : Z) : Z := wrap (z - 1).
Definition sub (a b : Z) : Z := wrap (a - b).
End SizeT.

Module Double.
Definition prec : Z := 53.
Definition emax : Z := 1024.
Definition double := spec_float.

Definition zero : double := S754_zero false.
Definition one : double := SFone prec emax.
Definition nan : double := S754_nan.

(** [x <= y] and [x >= y] of C++: false as soon as one side is a NaN. *)
Definition le (x y : double) : bool := SFleb x y.
Definition ge (x y : double) : bool := SFleb y x.
Definition lt (x y : double) : bool := SFltb x y.

Definition mul (x y : double) : double := SFmul prec emax x y.

(** Implicit conversion [std::size_t -> double] (round to nearest even). *)
Definition of_size_t (n : Z) : double := binary_normalize prec emax n 0 false.

(** The decimal literal [p/q] as the compiler reads it: the nearest double. *)
Definition of_ratio (p q : Z) : double :=
  SFdiv prec emax (binary_normalize prec emax p 0 false)
                  (binary_normalize prec emax q 0 false).

(** [static_cast<std::size_t>(x)]: truncation toward zero; the conversion
    is undefined when the truncated value is not a [std::size_t]. *)
Definition to_size_t (x : double) : option Z :=
  match x with
  | S754_zero _ => Some 0
  | S754_finite s m e =>
      let t := Z.shiftl (Zpos m) e in
      if s then (if t =? 0 then Some 0 else None)
      else if t <? SizeT.modulus then Some t else None
  | S754_infinity _ | S754_nan => None
  end.
End Double.

(** ** Linked lists with stable iterators *)

Section NodeList.
Context {A : Type}.

Definition Iter := option nat.
Definition NodeList := list (nat * A).

Definition push_front (n : nat) (x : A) (l : NodeList) : NodeList := (n, x) :: l.

Fixpoint node_at (i : nat) (l : NodeList) : option A :=
  match l with
  | [] => None
  | (j, x) :: l' => if decide (i = j) then Some x else node_at i l'
  end.

Fixpoint erase_node (i : nat) (l : NodeList) : NodeList :=
  match l with
  | [] => []
  | (j, x) :: l' => if decide (i = j) then l' else (j, x) :: erase_node i l'
  end.

Fixpoint set_node (i : nat) (y : A) (l : NodeList) : NodeList :=
  match l with
  | [] => []
  | (j, x) :: l' => if decide (i = j) then (j, y) :: l' else (j, x) :: set_node i y l'
  end.

(** Dereference of an iterator. *)
Definition deref (it : Iter) (l : NodeList) : option A :=
  i ← it; node_at i l.

(** [l.erase(it)] *)
Definition erase (it : Iter) (l : NodeList) : option NodeList :=
  i ← it; _ ← node_at i l; Some (erase_node i l).

(** Update in place of the element an iterator designates. *)
Definition modify (it : Iter) (f : A → A) (l : NodeList) : option NodeList :=
  i ← it; x ← node_at i l; Some (set_node i (f x) l).

(** [l.back()] and [l.pop_back()] *)
Definition back (l : NodeList) : option A := snd <$> last l.
Definition pop_back (l : NodeList) : NodeList := removelast l.
End NodeList.

Arguments NodeList : clear implicits.

Module LIRS.

(** ** Data model *)

Record Entry := mkEntry {
  is_LIR : bool;
  is_resident : bool;
  in_lirs_stack : bool;
  in_hir_stack : bool;
  data_iter : Iter;
  lirs_iter : Iter;
  hir_iter : Iter
}.

(** The entry [map[k]] creates for a missing key. *)
Definition Entry_default : Entry := mkEntry false false false false None None None.

Definition set_is_LIR (b : bool) (e : Entry) : Entry :=
  mkEntry b (is_resident e) (in_lirs_stack e) (in_hir_stack e) (data_iter e) (lirs_iter e) (hir_iter e).
Definition set_is_resident (b : bool) (e : Entry) : Entry :=
  mkEntry (is_LIR e) b (in_lirs_stack e) (in_hir_stack e) (data_iter e) (lirs_iter e) (hir_iter e).
Definition set_in_lirs_stack (b : bool) (e : Entry) : Entry :=
  mkEntry (is_LIR e) (is_resident e) b (in_hir_stack e) (data_iter e) (lirs_iter e) (hir_iter e).
Definition set_in_hir_stack (b : bool) (e : Entry) : Entry :=
  mkEntry (is_LIR e) (is_resident e) (in_lirs_stack e) b (data_iter e) (lirs_iter e) (hir_iter e).
Definition set_data_iter (it : Iter) (e : Entry) : Entry :=
  mkEntry (is_LIR e) (is_resident e) (in_lirs_stack e) (in_hir_stack e) it (lirs_iter e) (hir_iter e).
Definition set_lirs_iter (it : Iter) (e : Entry) : Entry :=
  mkEntry (is_LIR e) (is_resident e) (in_lirs_stack e) (in_hir_stack e) (data_iter e) it (hir_iter e).
Definition set_hir_iter (it : Iter) (e : Entry) : Entry :=
  mkEntry (is_LIR e) (is_resident e) (in_lirs_stack e) (in_hir_stack e) (data_iter e) (lirs_iter e) it.

Section Engine.
Context `{Countable K} {V : Type}.

Record LIRSCache := mkCache {
  capacity_ : Z;
  hir_capacity_ : Z;
  lir_capacity_ : Z;
  lir_count_ : Z;
  cache_ : NodeList (K * V);
  lirs_stack_ : NodeList K;
  hir_stack_ : NodeList K;
  map_ : gmap K Entry;
  next_node_ : nat            (* identity of the next list node allocated *)
}.

Definition with_lir_count (n : Z) (c : LIRSCache) : LIRSCache :=
  mkCache (capacity_ c) (hir_capacity_ c) (lir_capacity_ c) n
          (cache_ c) (lirs_stack_ c) (hir_stack_ c) (map_ c) (next_node_ c).
Definition with_cache (l : NodeList (K * V)) (c : LIRSCache) : LIRSCache :=
  mkCache (capacity_ c) (hir_capacity_ c) (lir_capacity_ c) (lir_count_ c)
          l (lirs_stack_ c) (hir_stack_ c) (map_ c) (next_node_ c).
Definition with_lirs_stack (l : NodeList K) (c : LIRSCache) : LIRSCache :=
  mkCache (capacity_ c) (hir_capacity_ c) (lir_capacity_ c) (lir_count_ c)
          (cache_ c) l (hir_stack_ c) (map_ c) (next_node_ c).
Definition with_hir_stack (l : NodeList K) (c : LIRSCache) : LIRSCache :=
  mkCache (capacity_ c) (hir_capacity_ c) (lir_capacity_ c) (lir_count_ c)
          (cache_ c) (lirs_stack_ c) l (map_ c) (next_node_ c).
Definition with_map (m : gmap K Entry) (c : LIRSCache) : LIRSCache :=
  mkCache (capacity_ c) (hir_capacity_ c) (lir_capacity_ c) (lir_count_ c)
          (cache_ c) (lirs_stack_ c) (hir_stack_ c) m (next_node_ c).
Definition with_next_node (n : nat) (c : LIRSCache) : LIRSCache :=
  mkCache (capacity_ c) (hir_capacity_ c) (lir_capacity_ c) (lir_count_ c)
          (cache_ c) (lirs_stack_ c) (hir_stack_ c) (map_ c) n.

(** ** Container primitives on the engine *)

(** [cache.push_front({key, value})]; returns [cache.begin()]. *)
Definition cache_push_front (key : K) (value : V) (c : LIRSCache) : Iter * LIRSCache :=
  let n := next_node_ c in
  (Some n, with_next_node (S n) (with_cache (push_front n (key, value) (cache_ c)) c)).

(** [lirs_stack.push_front(key)]; returns [lirs_stack.begin()]. *)
Definition lirs_push_front (key : K) (c : LIRSCache) : Iter * LIRSCache :=
  let n := next_node_ c in
  (Some n, with_next_node (S n) (with_lirs_stack (push_front n key (lirs_stack_ c)) c)).

(** [hir_stack.push_front(key)]; returns [hir_stack.begin()]. *)
Definition hir_push_front (key : K) (c : LIRSCache) : Iter * LIRSCache :=
  let n := next_node_ c in
  (Some n, with_next_node (S n) (with_hir_stack (push_front n key (hir_stack_ c)) c)).

(** [map[key]]: the entry, and the table with the entry in it. *)
Definition map_index (key : K) (m : gmap K Entry) : Entry * gmap K Entry :=
  let e := default Entry_default (m !! key) in (e, <[key := e]> m).

(** A write [entry.field = ...] through the reference [entry] to the
    entry of [key]. *)
Definition upd_entry (key : K) (f : Entry → Entry) (c : LIRSCache) : option LIRSCache :=
  e ← map_ c !! key; Some (with_map (<[key := f e]> (map_ c)) c).

(** ** Construction *)

Inductive construction :=
| Constructed (c : LIRSCache)
| InvalidArgument (what : string)
| UndefinedConversion.

(** The member initialisers run before the body; the value of the
    conversion is only used when the body does not throw. *)
Definition construct (capacity : Z) (hir_ratio : Double.double) : construction :=
  let hir_capacity :=
    Z.max 1 <$> Double.to_size_t (Double.mul (Double.of_size_t capacity) hir_ratio) in
  if capacity =? 0 then InvalidArgument "Capacity must be greater than 0"
  else if Double.le hir_ratio Double.zero || Double.ge hir_ratio Double.one
  then InvalidArgument "HIR ratio must be in range(0, 1)"
  else match hir_capacity with
       | Some hc => Constructed (mkCache capacity hc (SizeT.sub capacity hc) 0 [] [] [] ∅ 0)
       | None => UndefinedConversion
       end.

(** ** Reorganisation routines *)

(** The [while] loop of [stack_pruning], followed from the bottom of S
    upwards: [bottom_up] is S reversed. *)
Fixpoint stack_pruning_loop (bottom_up : NodeList K) (m : gmap K Entry)
  : NodeList K * gmap K Entry :=
  match bottom_up with
  | [] => ([], m)
  | (_, bottom_key) :: rest =>
      let '(entry, m) := map_index bottom_key m in
      if is_LIR entry then (bottom_up, m)
      else
        let entry := set_in_lirs_stack false entry in
        let m := <[bottom_key := entry]> m in
        let m := if negb (is_resident entry) then delete bottom_key m else m in
        stack_pruning_loop rest m
  end.

Definition stack_pruning (c : LIRSCache) : LIRSCache :=
  let '(bottom_up, m) := stack_pruning_loop (reverse (lirs_stack_ c)) (map_ c) in
  with_map m (with_lirs_stack (reverse bottom_up) c).

Definition evict_hir_resident (c : LIRSCache) : option LIRSCache :=
  match back (hir_stack_ c) with
  | None => Some c
  | Some victim_key =>
      let c := with_hir_stack (pop_back (hir_stack_ c)) c in
      let '(entry, m) := map_index victim_key (map_ c) in
      cache ← erase (data_iter entry) (cache_ c);
      let entry := set_in_hir_stack false (set_is_resident false entry) in
      let m := <[victim_key := entry]> m in
      let m := if negb (in_lirs_stack entry) then delete victim_key m else m in
      Some (with_map m (with_cache cache c))
  end.

Definition demote_bottom_lir (c : LIRSCache) : LIRSCache :=
  match back (lirs_stack_ c) with
  | None => c
  | Some bottom_key =>
      let '(entry, m) := map_index bottom_key (map_ c) in
      let c := with_map m c in
      if negb (is_LIR entry) then c
      else
        let entry := set_is_LIR false entry in
        let c := with_lir_count (SizeT.decr (lir_count_ c)) c in
        let c := with_lirs_stack (pop_back (lirs_stack_ c)) c in
        let entry := set_in_lirs_stack false entry in
        let '(it, c) := hir_push_front bottom_key c in
        let entry := set_in_hir_stack true (set_hir_iter it entry) in
        with_map (<[bottom_key := entry]> (map_ c)) c
  end.

Definition promote_to_lir (key : K) (c : LIRSCache) : option LIRSCache :=
  c ← upd_entry key (set_is_LIR true) c;
  let c := with_lir_count (SizeT.incr (lir_count_ c)) c in
  entry ← map_ c !! key;
  s ← erase (lirs_iter entry) (lirs_stack_ c);
  let '(it, c) := lirs_push_front key (with_lirs_stack s c) in
  c ← upd_entry key (set_lirs_iter it) c;
  entry ← map_ c !! key;
  c ← (if in_hir_stack entry then
         q ← erase (hir_iter entry) (hir_stack_ c);
         upd_entry key (set_in_hir_stack false) (with_hir_stack q c)
       else Some c);
  Some (stack_pruning (demote_bottom_lir c)).

(** ** Access cases *)

Definition insert_new (key : K) (value : V) (c : LIRSCache) : option LIRSCache :=
  if lir_count_ c <? lir_capacity_ c then
    let '(data, c) := cache_push_front key value c in
    let '(lirs, c) := lirs_push_front key c in
    let c := with_map (<[key := mkEntry true true true false data lirs None]> (map_ c)) c in
    Some (with_lir_count (SizeT.incr (lir_count_ c)) c)
  else
    c ← evict_hir_resident c;
    let '(data, c) := cache_push_front key value c in
    let '(lirs, c) := lirs_push_front key c in
    let '(hir, c) := hir_push_front key c in
    Some (with_map (<[key := mkEntry false true true true data lirs hir]> (map_ c)) c).

Definition access_lir (key : K) (c : LIRSCache) : option LIRSCache :=
  bottom ← back (lirs_stack_ c);
  let was_bottom := bool_decide (bottom = key) in
  entry ← map_ c !! key;
  s ← erase (lirs_iter entry) (lirs_stack_ c);
  let '(it, c) := lirs_push_front key (with_lirs_stack s c) in
  c ← upd_entry key (set_lirs_iter it) c;
  Some (if was_bottom then stack_pruning c else c).

Definition access_hir_resident (key : K) (c : LIRSCache) : option LIRSCache :=
  entry ← map_ c !! key;
  if in_lirs_stack entry then promote_to_lir key c
  else
    let '(it, c) := lirs_push_front key c in
    c ← upd_entry key (λ e, set_in_lirs_stack true (set_lirs_iter it e)) c;
    entry ← map_ c !! key;
    q ← erase (hir_iter entry) (hir_stack_ c);
    let '(it, c) := hir_push_front key (with_hir_stack q c) in
    upd_entry key (set_hir_iter it) c.

Definition access_hir_non_resident (key : K) (value : V) (c : LIRSCache)
  : option LIRSCache :=
  c ← evict_hir_resident c;
  let '(it, c) := cache_push_front key value c in
  c ← upd_entry key (λ e, set_is_resident true (set_data_iter it e)) c;
  entry ← map_ c !! key;
  if in_lirs_stack entry then promote_to_lir key c
  else
    let '(it, c) := lirs_push_front key c in
    c ← upd_entry key (λ e, set_in_lirs_stack true (set_lirs_iter it e)) c;
    let '(it, c) := hir_push_front key c in
    upd_entry key (λ e, set_in_hir_stack true (set_hir_iter it e)) c.

(** ** Public operations *)

(** [it->second = value] *)
Definition set_second (value : V) (kv : K * V) : K * V := (kv.1, value).

Definition get (key : K) (c : LIRSCache) : option (option V * LIRSCache) :=
  match map_ c !! key with
  | None => Some (None, c)
  | Some entry =>
      if negb (is_resident entry) then Some (None, c)
      else
        c ← (if is_LIR entry then access_lir key c else access_hir_resident key c);
        entry ← map_ c !! key;
        kv ← deref (data_iter entry) (cache_ c);
        Some (Some kv.2, c)
  end.

Definition put (key : K) (value : V) (c : LIRSCache) : option LIRSCache :=
  match map_ c !! key with
  | None => insert_new key value c
  | Some entry =>
      if is_LIR entry then
        cache ← modify (data_iter entry) (set_second value) (cache_ c);
        access_lir key (with_cache cache c)
      else if is_resident entry then
        cache ← modify (data_iter entry) (set_second value) (cache_ c);
        access_hir_resident key (with_cache cache c)
      else access_hir_non_resident key value c
  end.

Definition size (c : LIRSCache) : Z := Z.of_nat (length (cache_ c)).
Definition capacity (c : LIRSCache) : Z := capacity_ c.
Definition empty (c : LIRSCache) : bool := bool_decide (cache_ c = []).

(** ** Sequences of public operations *)

Inductive op := Get (key : K) | Put (key : K) (value : V).

Definition step (o : op) (c : LIRSCache) : option LIRSCache :=
  match o with
  | Get key => snd <$> get key c
  | Put key value => put key value c
  end.

Fixpoint run (ops : list op) (c : LIRSCache) : option LIRSCache :=
  match ops with
  | [] => Some c
  | o :: ops => c ← step o c; run ops c
  end.

(** The engine after [ops], from construction. *)
Definition engine_after (capacity : Z) (hir_ratio : Double.double) (ops : list op)
  : option LIRSCache :=
  match construct capacity hir_ratio with
  | Constructed c => run ops c
  | _ => None
  end.

(** ** Observations *)

Definition S_keys (c : LIRSCache) : list K := (lirs_stack_ c).*2.
Definition Q_keys (c : LIRSCache) : list K := (hir_stack_ c).*2.
Definition cache_keys (c : LIRSCache) : list K := (cache_ c).*2.*1.

(** Residency and classification of a key, as the entry table has them. *)
Definition resident (c : LIRSCache) (key : K) : bool :=
  from_option is_resident false (map_ c !! key).
Definition lir (c : LIRSCache) (key : K) : bool :=
  from_option is_LIR false (map_ c !! key).

(** The value stored for a key: what the [data_iter] of its entry
    designates, for a resident entry. *)
Definition store_iter (m : gmap K Entry) (key : K) : option Iter :=
  entry ← m !! key;
  if is_resident entry then Some (data_iter entry) else None.

Definition stored (c : LIRSCache) (key : K) : option V :=
  it ← store_iter (map_ c) key; snd <$> deref it (cache_ c).

(** ** Well-formedness of the engine state *)

(** The value list seen as a list of keys. *)
Definition keyed (l : NodeList (K * V)) : NodeList K := prod_map id fst <$> l.

(** A list and the table agree on one membership flag and its iterator:
    node identities and keys are not repeated, identities are below the
    allocation counter, an entry whose flag is set holds an iterator to
    the node of its key, an entry whose flag is clear has no node, and
    every key of the list has an entry. *)
Section Linked.
Context (flag : Entry → bool) (it : Entry → Iter).

Definition handle_ok (l : NodeList K) (key : K) (e : Entry) : Prop :=
  if flag e then ∃ i, it e = Some i ∧ node_at i l = Some key
  else key ∉ l.*2.

Record linked (l : NodeList K) (bound : nat) (m : gmap K Entry) : Prop := {
  linked_ids : NoDup l.*1;
  linked_keys : NoDup l.*2;
  linked_bound : ∀ i, i ∈ l.*1 → (i < bound)%nat;
  linked_handle : ∀ key e, m !! key = Some e → handle_ok l key e;
  linked_dom : ∀ key, key ∈ l.*2 → is_Some (m !! key)
}.
End Linked.

Record links (c : LIRSCache) : Prop := {
  links_S : linked in_lirs_stack lirs_iter (lirs_stack_ c) (next_node_ c) (map_ c);
  links_Q : linked in_hir_stack hir_iter (hir_stack_ c) (next_node_ c) (map_ c);
  links_C : linked is_resident data_iter (keyed (cache_ c)) (next_node_ c) (map_ c)
}.

(** The four states of an entry between operations: LIR (resident, in S,
    not in Q), resident HIR in S and Q, resident HIR in Q only, and
    non-resident HIR in S only. *)
Definition flags_ok (e : Entry) : bool :=
  if is_LIR e then is_resident e && in_lirs_stack e && negb (in_hir_stack e)
  else bool_decide (is_resident e = in_hir_stack e)
       && (in_lirs_stack e || in_hir_stack e).

Definition flags (m : gmap K Entry) : Prop :=
  map_Forall (λ _ e, flags_ok e = true) m.

Definition WF (c : LIRSCache) : Prop := links c ∧ flags (map_ c).

(** ** States named in the proofs *)

Implicit Types (c : LIRSCache) (key victim_key bottom_key : K) (e : Entry).

(** The configuration is the same in both states. *)
Definition same_config (c c' : LIRSCache) : Prop :=
  capacity_ c' = capacity_ c ∧ hir_capacity_ c' = hir_capacity_ c ∧
  lir_capacity_ c' = lir_capacity_ c.

(** A reorganisation: the configuration, the value list and the iterator
    of every resident entry are the same in both states. *)
Definition same_store (c c' : LIRSCache) : Prop :=
  same_config c c' ∧ cache_ c' = cache_ c ∧
  ∀ key, store_iter (map_ c') key = store_iter (map_ c) key.

Definition demoted c bottom_key e : LIRSCache :=
  let n := next_node_ c in
  mkCache (capacity_ c) (hir_capacity_ c) (lir_capacity_ c) (SizeT.decr (lir_count_ c))
    (cache_ c) (pop_back (lirs_stack_ c)) (push_front n bottom_key (hir_stack_ c))
    (<[bottom_key := set_in_hir_stack true
          (set_hir_iter (Some n) (set_in_lirs_stack false (set_is_LIR false e)))]> (map_ c))
    (S n).

(** The state of [promote_to_lir] before its calls to [demote_bottom_lir]
    and [stack_pruning]: [key] is LIR, on top of S (its node [i] erased)
    and out of Q ([q] is what is left of Q). *)
Definition promoted c key e i (q : NodeList K) : LIRSCache :=
  let n := next_node_ c in
  mkCache (capacity_ c) (hir_capacity_ c) (lir_capacity_ c) (SizeT.incr (lir_count_ c))
    (cache_ c) (push_front n key (erase_node i (lirs_stack_ c))) q
    (<[key := set_in_hir_stack false (set_lirs_iter (Some n) (set_is_LIR true e))]> (map_ c))
    (S n).

Definition without_key c key e : NodeList K :=
  if in_hir_stack e then from_option (λ j, erase_node j (hir_stack_ c)) (hir_stack_ c) (hir_iter e)
  else hir_stack_ c.

(** If the list is not empty, the node of [key] is its first node. *)
Definition top_is (l : NodeList K) key : Prop :=
  ∀ p, head l = Some p → p.2 = key.

Definition evicted c victim_key e d : LIRSCache :=
  let e' := set_in_hir_stack false (set_is_resident false e) in
  mkCache (capacity_ c) (hir_capacity_ c) (lir_capacity_ c) (lir_count_ c)
    (erase_node d (cache_ c)) (lirs_stack_ c) (pop_back (hir_stack_ c))
    (if in_lirs_stack e then <[victim_key := e']> (map_ c) else delete victim_key (map_ c))
    (next_node_ c).

(** The state of [access_lir] before its call to [stack_pruning]. *)
Definition moved_top c key e i : LIRSCache :=
  let n := next_node_ c in
  mkCache (capacity_ c) (hir_capacity_ c) (lir_capacity_ c) (lir_count_ c)
    (cache_ c) (push_front n key (erase_node i (lirs_stack_ c))) (hir_stack_ c)
    (<[key := set_lirs_iter (Some n) e]> (map_ c)) (S n).

(** The result of [access_hir_resident] for a key that is not in S. *)
Definition refreshed c key e j : LIRSCache :=
  let n := next_node_ c in
  mkCache (capacity_ c) (hir_capacity_ c) (lir_capacity_ c) (lir_count_ c)
    (cache_ c) (push_front n key (lirs_stack_ c))
    (push_front (S n) key (erase_node j (hir_stack_ c)))
    (<[key := set_hir_iter (Some (S n))
                (set_in_lirs_stack true (set_lirs_iter (Some n) e))]> (map_ c))
    (S (S n)).

(** The state of [access_hir_non_resident] once the value is loaded. *)
Definition loaded c key (value : V) e : LIRSCache :=
  let n := next_node_ c in
  mkCache (capacity_ c) (hir_capacity_ c) (lir_capacity_ c) (lir_count_ c)
    (push_front n (key, value) (cache_ c)) (lirs_stack_ c) (hir_stack_ c)
    (<[key := set_is_resident true (set_data_iter (Some n) e)]> (map_ c)) (S n).

(** The two results of [insert_new]. *)
Definition admitted_lir c key (value : V) : LIRSCache :=
  let n := next_node_ c in
  mkCache (capacity_ c) (hir_capacity_ c) (lir_capacity_ c) (SizeT.incr (lir_count_ c))
    (push_front n (key, value) (cache_ c)) (push_front (S n) key (lirs_stack_ c))
    (hir_stack_ c)
    (<[key := mkEntry true true true false (Some n) (Some (S n)) None]> (map_ c))
    (S (S n)).

Definition admitted_hir c key (value : V) : LIRSCache :=
  let n := next_node_ c in
  mkCache (capacity_ c) (hir_capacity_ c) (lir_capacity_ c) (lir_count_ c)
    (push_front n (key, value) (cache_ c)) (push_front (S n) key (lirs_stack_ c))
    (push_front (S (S n)) key (hir_stack_ c))
    (<[key := mkEntry false true true true (Some n) (Some (S n)) (Some (S (S n)))]> (map_ c))
    (S (S (S n))).

(** The state of [put] once the value of a resident key is overwritten. *)
Definition overwritten c d (kv : K * V) (value : V) : LIRSCache :=
  with_cache (set_node d (set_second value kv) (cache_ c)) c.

(** The counters of an engine whose LIR capacity is at least 1, between
    operations: the LIR count is within the LIR capacity, the resident
    entries are the LIR entries and those of Q, Q holds at most one key,
    the bottom of S is LIR, before the LIR set is full Q is empty and
    every entry is LIR, and S is empty only while nothing is LIR. *)
Record bounded c : Prop := {
  bounded_config :
    1 ≤ lir_capacity_ c ∧ lir_capacity_ c < capacity_ c ∧ capacity_ c < SizeT.modulus;
  bounded_count : 0 ≤ lir_count_ c ≤ lir_capacity_ c;
  bounded_size :
    Z.of_nat (length (cache_ c)) = lir_count_ c + Z.of_nat (length (hir_stack_ c));
  bounded_Q : (length (hir_stack_ c) ≤ 1)%nat;
  bounded_bottom : ∀ bottom_key, back (lirs_stack_ c) = Some bottom_key → lir c bottom_key = true;
  bounded_warm :
    lir_count_ c < lir_capacity_ c →
    hir_stack_ c = [] ∧ ∀ key e, map_ c !! key = Some e → is_LIR e = true;
  bounded_S : lirs_stack_ c = [] → lir_count_ c = 0
}.

(** The keys put by a sequence of operations. *)
Fixpoint put_keys (ops : list op) : gset K :=
  match ops with
  | [] => ∅
  | Get _ :: ops => put_keys ops
  | Put key _ :: ops => {[key]} ∪ put_keys ops
  end.

End Engine.

Arguments LIRSCache K {_ _} V.
Arguments construction K {_ _} V.
Arguments op : clear implicits.

(** The same engine with every stored value replaced by its image. *)
Definition vmap `{Countable K} {V V' : Type} (f : V → V') (c : LIRSCache K V)
  : LIRSCache K V' :=
  mkCache (capacity_ c) (hir_capacity_ c) (lir_capacity_ c) (lir_count_ c)
    (prod_map id (prod_map id f) <$> cache_ c) (lirs_stack_ c) (hir_stack_ c)
    (map_ c) (next_node_ c).

(** ** Sequences of operations, observed *)

Section Sequences.
Context `{Countable K} {V : Type}.

(** The value of the last [put] of [key] in a sequence of operations. *)
Fixpoint last_put (ops : list (op K V)) (key : K) : option V :=
  match ops with
  | [] => None
  | o :: ops =>
      match last_put ops key with
      | Some value => Some value
      | None =>
          match o with
          | Put k value => if decide (k = key) then Some value else None
          | Get _ => None
          end
      end
  end.

(** The keys of the [put]s of a sequence of operations, in order. *)
Definition put_key_list (ops : list (op K V)) : list K :=
  omap (λ o, match o with Put key _ => Some key | Get _ => None end) ops.

(** The values the [get]s of a sequence of operations return. *)
Fixpoint results (ops : list (op K V)) (c : LIRSCache K V) : option (list (option V)) :=
  match ops with
  | [] => Some []
  | Get key :: ops => rc ← get key c; rs ← results ops rc.2; Some (rc.1 :: rs)
  | Put key value :: ops => c ← put key value c; results ops c
  end.

(** The key an operation is about. *)
Definition op_key (o : op K V) : K :=
  match o with Get key => key | Put key _ => key end.
End Sequences.

(** An operation with its value replaced by the image of the value. *)
Definition op_vmap `{Countable K} {V V' : Type} (f : V → V') (o : op K V) : op K V' :=
  match o with Get key => Get key | Put key value => Put key (f value) end.

(** The result of a [get] with its value and the values of its engine
    replaced by their images. *)
Definition result_vmap `{Countable K} {V V' : Type} (f : V → V')
    (rc : option V * LIRSCache K V) : option V' * LIRSCache K V' :=
  (f <$> rc.1, vmap f rc.2).

(** The default argument [hir_ratio = 0.01] of the constructor. *)
Definition default_hir_ratio : Double.double := Double.of_ratio 1 100.

Definition construct_default `{Countable K} {V : Type} (capacity : Z) : construction K V :=
  construct capacity default_hir_ratio.

(** ** [LIRSCacheExtension::Display]

    The text written to [std::cout]; [operator<<] on keys and values is
    [pretty]. *)
Section Printing.
Context `{Countable K} {V : Type} `{Pretty K} `{Pretty V}.

Definition endl : string := String (Ascii.ascii_of_nat 10) "".

Definition Display_class (entry : Entry) : string :=
  if is_LIR entry then "LIR"
  else if is_resident entry then "HIR-resident"
  else "HIR-non-resident (ghost)".

(** The body of the loop over S: nothing is written for a key that
    [map_.find] does not find. *)
Definition Display_S_entry (c : LIRSCache K V) (key : K) : string :=
  match map_ c !! key with
  | Some entry => "  [" +:+ pretty key +:+ "] " +:+ Display_class entry +:+ endl
  | None => ""
  end.

Definition Display_Q_entry (key : K) : string := "  [" +:+ pretty key +:+ "]" +:+ endl.

Definition Display_pair (c : LIRSCache K V) (pair : K * V) : string :=
  match map_ c !! pair.1 with
  | Some entry =>
      "  {" +:+ pretty pair.1 +:+ ": " +:+ pretty pair.2 +:+ "} "
      +:+ (if is_LIR entry then "[LIR]" else "[HIR]") +:+ endl
  | None => ""
  end.

(** [if (l.empty()) ... else for (x : l) ...] *)
Definition Display_list {A} (body : A → string) (l : list A) : string :=
  match l with
  | [] => "  (empty)" +:+ endl
  | _ => String.concat "" (body <$> l)
  end.

Definition Display (c : LIRSCache K V) : string :=
  endl
  +:+ "================== LIRS Cache State ==================" +:+ endl
  +:+ endl
  +:+ "[Capacity]" +:+ endl
  +:+ "  Total: " +:+ pretty (capacity_ c) +:+ " | "
  +:+ "LIR: " +:+ pretty (lir_capacity_ c) +:+ " | "
  +:+ "HIR: " +:+ pretty (hir_capacity_ c) +:+ endl
  +:+ "  LIR count: " +:+ pretty (lir_count_ c) +:+ " | "
  +:+ "Cache size: " +:+ pretty (size c) +:+ endl
  +:+ endl
  +:+ "[Stack S - LIRS Stack] (top -> bottom)" +:+ endl
  +:+ Display_list (Display_S_entry c) (S_keys c)
  +:+ endl
  +:+ "[Stack Q - HIR Resident] (top -> bottom)" +:+ endl
  +:+ Display_list Display_Q_entry (Q_keys c)
  +:+ endl
  +:+ "[Cache Contents]" +:+ endl
  +:+ Display_list (Display_pair c) (cache_ c).*2
  +:+ "======================================================" +:+ endl
  +:+ endl.
End Printing.

End LIRS.

Import LIRS.

(** ** Concrete engines used as examples *)

(** [operator<<] on [std::string]. *)
#[global] Instance pretty_string : Pretty string := λ s, s.

Module Scenario.
(** [0.2], [0.5] and [0.34] as the compiler reads them. *)
Definition ratio_0_2 : Double.double := Double.of_ratio 1 5.
Definition ratio_0_5 : Double.double := Double.of_ratio 1 2.

Definition P (key : nat) (value : string) : op nat string := Put key value.
Definition G (key : nat) : op nat string := Get key.

(** [LIRSCache<int, std::string> cache(5, 0.2)]: LIR = 4, HIR = 1. *)
Definition cache_5 : LIRSCache nat string := mkCache 5 1 4 0 [] [] [] ∅ 0.

(** [LIRSCache<int, std::string> cache(1, 0.5)]: LIR = 0, HIR = 1. *)
Definition cache_1 : LIRSCache nat string := mkCache 1 1 0 0 [] [] [] ∅ 0.

Definition warm_up : list (op nat string) :=
  [P 1 "A"; P 2 "B"; P 3 "C"; P 4 "D"]%nat.

(** Keys 1 to 4 are LIR, 5 was evicted and is a ghost in S, 6 is in Q. *)
Definition with_ghost : list (op nat string) :=
  warm_up ++ [P 5 "E"; P 6 "F"]%nat.

(** The engine after a list of operations, [fallback] if undefined. *)
Definition after (ops : list (op nat string)) (c : LIRSCache nat string)
  : LIRSCache nat string := default c (run ops c).

(** The state after the warm-up and two more puts: keys 1 to 4 are LIR,
    5 is a ghost in S, 6 is resident HIR in S and Q. *)
Definition steady : LIRSCache nat string := after with_ghost cache_5.

(** From there [get(6)] promotes 6 and demotes 1, which is then
    resident HIR in Q and not in S. *)
Definition demoted_1 : LIRSCache nat string := after (with_ghost ++ [G 6]) cache_5.

(** [LIRSCache<int, std::string> cache(10, 0.5)]: LIR = 5, HIR = 5. *)
Definition cache_10 : LIRSCache nat string := mkCache 10 5 5 0 [] [] [] ∅ 0.

Definition fill_10 : list (op nat string) :=
  [P 1 "A"; P 2 "B"; P 3 "C"; P 4 "D"; P 5 "E"; P 6 "F"; P 7 "G"; P 8 "H"; P 9 "I"; P 10 "J"]%nat.

(** The operations of the README's [Display] example. *)
Definition readme : list (op nat string) := [P 1 "A"; P 2 "B"; P 3 "C"]%nat.

(** The operations of [main] on its first cache, [cache(5, 0.2)]. *)
Definition main_ops : list (op nat string) :=
  [P 1 "A"; P 2 "B"; P 3 "C"; P 4 "D"; P 5 "E"; P 6 "F"; G 1; G 4; G 6;
   P 7 "G"; P 8 "H"; P 7 "G2"; P 9 "I"; P 10 "J"; P 9 "I2"; P 99 "NEW";
   P 1 "A_updated"; G 1; G 100; G 5]%nat.

(** [LIRSCacheExtension<int, std::string> loop_cache(3, 0.34)] and the
    operations of [main] on it. *)
Definition loop_cache : LIRSCache nat string := mkCache 3 1 2 0 [] [] [] ∅ 0.

Definition loop_ops : list (op nat string) :=
  [P 1 "v1"; P 2 "v2"; P 3 "v3"; P 4 "v4"; G 1; G 2]%nat.
End Scenario.

(** * Facts about node lists *)

Section NodeListFacts.
Context {A : Type}.
Implicit Types (l : NodeList A) (i j : nat) (x y : A).

Lemma node_at_elem_of l i x : node_at i l = Some x → (i, x) ∈ l.
Proof.
  induction l as [|[j z] l IH]; simpl; [done|].
  case_decide; intros Hx; simplify_eq; [left | right; auto].
Qed.

Lemma node_at_None l i : node_at i l = None ↔ i ∉ l.*1.
Proof.
  induction l as [|[j z] l IH]; simpl.
  - split; [intros _; apply not_elem_of_nil | done].
  - rewrite not_elem_of_cons. case_decide; simplify_eq; [|tauto].
    split; [done | intros [? _]; done].
Qed.

Lemma node_at_is_Some l i : is_Some (node_at i l) ↔ i ∈ l.*1.
Proof.
  rewrite <- not_eq_None_Some, node_at_None.
  destruct (decide (i ∈ l.*1)); tauto.
Qed.

Lemma elem_of_node_at l i x : NoDup l.*1 → (i, x) ∈ l → node_at i l = Some x.
Proof.
  induction l as [|[j z] l IH]; simpl; intros Hnd Hin.
  - by apply elem_of_nil in Hin.
  - apply NoDup_cons in Hnd as [Hj Hnd].
    apply elem_of_cons in Hin as [Heq | Hin]; simplify_eq.
    + by rewrite decide_True.
    + rewrite decide_False; [auto|].
      intros ->. apply Hj. by apply (list_elem_of_fmap_2 fst) in Hin.
Qed.

(** The node an iterator designates splits the list; erasing the node
    and writing through the iterator act at the split. *)
Lemma node_at_split l i x :
  node_at i l = Some x →
  ∃ l1 l2, l = l1 ++ (i, x) :: l2 ∧ (i ∉ l1.*1) ∧
           erase_node i l = l1 ++ l2 ∧
           ∀ y, set_node i y l = l1 ++ (i, y) :: l2.
Proof.
  induction l as [|[j z] l IH]; simpl; [done|].
  case_decide as Hij; intros Hx; simplify_eq.
  - exists [], l. split_and!; [done | apply not_elem_of_nil | done | done].
  - destruct (IH Hx) as (l1 & l2 & -> & Hni & He & Hs).
    exists ((j, z) :: l1), l2. split_and!; simpl.
    + done.
    + rewrite not_elem_of_cons. done.
    + by rewrite He.
    + intros y. by rewrite Hs.
Qed.

Lemma erase_node_sublist l i : erase_node i l `sublist_of` l.
Proof.
  induction l as [|[j z] l IH]; simpl; [done|].
  case_decide; [by apply sublist_cons | by apply sublist_skip].
Qed.

Lemma node_at_erase_ne l i j : i ≠ j → node_at j (erase_node i l) = node_at j l.
Proof.
  intros Hij. induction l as [|[k z] l IH]; simpl; [done|].
  destruct (decide (i = k)) as [->|Hik]; simpl.
  - by rewrite (decide_False (P := j = k)).
  - by rewrite IH.
Qed.

Lemma node_at_erase_eq l i : NoDup l.*1 → node_at i (erase_node i l) = None.
Proof.
  intros Hnd. induction l as [|[k z] l IH]; simpl; [done|].
  simpl in Hnd. apply NoDup_cons in Hnd as [Hk Hnd].
  destruct (decide (i = k)) as [->|Hik]; simpl.
  - by apply node_at_None.
  - by rewrite decide_False, IH.
Qed.

Lemma node_at_set_node l i j y :
  node_at j (set_node i y l) =
    if decide (j = i) then (λ _, y) <$> node_at i l else node_at j l.
Proof.
  induction l as [|[k z] l IH]; simpl; [by case_decide|].
  repeat (case_decide; simplify_eq/=); done.
Qed.

Lemma set_node_ids l i y : (set_node i y l).*1 = l.*1.
Proof.
  induction l as [|[k z] l IH]; simpl; [done|].
  case_decide; simpl; [done | by f_equal].
Qed.

Lemma set_node_length l i y : length (set_node i y l) = length l.
Proof. by rewrite <- (length_fmap fst), set_node_ids, length_fmap. Qed.

Lemma back_Some l x : back l = Some x → ∃ i, l = pop_back l ++ [(i, x)].
Proof.
  unfold back, pop_back. destruct (last l) as [[i y]|] eqn:Hl; intros Hx; simplify_eq/=.
  apply last_Some in Hl as [l' ->]. exists i. by rewrite removelast_last.
Qed.

Lemma back_None l : back l = None ↔ l = [].
Proof. unfold back. rewrite fmap_None. apply last_None. Qed.

Lemma back_snoc l i x : back (l ++ [(i, x)]) = Some x.
Proof. unfold back. by rewrite last_snoc. Qed.

Lemma pop_back_snoc l i x : pop_back (l ++ [(i, x)]) = l.
Proof. apply removelast_last. Qed.

Lemma node_at_snoc l i x : i ∉ l.*1 → node_at i (l ++ [(i, x)]) = Some x.
Proof.
  induction l as [|[k z] l IH]; simpl; intros Hi.
  - by rewrite decide_True.
  - apply not_elem_of_cons in Hi as [? ?]. rewrite decide_False; auto.
Qed.

Lemma erase_node_snoc l i x : i ∉ l.*1 → erase_node i (l ++ [(i, x)]) = l.
Proof.
  induction l as [|[k z] l IH]; simpl; intros Hi.
  - by rewrite decide_True.
  - apply not_elem_of_cons in Hi as [? ?]. rewrite decide_False; [|done].
    f_equal. auto.
Qed.

Lemma erase_node_length l i x :
  node_at i l = Some x → length l = S (length (erase_node i l)).
Proof.
  intros (l1 & l2 & -> & _ & -> & _)%node_at_split.
  rewrite !length_app. simpl. lia.
Qed.
End NodeListFacts.

(** * One list against the entry table *)

Section LinkedFacts.
Context `{Countable K}.
Context (flag : Entry → bool) (it : Entry → Iter).
Implicit Types (l : NodeList K) (m : gmap K Entry) (key : K) (e : Entry).

Local Abbreviation linked := (LIRS.linked (K:=K) flag it).
Local Abbreviation handle_ok := (LIRS.handle_ok (K:=K) flag it).

Lemma linked_empty b : linked [] b ∅.
Proof.
  split; simpl.
  - constructor.
  - constructor.
  - intros i Hi. by apply elem_of_nil in Hi.
  - intros key e He. by rewrite lookup_empty in He.
  - intros key Hk. by apply elem_of_nil in Hk.
Qed.

Lemma linked_flag_elem_of l b m key e :
  linked l b m → m !! key = Some e → flag e = true ↔ key ∈ l.*2.
Proof.
  intros Hl He. pose proof (linked_handle _ _ _ _ _ Hl _ _ He) as Hh.
  unfold LIRS.handle_ok in Hh. destruct (flag e); split; try done.
  intros _. destruct Hh as (i & _ & Hi%node_at_elem_of).
  by apply (list_elem_of_fmap_2 snd) in Hi.
Qed.

Lemma linked_node l b m key e :
  linked l b m → m !! key = Some e → flag e = true →
  ∃ i, it e = Some i ∧ node_at i l = Some key.
Proof.
  intros Hl He Hf. pose proof (linked_handle _ _ _ _ _ Hl _ _ He) as Hh.
  unfold LIRS.handle_ok in Hh. by rewrite Hf in Hh.
Qed.

Lemma linked_not_elem_of l b m key :
  linked l b m → m !! key = None → key ∉ l.*2.
Proof.
  intros Hl Hm Hin. apply (linked_dom _ _ _ _ _ Hl) in Hin as [e He]. congruence.
Qed.

(** The table changes at one key, the list does not. *)
Lemma linked_insert l b b' m key e' :
  linked l b m → (b ≤ b')%nat → handle_ok l key e' → linked l b' (<[key := e']> m).
Proof.
  intros [Hids Hkeys Hb Hh Hd] Hbb He'. split; try done.
  - intros i Hi. apply Hb in Hi. lia.
  - intros k e. rewrite lookup_insert. case_decide; intros ?; simplify_eq; eauto.
  - intros k Hk. rewrite lookup_insert. case_decide; eauto.
Qed.

Lemma linked_delete l b b' m key :
  linked l b m → (b ≤ b')%nat → key ∉ l.*2 → linked l b' (delete key m).
Proof.
  intros [Hids Hkeys Hb Hh Hd] Hbb Hk. split; try done.
  - intros i Hi. apply Hb in Hi. lia.
  - intros k e. rewrite lookup_delete. case_decide; intros ?; simplify_eq; eauto.
  - intros k Hin. rewrite lookup_delete. case_decide; simplify_eq; eauto. done.
Qed.

Lemma linked_bound_mono l b b' m : linked l b m → (b ≤ b')%nat → linked l b' m.
Proof.
  intros [Hids Hkeys Hb Hh Hd] Hbb. split; try done.
  intros i Hi. apply Hb in Hi. lia.
Qed.

(** [push_front] of a key that has no node. *)
Lemma linked_push l b b' m key e' :
  linked l b m → (b < b')%nat → key ∉ l.*2 →
  flag e' = true → it e' = Some b →
  linked (push_front b key l) b' (<[key := e']> m).
Proof.
  intros [Hids Hkeys Hb Hh Hd] Hbb Hk Hf Hi. unfold push_front. split; simpl.
  - apply NoDup_cons. split; [|done]. intros Hin. apply Hb in Hin. lia.
  - apply NoDup_cons. done.
  - intros i [->|Hin]%elem_of_cons; [lia|]. apply Hb in Hin. lia.
  - intros k e. rewrite lookup_insert. case_decide as Hkk; intros He; simplify_eq.
    + unfold LIRS.handle_ok. rewrite Hf. exists b. simpl. by rewrite decide_True.
    + specialize (Hh _ _ He). unfold LIRS.handle_ok in *. destruct (flag e).
      * destruct Hh as (i & Hit & Hn). exists i. split; [done|]. simpl.
        rewrite decide_False; [done|]. intros ->.
        assert (b ∈ l.*1) as Hin%Hb; [|lia].
        apply node_at_is_Some. eauto.
      * simpl. rewrite not_elem_of_cons. done.
  - intros k [->|Hin]%elem_of_cons; rewrite lookup_insert; case_decide; eauto; done.
Qed.

(** [erase] of the node of a key whose flag is cleared, or whose entry
    is erased. *)
Lemma linked_erase_keys l b m i key :
  linked l b m → node_at i l = Some key →
  NoDup (erase_node i l).*1 ∧ NoDup (erase_node i l).*2 ∧
  (key ∉ (erase_node i l).*2) ∧
  (∀ k, k ≠ key → k ∈ l.*2 → k ∈ (erase_node i l).*2) ∧
  (∀ k, k ∈ (erase_node i l).*2 → k ∈ l.*2) ∧
  (∀ j, j ∈ (erase_node i l).*1 → j ∈ l.*1).
Proof.
  intros [Hids Hkeys Hb Hh Hd] Hn.
  destruct (node_at_split _ _ _ Hn) as (l1 & l2 & -> & Hni & -> & _).
  rewrite !fmap_app, !fmap_cons in *. simpl in *.
  apply NoDup_app in Hids as (Hi1 & Hi12 & [Hi2 Hi3]%NoDup_cons).
  apply NoDup_app in Hkeys as (Hk1 & Hk12 & [Hk2 Hk3]%NoDup_cons).
  split_and!.
  - apply NoDup_app. split_and!; [done| |done].
    intros j Hj Hj2. apply (Hi12 j Hj). by right.
  - apply NoDup_app. split_and!; [done| |done].
    intros k Hk Hk'. apply (Hk12 k Hk). by right.
  - rewrite elem_of_app. intros [Hin|Hin]; [|done].
    apply (Hk12 key Hin). by left.
  - intros k Hne. rewrite !elem_of_app, elem_of_cons.
    intros [?|[?|?]]; [by left | done | by right].
  - intros k. rewrite !elem_of_app, elem_of_cons. tauto.
  - intros j. rewrite !elem_of_app, elem_of_cons. tauto.
Qed.

Lemma linked_erase_handle l b m i key k e :
  linked l b m → node_at i l = Some key → k ≠ key →
  handle_ok l k e → handle_ok (erase_node i l) k e.
Proof.
  intros Hl Hn Hne. unfold LIRS.handle_ok. destruct (flag e).
  - intros (j & Hj & Hnj). exists j. split; [done|].
    rewrite node_at_erase_ne; [done|]. intros ->. congruence.
  - intros Hk Hin. apply Hk.
    by apply (linked_erase_keys _ _ _ _ _ Hl Hn).
Qed.

Lemma linked_erase_insert l b b' m i key e' :
  linked l b m → (b ≤ b')%nat → node_at i l = Some key → flag e' = false →
  linked (erase_node i l) b' (<[key := e']> m).
Proof.
  intros Hl Hbb Hn Hf.
  destruct (linked_erase_keys _ _ _ _ _ Hl Hn) as (Hi & Hk & Hkey & Hin & Hsub & Hsubi).
  split; try done.
  - intros j Hj%Hsubi. apply (linked_bound _ _ _ _ _ Hl) in Hj. lia.
  - intros k e. rewrite lookup_insert. case_decide; intros He; simplify_eq.
    + unfold LIRS.handle_ok. by rewrite Hf.
    + eapply linked_erase_handle; eauto. by eapply linked_handle.
  - intros k Hk'. rewrite lookup_insert. case_decide; [eauto|].
    by apply (linked_dom _ _ _ _ _ Hl), Hsub.
Qed.

Lemma linked_erase_delete l b b' m i key :
  linked l b m → (b ≤ b')%nat → node_at i l = Some key →
  linked (erase_node i l) b' (delete key m).
Proof.
  intros Hl Hbb Hn.
  destruct (linked_erase_keys _ _ _ _ _ Hl Hn) as (Hi & Hk & Hkey & Hin & Hsub & Hsubi).
  split; try done.
  - intros j Hj%Hsubi. apply (linked_bound _ _ _ _ _ Hl) in Hj. lia.
  - intros k e. rewrite lookup_delete. case_decide; intros He; simplify_eq.
    eapply linked_erase_handle; eauto. by eapply linked_handle.
  - intros k Hk'. rewrite lookup_delete. case_decide; simplify_eq; [done|].
    by apply (linked_dom _ _ _ _ _ Hl), Hsub.
Qed.

(** [erase] followed by [push_front] of the same key. *)
Lemma linked_move_top l b b' m i key e' :
  linked l b m → (b < b')%nat → node_at i l = Some key →
  flag e' = true → it e' = Some b →
  linked (push_front b key (erase_node i l)) b' (<[key := e']> m).
Proof.
  intros Hl Hbb Hn Hf Hi.
  rewrite <- (insert_delete_eq m).
  apply linked_push with (b := b); try done.
  - apply linked_erase_delete with (b := b); [done | lia | done].
  - by apply (linked_erase_keys _ _ _ _ _ Hl Hn).
Qed.

(** [pop_back] is [erase] of the last node. *)
Lemma linked_back l b m key :
  linked l b m → back l = Some key →
  ∃ i, node_at i l = Some key ∧ erase_node i l = pop_back l ∧
       l = pop_back l ++ [(i, key)].
Proof.
  intros Hl [i Hi]%back_Some. exists i.
  assert (i ∉ (pop_back l).*1) as Hni.
  { pose proof (linked_ids _ _ _ _ _ Hl) as Hnd. rewrite Hi, fmap_app in Hnd.
    apply NoDup_app in Hnd as (_ & Hnd & _). intros Hin.
    apply (Hnd _ Hin). simpl. by left. }
  split_and!; [|  |done].
  - rewrite Hi at 1. by apply node_at_snoc.
  - rewrite Hi at 1. by apply erase_node_snoc.
Qed.
End LinkedFacts.

(** * The values do not steer the reorganisation *)

Section ValueIndependence.
Context `{Countable K} {V V' : Type} (f : V → V').
Implicit Types (c : LIRSCache K V) (key k : K).

Lemma node_at_vmap (l : NodeList (K * V)) i :
  node_at i (prod_map id (prod_map id f) <$> l) = prod_map id f <$> node_at i l.
Proof.
  induction l as [|[j [k v]] l IH]; simpl; [done|]. case_decide; [done | apply IH].
Qed.

Lemma erase_node_vmap (l : NodeList (K * V)) i :
  erase_node i (prod_map id (prod_map id f) <$> l)
  = prod_map id (prod_map id f) <$> erase_node i l.
Proof.
  induction l as [|[j [k v]] l IH]; simpl; [done|]. case_decide; simpl; [done | by f_equal].
Qed.

Lemma set_node_vmap (l : NodeList (K * V)) i (kv : K * V) :
  set_node i (prod_map id f kv) (prod_map id (prod_map id f) <$> l)
  = prod_map id (prod_map id f) <$> set_node i kv l.
Proof.
  induction l as [|[j [k v]] l IH]; simpl; [done|]. case_decide; simpl; [done | by f_equal].
Qed.

Lemma erase_vmap (l : NodeList (K * V)) it :
  erase it (prod_map id (prod_map id f) <$> l)
  = fmap (M := list) (prod_map id (prod_map id f)) <$> erase it l.
Proof.
  unfold erase. destruct it as [i|]; simpl; [|done]. rewrite node_at_vmap.
  destruct (node_at i l); simpl; [|done]. by rewrite erase_node_vmap.
Qed.

Lemma modify_vmap (l : NodeList (K * V)) it value :
  modify it (set_second (f value)) (prod_map id (prod_map id f) <$> l)
  = fmap (M := list) (prod_map id (prod_map id f)) <$> modify it (set_second value) l.
Proof.
  unfold modify. destruct it as [i|]; simpl; [|done]. rewrite node_at_vmap.
  destruct (node_at i l) as [[k v]|]; simpl; [|done].
  f_equal. apply (set_node_vmap l i (k, value)).
Qed.

Lemma stack_pruning_vmap c : stack_pruning (vmap f c) = vmap f (stack_pruning c).
Proof.
  unfold stack_pruning, vmap. simpl.
  by destruct (stack_pruning_loop (reverse (lirs_stack_ c)) (map_ c)).
Qed.

Lemma demote_bottom_lir_vmap c : demote_bottom_lir (vmap f c) = vmap f (demote_bottom_lir c).
Proof.
  unfold demote_bottom_lir, vmap. simpl.
  destruct (back (lirs_stack_ c)) as [bottom_key|]; [|done]. simpl.
  unfold map_index. simpl.
  by destruct (is_LIR (default Entry_default (map_ c !! bottom_key))).
Qed.

Lemma upd_entry_vmap key g c : upd_entry key g (vmap f c) = vmap f <$> upd_entry key g c.
Proof. unfold upd_entry, vmap. simpl. by destruct (map_ c !! key). Qed.

Lemma promote_to_lir_vmap key c :
  promote_to_lir key (vmap f c) = vmap f <$> promote_to_lir key c.
Proof.
  unfold promote_to_lir, upd_entry. simpl.
  destruct (map_ c !! key) as [e|]; simpl; [|done].
  rewrite ?lookup_insert_eq. simpl.
  destruct (erase (lirs_iter e) (lirs_stack_ c)) as [s|]; simpl; [|done].
  rewrite ?lookup_insert_eq. simpl.
  destruct (in_hir_stack e); simpl.
  - destruct (erase (hir_iter e) (hir_stack_ c)) as [q|]; simpl; [|done].
    rewrite ?lookup_insert_eq. simpl.
    f_equal. rewrite <- stack_pruning_vmap, <- demote_bottom_lir_vmap. done.
  - f_equal. rewrite <- stack_pruning_vmap, <- demote_bottom_lir_vmap. done.
Qed.

Lemma evict_hir_resident_vmap c :
  evict_hir_resident (vmap f c) = vmap f <$> evict_hir_resident c.
Proof.
  unfold evict_hir_resident. simpl.
  destruct (back (hir_stack_ c)) as [victim_key|]; [|done]. simpl.
  unfold map_index. simpl. rewrite erase_vmap.
  destruct (erase _ (cache_ c)); simpl; [|done]. done.
Qed.

Lemma access_lir_vmap key c : access_lir key (vmap f c) = vmap f <$> access_lir key c.
Proof.
  unfold access_lir, upd_entry. simpl.
  destruct (back (lirs_stack_ c)) as [bottom|]; simpl; [|done].
  destruct (map_ c !! key) as [e|]; simpl; [|done].
  destruct (erase (lirs_iter e) (lirs_stack_ c)) as [s|]; simpl; [|done].
  rewrite ?He. simpl. f_equal. case_bool_decide; [|done].
  by rewrite <- stack_pruning_vmap.
Qed.

Lemma access_hir_resident_vmap key c :
  access_hir_resident key (vmap f c) = vmap f <$> access_hir_resident key c.
Proof.
  unfold access_hir_resident. simpl.
  destruct (map_ c !! key) as [e|] eqn:He; simpl; [|done].
  destruct (in_lirs_stack e); [apply promote_to_lir_vmap|].
  unfold upd_entry. simpl. rewrite He. simpl. rewrite ?lookup_insert_eq. simpl.
  destruct (erase (hir_iter e) (hir_stack_ c)) as [q|]; simpl; [|done].
  rewrite ?lookup_insert_eq. done.
Qed.

Lemma access_hir_non_resident_vmap key value c :
  access_hir_non_resident key (f value) (vmap f c)
  = vmap f <$> access_hir_non_resident key value c.
Proof.
  unfold access_hir_non_resident. rewrite evict_hir_resident_vmap.
  destruct (evict_hir_resident c) as [c1|]; simpl; [|done].
  unfold upd_entry. simpl.
  destruct (map_ c1 !! key) as [e|] eqn:He; simpl; [|done].
  rewrite ?lookup_insert_eq. simpl.
  destruct (in_lirs_stack e).
  - rewrite <- promote_to_lir_vmap. done.
  - simpl. rewrite ?lookup_insert_eq. simpl. rewrite ?lookup_insert_eq. done.
Qed.

Lemma insert_new_vmap key value c :
  insert_new key (f value) (vmap f c) = vmap f <$> insert_new key value c.
Proof.
  unfold insert_new. simpl. destruct (lir_count_ c <? lir_capacity_ c); [done|].
  rewrite evict_hir_resident_vmap.
  destruct (evict_hir_resident c) as [c1|]; simpl; done.
Qed.

Lemma put_vmap key value c : put key (f value) (vmap f c) = vmap f <$> put key value c.
Proof.
  unfold put. simpl. destruct (map_ c !! key) as [e|]; [|apply insert_new_vmap].
  destruct (is_LIR e); [|destruct (is_resident e)].
  - rewrite modify_vmap. destruct (modify _ _ _) as [l|]; simpl; [|done].
    apply (access_lir_vmap key (with_cache l c)).
  - rewrite modify_vmap. destruct (modify _ _ _) as [l|]; simpl; [|done].
    apply (access_hir_resident_vmap key (with_cache l c)).
  - apply access_hir_non_resident_vmap.
Qed.
End ValueIndependence.

Section ValueIndependencePut.
Context `{Countable K} {V : Type}.
Implicit Types (c : LIRSCache K V) (key k : K).

(** Two [put]s of the same key with different values succeed together
    and leave the same S and Q. *)
Lemma put_value_independent key v1 v2 c c1 :
  put key v1 c = Some c1 →
  ∃ c2, put key v2 c = Some c2 ∧
        lirs_stack_ c2 = lirs_stack_ c1 ∧ hir_stack_ c2 = hir_stack_ c1 ∧
        map_ c2 = map_ c1.
Proof.
  intros Hp1.
  pose proof (put_vmap (λ _ : V, ()) key v1 c) as H1.
  pose proof (put_vmap (λ _ : V, ()) key v2 c) as H2.
  simpl in *. rewrite H1, Hp1 in H2. simpl in H2.
  destruct (put key v2 c) as [c2|]; simplify_eq/=.
  exists c2. unfold vmap in H2. by simplify_eq.
Qed.
End ValueIndependencePut.

(** * The engine keeps its state well formed *)

Section Operations.
Context `{Countable K} {V : Type}.
Implicit Types (c : LIRSCache K V) (m : gmap K Entry) (key k : K) (e : Entry).

Local Abbreviation linked_S := (linked (K:=K) in_lirs_stack lirs_iter).
Local Abbreviation linked_Q := (linked (K:=K) in_hir_stack hir_iter).
Local Abbreviation linked_C := (linked (K:=K) is_resident data_iter).

Lemma flags_lookup m key e : flags m → m !! key = Some e → flags_ok e = true.
Proof. intros Hm He. exact (Hm _ _ He). Qed.

Lemma flags_insert m key e : flags m → flags_ok e = true → flags (<[key := e]> m).
Proof. intros Hm He. by apply map_Forall_insert_2. Qed.

Lemma flags_delete m key : flags m → flags (delete key m).
Proof. apply map_Forall_delete. Qed.

(** An entry whose flag and iterator for a list are unchanged still
    agrees with the list. *)
Lemma handle_ok_ext (flag : Entry → bool) (it : Entry → Iter) (l : NodeList K) key e e' :
  flag e' = flag e → it e' = it e →
  handle_ok flag it l key e → handle_ok flag it l key e'.
Proof. unfold handle_ok. by intros -> ->. Qed.

Lemma handle_ok_clear (flag : Entry → bool) (it : Entry → Iter) (l : NodeList K) key e e' :
  flag e' = false → flag e = false →
  handle_ok flag it l key e → handle_ok flag it l key e'.
Proof. unfold handle_ok. by intros -> ->. Qed.

(** ** The value list as a list of keys *)

Lemma keyed_ids (l : NodeList (K * V)) : (keyed l).*1 = l.*1.
Proof.
  unfold keyed. rewrite <- list_fmap_compose. apply list_fmap_ext.
  by intros _ [i [k v]] _.
Qed.

Lemma keyed_keys (l : NodeList (K * V)) : (keyed l).*2 = l.*2.*1.
Proof.
  unfold keyed. rewrite <- !list_fmap_compose. apply list_fmap_ext.
  by intros _ [i [k v]] _.
Qed.

Lemma keyed_length (l : NodeList (K * V)) : length (keyed l) = length l.
Proof. apply length_fmap. Qed.

Lemma node_at_keyed (l : NodeList (K * V)) i : node_at i (keyed l) = fst <$> node_at i l.
Proof.
  induction l as [|[j [k v]] l IH]; simpl; [done|].
  case_decide; [done | apply IH].
Qed.

Lemma keyed_erase_node (l : NodeList (K * V)) i :
  keyed (erase_node i l) = erase_node i (keyed l).
Proof.
  induction l as [|[j [k v]] l IH]; simpl; [done|].
  case_decide; simpl; [done | by f_equal].
Qed.

Lemma keyed_set_node (l : NodeList (K * V)) i x y :
  node_at i l = Some x → y.1 = x.1 → keyed (set_node i y l) = keyed l.
Proof.
  intros Hx Hy. induction l as [|[j [k v]] l IH]; simpl in *; [done|].
  case_decide; simplify_eq/=; [done | f_equal; auto].
Qed.

(** ** [stack_pruning] *)

Lemma map_index_lookup m key e :
  m !! key = Some e → map_index key m = (e, m).
Proof. intros He. unfold map_index. rewrite He. simpl. by rewrite insert_id. Qed.

Lemma stack_pruning_loop_cons i key (rest : NodeList K) m e :
  m !! key = Some e →
  stack_pruning_loop ((i, key) :: rest) m =
    if is_LIR e then ((i, key) :: rest, m)
    else stack_pruning_loop rest
           (if negb (is_resident e)
            then delete key m else <[key := set_in_lirs_stack false e]> m).
Proof.
  intros He. cbn [stack_pruning_loop]. rewrite (map_index_lookup _ _ _ He).
  destruct (is_LIR e); [done|]. cbn [is_resident set_in_lirs_stack].
  destruct (is_resident e); cbn [negb]; [done|]. by rewrite delete_insert_eq.
Qed.

Lemma stack_pruning_loop_spec (Q C : NodeList K) b bottom_up m :
  linked_S (reverse bottom_up) b m → linked_Q Q b m → linked_C C b m → flags m →
  ∃ popped rest m',
    stack_pruning_loop bottom_up m = (rest, m') ∧
    bottom_up = popped ++ rest ∧
    linked_S (reverse rest) b m' ∧ linked_Q Q b m' ∧ linked_C C b m' ∧ flags m' ∧
    (∀ k, store_iter m' k = store_iter m k) ∧
    (∀ k, from_option is_LIR false (m' !! k) = from_option is_LIR false (m !! k)) ∧
    (∀ k, k ∈ popped.*2 → from_option is_LIR false (m !! k) = false) ∧
    (∀ i k, head rest = Some (i, k) → from_option is_LIR false (m !! k) = true) ∧
    (popped = [] → m' = m).
Proof.
  revert m. induction bottom_up as [|[i key] bottom_up IH]; intros m HS HQ HC Hf.
  { exists [], [], m. simpl. split_and!; try done.
    intros k Hk. by apply elem_of_nil in Hk. }
  pose proof HS as HS0. rewrite reverse_cons in HS.
  assert (back (reverse bottom_up ++ [(i, key)]) = Some key) as Hback by apply back_snoc.
  destruct (linked_back _ _ _ _ _ _ HS Hback) as (j & Hnode & Herase & _).
  rewrite pop_back_snoc in Herase.
  assert (is_Some (m !! key)) as [e He].
  { apply (linked_dom _ _ _ _ _ HS). rewrite fmap_app, elem_of_app. right. simpl. by left. }
  pose proof (flags_lookup _ _ _ Hf He) as Hfe.
  rewrite (stack_pruning_loop_cons _ _ _ _ _ He).
  destruct (is_LIR e) eqn:HLIR.
  { exists [], ((i, key) :: bottom_up), m. simpl. split_and!; try done.
    - intros k Hk. by apply elem_of_nil in Hk.
    - intros i' k ?; simplify_eq. by rewrite He. }
  set (e' := set_in_lirs_stack false e).
  set (m1 := if negb (is_resident e) then delete key m else <[key := e']> m).
  assert (linked_S (reverse bottom_up) b m1 ∧ linked_Q Q b m1 ∧ linked_C C b m1 ∧ flags m1 ∧
          (∀ k, store_iter m1 k = store_iter m k) ∧
          (∀ k, from_option is_LIR false (m1 !! k) = from_option is_LIR false (m !! k)))
    as (HS1 & HQ1 & HC1 & Hf1 & Hst1 & Hlir1).
  { subst m1. unfold flags_ok in Hfe. rewrite HLIR in Hfe.
    apply andb_true_iff in Hfe as [Hres%bool_decide_eq_true Hin].
    destruct (is_resident e) eqn:Hr; simpl.
    - split_and!.
      + rewrite <- Herase. by apply linked_erase_insert with (b := b).
      + apply linked_insert with (b := b); [done|done|].
        eapply handle_ok_ext; [..|by eapply linked_handle]; done.
      + apply linked_insert with (b := b); [done|done|].
        eapply handle_ok_ext; [..|by eapply linked_handle]; done.
      + apply flags_insert; [done|]. unfold flags_ok. simpl.
        by rewrite HLIR, Hr, <- Hres.
      + intros k. unfold store_iter. rewrite lookup_insert.
        case_decide; simplify_eq; [|done]. by rewrite He.
      + intros k. rewrite lookup_insert. case_decide; simplify_eq; [|done]. by rewrite He.
    - split_and!.
      + rewrite <- Herase. by apply linked_erase_delete with (b := b).
      + apply linked_delete with (b := b); [done|done|].
        eapply linked_flag_elem_of in HQ; [|done]. rewrite <- HQ. congruence.
      + apply linked_delete with (b := b); [done|done|].
        eapply linked_flag_elem_of in HC; [|done]. rewrite <- HC. congruence.
      + by apply flags_delete.
      + intros k. unfold store_iter. rewrite lookup_delete.
        case_decide; simplify_eq; [|done]. rewrite He. simpl. by rewrite Hr.
      + intros k. rewrite lookup_delete. case_decide; simplify_eq; [|done].
        rewrite He. simpl. by rewrite HLIR. }
  destruct (IH m1 HS1 HQ1 HC1 Hf1)
    as (popped & rest & m' & Hloop & Hsplit & HS' & HQ' & HC' & Hf' & Hst' & Hlir' & Hpop & Hhd & _).
  exists ((i, key) :: popped), rest, m'. split_and!; try done.
  - by rewrite Hsplit.
  - intros k. by rewrite Hst', Hst1.
  - intros k. by rewrite Hlir', Hlir1.
  - intros k. rewrite fmap_cons. intros [->|Hk]%elem_of_cons.
    + simpl. rewrite He. done.
    + rewrite <- Hlir1. by apply Hpop.
  - intros i' k Hk. rewrite <- Hlir1. by eapply Hhd.
Qed.
Lemma flags_ok_LIR e :
  flags_ok e = true → is_LIR e = true →
  is_resident e = true ∧ in_lirs_stack e = true ∧ in_hir_stack e = false.
Proof.
  unfold flags_ok. intros Hf HL. rewrite HL in Hf.
  destruct (is_resident e), (in_lirs_stack e), (in_hir_stack e); done.
Qed.

Lemma flags_ok_HIR e :
  flags_ok e = true → is_LIR e = false →
  is_resident e = in_hir_stack e ∧ (in_lirs_stack e = true ∨ in_hir_stack e = true).
Proof.
  unfold flags_ok. intros Hf HL. rewrite HL in Hf.
  destruct (is_resident e), (in_lirs_stack e), (in_hir_stack e); simpl in *; try done; auto.
Qed.

Lemma stack_pruning_spec c :
  WF c →
  ∃ popped rest m',
    stack_pruning c = with_map m' (with_lirs_stack rest c) ∧
    lirs_stack_ c = rest ++ popped ∧
    WF (stack_pruning c) ∧
    (∀ k, store_iter m' k = store_iter (map_ c) k) ∧
    (∀ k, from_option is_LIR false (m' !! k) = from_option is_LIR false (map_ c !! k)) ∧
    (∀ k, k ∈ popped.*2 → lir c k = false) ∧
    (∀ k, back rest = Some k → lir c k = true) ∧
    (popped = [] → stack_pruning c = c).
Proof.
  intros [[HS HQ HC] Hf].
  rewrite <- (reverse_involutive (lirs_stack_ c)) in HS.
  destruct (stack_pruning_loop_spec _ _ _ _ _ HS HQ HC Hf)
    as (popped & rest & m' & Hloop & Hsplit & HS' & HQ' & HC' & Hf' & Hst & Hlir & Hpop & Hhd & Hid).
  exists (reverse popped), (reverse rest), m'. unfold stack_pruning. rewrite Hloop.
  split_and!; try done.
  - rewrite <- reverse_app, <- Hsplit. by rewrite reverse_involutive.
  - intros k Hk. apply Hpop. by rewrite fmap_reverse, elem_of_reverse in Hk.
  - intros k Hk. unfold back in Hk. rewrite last_reverse in Hk.
    destruct (head rest) as [[i k']|] eqn:Hh; simplify_eq/=. by eapply Hhd.
  - intros Hnil. assert (popped = []) as ->.
    { apply (f_equal reverse) in Hnil. by rewrite reverse_involutive in Hnil. }
    rewrite Hid by done. simpl in Hsplit. rewrite <- Hsplit, reverse_involutive.
    by destruct c.
Qed.

Lemma same_config_refl c : same_config c c.
Proof. done. Qed.

Lemma same_config_trans c1 c2 c3 : same_config c1 c2 → same_config c2 c3 → same_config c1 c3.
Proof. unfold same_config. intros (?&?&?) (?&?&?). split_and!; congruence. Qed.

Lemma same_store_refl c : same_store c c.
Proof. done. Qed.

Lemma same_store_trans c1 c2 c3 : same_store c1 c2 → same_store c2 c3 → same_store c1 c3.
Proof.
  intros (Hc & Hd & Hs) (Hc' & Hd' & Hs'). split_and!.
  - by eapply same_config_trans.
  - congruence.
  - intros k. by rewrite Hs', Hs.
Qed.

Lemma same_store_stored c c' key : same_store c c' → stored c' key = stored c key.
Proof. intros (_ & Hd & Hs). unfold stored. by rewrite Hs, Hd. Qed.

Lemma store_iter_resident m key :
  from_option is_resident false (m !! key) = bool_decide (is_Some (store_iter m key)).
Proof.
  unfold store_iter. destruct (m !! key) as [e|]; simpl; [destruct (is_resident e)|]; done.
Qed.

Lemma same_store_resident c c' key : same_store c c' → resident c' key = resident c key.
Proof. intros (_ & _ & Hs). unfold resident. by rewrite !store_iter_resident, Hs. Qed.

Lemma same_store_size c c' : same_store c c' → size c' = size c.
Proof. intros (_ & Hd & _). unfold size. by rewrite Hd. Qed.

Lemma store_iter_insert m key e e' k :
  m !! key = Some e → is_resident e' = is_resident e → data_iter e' = data_iter e →
  store_iter (<[key := e']> m) k = store_iter m k.
Proof.
  intros He Hr Hd. unfold store_iter. rewrite lookup_insert.
  case_decide; simplify_eq; [|done]. rewrite He. simpl. by rewrite Hr, Hd.
Qed.

Lemma stack_pruning_same_store c : WF c → same_store c (stack_pruning c).
Proof.
  intros (popped & rest & m' & -> & _ & _ & Hst & _)%stack_pruning_spec.
  split_and!; done.
Qed.

Lemma stack_pruning_WF c : WF c → WF (stack_pruning c).
Proof. by intros (popped & rest & m' & _ & _ & ? & _)%stack_pruning_spec. Qed.

(** ** [demote_bottom_lir] *)

Lemma demote_bottom_lir_empty c : lirs_stack_ c = [] → demote_bottom_lir c = c.
Proof. intros Hs. unfold demote_bottom_lir. by rewrite Hs. Qed.

Lemma with_map_id c : with_map (map_ c) c = c.
Proof. by destruct c. Qed.

Lemma demote_bottom_lir_eq c bottom_key e :
  back (lirs_stack_ c) = Some bottom_key → map_ c !! bottom_key = Some e →
  demote_bottom_lir c = if is_LIR e then demoted c bottom_key e else c.
Proof.
  intros Hb He. unfold demote_bottom_lir. rewrite Hb, (map_index_lookup _ _ _ He).
  rewrite with_map_id. destruct (is_LIR e); done.
Qed.

Lemma demoted_WF c bottom_key e :
  WF c → back (lirs_stack_ c) = Some bottom_key → map_ c !! bottom_key = Some e →
  is_LIR e = true → WF (demoted c bottom_key e) ∧ same_store c (demoted c bottom_key e).
Proof.
  intros [[HS HQ HC] Hf] Hb He HLIR.
  destruct (flags_ok_LIR _ (flags_lookup _ _ _ Hf He) HLIR) as (Hr & HinS & HinQ).
  destruct (linked_back _ _ _ _ _ _ HS Hb) as (j & Hnode & Herase & _).
  split; [split; [split|]|]; simpl.
  - rewrite <- Herase. by apply linked_erase_insert with (b := next_node_ c); [|lia|..].
  - apply linked_push with (b := next_node_ c); try done; [lia|].
    eapply linked_flag_elem_of in HQ; [|done]. rewrite <- HQ. congruence.
  - apply linked_insert with (b := next_node_ c); [done|lia|].
    eapply handle_ok_ext; [..|by eapply linked_handle]; done.
  - apply flags_insert; [done|]. unfold flags_ok. simpl. by rewrite Hr.
  - split_and!; try done. intros k. simpl. by eapply store_iter_insert.
Qed.

Lemma demote_bottom_lir_WF c : WF c → WF (demote_bottom_lir c) ∧ same_store c (demote_bottom_lir c).
Proof.
  intros Hwf. destruct (back (lirs_stack_ c)) as [bk|] eqn:Hb.
  - assert (is_Some (map_ c !! bk)) as [e He].
    { destruct Hwf as [[HS _ _] _]. apply (linked_dom _ _ _ _ _ HS).
      apply back_Some in Hb as [i Hi]. rewrite Hi, fmap_app, elem_of_app. right. simpl. by left. }
    rewrite (demote_bottom_lir_eq _ _ _ Hb He). destruct (is_LIR e) eqn:HLIR.
    + by apply demoted_WF.
    + done.
  - apply back_None in Hb. by rewrite demote_bottom_lir_empty.
Qed.

(** ** [promote_to_lir] *)

Lemma set_in_hir_stack_false_id e : in_hir_stack e = false → set_in_hir_stack false e = e.
Proof. destruct e. simpl. by intros ->. Qed.

Lemma promote_to_lir_eq c key e i :
  links c → map_ c !! key = Some e → in_lirs_stack e = true →
  lirs_iter e = Some i → node_at i (lirs_stack_ c) = Some key →
  promote_to_lir key c =
    Some (stack_pruning (demote_bottom_lir (promoted c key e i (without_key c key e)))).
Proof.
  intros [HS HQ HC] He HinS Hi Hnode.
  unfold promote_to_lir, upd_entry. rewrite He. simpl.
  rewrite lookup_insert_eq. simpl. rewrite Hi. unfold erase. simpl. rewrite Hnode. simpl.
  rewrite !lookup_insert_eq. simpl.
  unfold without_key, promoted.
  destruct (in_hir_stack e) eqn:HinQ.
  - destruct (linked_node _ _ _ _ _ _ _ HQ He HinQ) as (j & Hj & Hnj).
    rewrite Hj. simpl. rewrite Hnj. simpl. rewrite ?lookup_insert_eq. simpl.
    rewrite !insert_insert_eq. done.
  - simpl. rewrite !insert_insert_eq. do 3 f_equal.
    unfold with_map, with_next_node, with_lirs_stack, with_lir_count. simpl. do 2 f_equal.
    symmetry. by apply set_in_hir_stack_false_id.
Qed.

Lemma promoted_WF c key e i :
  links c → flags (delete key (map_ c)) → map_ c !! key = Some e →
  is_resident e = true → in_lirs_stack e = true →
  lirs_iter e = Some i → node_at i (lirs_stack_ c) = Some key →
  WF (promoted c key e i (without_key c key e)) ∧
  same_store c (promoted c key e i (without_key c key e)).
Proof.
  intros [HS HQ HC] Hf He Hr HinS Hi Hnode.
  split; [split; [split|]|]; simpl.
  - by apply linked_move_top with (b := next_node_ c); [|lia|..].
  - unfold without_key. destruct (in_hir_stack e) eqn:HinQ.
    + destruct (linked_node _ _ _ _ _ _ _ HQ He HinQ) as (j & Hj & Hnj).
      rewrite Hj. simpl. by apply linked_erase_insert with (b := next_node_ c); [|lia|..].
    + apply linked_insert with (b := next_node_ c); [done|lia|].
      eapply handle_ok_clear; [..|by eapply linked_handle]; done.
  - apply linked_insert with (b := next_node_ c); [done|lia|].
    eapply handle_ok_ext; [..|by eapply linked_handle]; done.
  - rewrite <- insert_delete_eq. apply flags_insert; [done|].
    unfold flags_ok. simpl. by rewrite Hr, HinS.
  - split_and!; try done. intros k. simpl. by eapply store_iter_insert.
Qed.


(** ** What stays on top of S *)

Lemma top_is_prefix (l l' : NodeList K) key : l `prefix_of` l' → top_is l' key → top_is l key.
Proof.
  intros [t ->] Ht p Hp. apply Ht. destruct l; simplify_eq/=. done.
Qed.

Lemma top_is_push n key (l : NodeList K) : top_is (push_front n key l) key.
Proof. intros p Hp. by simplify_eq/=. Qed.

Lemma stack_pruning_prefix c : WF c → lirs_stack_ (stack_pruning c) `prefix_of` lirs_stack_ c.
Proof.
  intros (popped & rest & m' & -> & -> & _)%stack_pruning_spec. simpl. by exists popped.
Qed.

Lemma pop_back_prefix {A} (l : NodeList A) : pop_back l `prefix_of` l.
Proof.
  destruct (back l) as [x|] eqn:Hb.
  - apply back_Some in Hb as [i Hi]. by exists [(i, x)].
  - apply back_None in Hb as ->. done.
Qed.

Lemma demote_bottom_lir_prefix c :
  WF c → lirs_stack_ (demote_bottom_lir c) `prefix_of` lirs_stack_ c.
Proof.
  intros Hwf. destruct (back (lirs_stack_ c)) as [bk|] eqn:Hb.
  - assert (is_Some (map_ c !! bk)) as [e He].
    { destruct Hwf as [[HS _ _] _]. apply (linked_dom _ _ _ _ _ HS).
      apply back_Some in Hb as [i Hi]. rewrite Hi, fmap_app, elem_of_app. right. simpl. by left. }
    rewrite (demote_bottom_lir_eq _ _ _ Hb He). destruct (is_LIR e); [|done].
    simpl. apply pop_back_prefix.
  - apply back_None in Hb. by rewrite demote_bottom_lir_empty.
Qed.

Lemma promote_to_lir_spec c key e :
  links c → flags (delete key (map_ c)) → map_ c !! key = Some e →
  is_resident e = true → in_lirs_stack e = true →
  ∃ c', promote_to_lir key c = Some c' ∧ WF c' ∧ same_store c c' ∧
        top_is (lirs_stack_ c') key.
Proof.
  intros Hl Hf He Hr HinS.
  destruct (linked_node _ _ _ _ _ _ _ (links_S _ Hl) He HinS) as (i & Hi & Hnode).
  eexists. split; [by eapply promote_to_lir_eq|].
  destruct (promoted_WF c key e i) as [Hwf1 Hs1]; try done.
  destruct (demote_bottom_lir_WF _ Hwf1) as [Hwf2 Hs2].
  split_and!.
  - by apply stack_pruning_WF.
  - eapply same_store_trans; [done|]. eapply same_store_trans; [done|].
    by apply stack_pruning_same_store.
  - eapply top_is_prefix; [by apply stack_pruning_prefix|].
    eapply top_is_prefix; [by apply demote_bottom_lir_prefix|].
    apply top_is_push.
Qed.

(** ** [evict_hir_resident] *)

Lemma evict_hir_resident_empty c : hir_stack_ c = [] → evict_hir_resident c = Some c.
Proof. intros Hq. unfold evict_hir_resident. by rewrite Hq. Qed.

Lemma evict_hir_resident_eq c victim_key e d :
  back (hir_stack_ c) = Some victim_key → map_ c !! victim_key = Some e →
  data_iter e = Some d → is_Some (node_at d (cache_ c)) →
  evict_hir_resident c = Some (evicted c victim_key e d).
Proof.
  intros Hb He Hd [x Hx]. unfold evict_hir_resident. rewrite Hb.
  unfold with_hir_stack, with_cache, with_map. cbn [map_ cache_].
  rewrite (map_index_lookup _ _ _ He), Hd. unfold erase. simpl. rewrite Hx. simpl.
  unfold evicted. destruct (in_lirs_stack e); simpl; [done|].
  by rewrite delete_insert_eq.
Qed.

Lemma evict_victim c victim_key :
  WF c → back (hir_stack_ c) = Some victim_key →
  ∃ e d, map_ c !! victim_key = Some e ∧ is_LIR e = false ∧ is_resident e = true ∧
         in_hir_stack e = true ∧ data_iter e = Some d ∧
         node_at d (keyed (cache_ c)) = Some victim_key.
Proof.
  intros [[HS HQ HC] Hf] Hb.
  assert (victim_key ∈ (hir_stack_ c).*2) as Hin.
  { apply back_Some in Hb as [i Hi]. rewrite Hi, fmap_app, elem_of_app. right. simpl. by left. }
  destruct (linked_dom _ _ _ _ _ HQ _ Hin) as [e He].
  pose proof (proj2 (linked_flag_elem_of _ _ _ _ _ _ _ HQ He) Hin) as HinQ.
  pose proof (flags_lookup _ _ _ Hf He) as Hfe.
  assert (is_LIR e = false) as HLIR.
  { destruct (is_LIR e) eqn:HL; [|done]. apply flags_ok_LIR in Hfe as (_ & _ & ?); congruence. }
  destruct (flags_ok_HIR _ Hfe HLIR) as [Hr _]. rewrite HinQ in Hr.
  destruct (linked_node _ _ _ _ _ _ _ HC He Hr) as (d & Hd & Hnd).
  by exists e, d.
Qed.

Lemma evicted_WF c victim_key e d :
  WF c → back (hir_stack_ c) = Some victim_key → map_ c !! victim_key = Some e →
  is_LIR e = false → is_resident e = true → in_hir_stack e = true →
  data_iter e = Some d → node_at d (keyed (cache_ c)) = Some victim_key →
  WF (evicted c victim_key e d).
Proof.
  intros [[HS HQ HC] Hf] Hb He HLIR Hr HinQ Hd Hnd.
  destruct (linked_back _ _ _ _ _ _ HQ Hb) as (j & Hnode & Herase & _).
  unfold evicted. destruct (in_lirs_stack e) eqn:HinS.
  - split; [split|]; simpl.
    + apply linked_insert with (b := next_node_ c); [done|lia|].
      eapply handle_ok_ext; [..|by eapply linked_handle]; done.
    + rewrite <- Herase. by apply linked_erase_insert with (b := next_node_ c).
    + rewrite keyed_erase_node. by apply linked_erase_insert with (b := next_node_ c).
    + apply flags_insert; [done|]. unfold flags_ok. simpl. by rewrite HLIR, HinS.
  - split; [split|]; simpl.
    + apply linked_delete with (b := next_node_ c); [done|lia|].
      eapply linked_flag_elem_of in HS; [|done]. rewrite <- HS. congruence.
    + rewrite <- Herase. by apply linked_erase_delete with (b := next_node_ c).
    + rewrite keyed_erase_node. by apply linked_erase_delete with (b := next_node_ c).
    + by apply flags_delete.
Qed.

Lemma evict_hir_resident_WF c :
  WF c → ∃ c', evict_hir_resident c = Some c' ∧ WF c' ∧ same_config c c' ∧
               lir_count_ c' = lir_count_ c ∧ lirs_stack_ c' = lirs_stack_ c ∧
               next_node_ c' = next_node_ c ∧
               (∀ k e, map_ c !! k = Some e → is_resident e = false → map_ c' !! k = Some e).
Proof.
  intros Hwf. destruct (back (hir_stack_ c)) as [victim_key|] eqn:Hb.
  - destruct (evict_victim _ _ Hwf Hb) as (e & d & He & HLIR & Hr & HinQ & Hd & Hnd).
    exists (evicted c victim_key e d). split_and!; try done.
    + apply evict_hir_resident_eq; try done.
      rewrite node_at_keyed in Hnd. by destruct (node_at d (cache_ c)).
    + by apply evicted_WF.
    + intros k e' He' Hr'. simpl.
      assert (k ≠ victim_key) by (intros ->; congruence).
      destruct (in_lirs_stack e); [by rewrite lookup_insert_ne | by rewrite lookup_delete_ne].
  - apply back_None in Hb. exists c. split_and!; try done.
    by apply evict_hir_resident_empty.
Qed.

(** ** [access_lir] *)

Lemma access_lir_eq c key e i bottom :
  map_ c !! key = Some e → lirs_iter e = Some i →
  node_at i (lirs_stack_ c) = Some key → back (lirs_stack_ c) = Some bottom →
  access_lir key c =
    Some (if bool_decide (bottom = key) then stack_pruning (moved_top c key e i)
          else moved_top c key e i).
Proof.
  intros He Hi Hnode Hb. unfold access_lir, upd_entry. rewrite Hb. simpl.
  rewrite He. simpl. rewrite Hi. unfold erase. simpl. rewrite Hnode. simpl.
  done.
Qed.

Lemma moved_top_WF c key e i :
  WF c → map_ c !! key = Some e → in_lirs_stack e = true →
  lirs_iter e = Some i → node_at i (lirs_stack_ c) = Some key →
  WF (moved_top c key e i) ∧ same_store c (moved_top c key e i).
Proof.
  intros [[HS HQ HC] Hf] He HinS Hi Hnode.
  split; [split; [split|]|]; simpl.
  - by apply linked_move_top with (b := next_node_ c); [|lia|..].
  - apply linked_insert with (b := next_node_ c); [done|lia|].
    eapply handle_ok_ext; [..|by eapply linked_handle]; done.
  - apply linked_insert with (b := next_node_ c); [done|lia|].
    eapply handle_ok_ext; [..|by eapply linked_handle]; done.
  - apply flags_insert; [done|]. by apply (flags_lookup _ _ _ Hf He).
  - split_and!; try done. intros k. simpl. by eapply store_iter_insert.
Qed.

Lemma in_S_back c key e :
  WF c → map_ c !! key = Some e → in_lirs_stack e = true →
  ∃ i bottom, lirs_iter e = Some i ∧ node_at i (lirs_stack_ c) = Some key ∧
              back (lirs_stack_ c) = Some bottom.
Proof.
  intros [[HS HQ HC] Hf] He HinS.
  destruct (linked_node _ _ _ _ _ _ _ HS He HinS) as (i & Hi & Hnode).
  destruct (back (lirs_stack_ c)) as [bottom|] eqn:Hb; [by eauto 6|].
  apply back_None in Hb. by rewrite Hb in Hnode.
Qed.

Lemma access_lir_spec c key e :
  WF c → map_ c !! key = Some e → in_lirs_stack e = true →
  ∃ c', access_lir key c = Some c' ∧ WF c' ∧ same_store c c' ∧
        top_is (lirs_stack_ c') key ∧
        hir_stack_ c' = hir_stack_ c ∧ lir_count_ c' = lir_count_ c.
Proof.
  intros Hwf He HinS.
  destruct (in_S_back _ _ _ Hwf He HinS) as (i & bottom & Hi & Hnode & Hb).
  destruct (moved_top_WF _ _ _ _ Hwf He HinS Hi Hnode) as [Hwf1 Hs1].
  eexists. split; [by eapply access_lir_eq|].
  case_bool_decide.
  - destruct (stack_pruning_spec _ Hwf1) as (popped & rest & m' & Heq & Hsplit & Hwf2 & _).
    split_and!.
    + done.
    + eapply same_store_trans; [done|]. by apply stack_pruning_same_store.
    + eapply top_is_prefix; [by apply stack_pruning_prefix|]. apply top_is_push.
    + by rewrite Heq.
    + by rewrite Heq.
  - split_and!; try done. apply top_is_push.
Qed.

(** ** [access_hir_resident] *)

Lemma access_hir_resident_eq_refresh c key e j :
  map_ c !! key = Some e → in_lirs_stack e = false →
  hir_iter e = Some j → is_Some (node_at j (hir_stack_ c)) →
  access_hir_resident key c = Some (refreshed c key e j).
Proof.
  intros He HinS Hj [x Hx]. unfold access_hir_resident, upd_entry. rewrite He. simpl.
  rewrite HinS. simpl. rewrite ?He. simpl. rewrite ?lookup_insert_eq. simpl.
  rewrite Hj. unfold erase. simpl. rewrite Hx. simpl. rewrite ?lookup_insert_eq. simpl.
  by rewrite insert_insert_eq.
Qed.

Lemma refreshed_WF c key e j :
  WF c → map_ c !! key = Some e → in_lirs_stack e = false → in_hir_stack e = true →
  hir_iter e = Some j → node_at j (hir_stack_ c) = Some key →
  WF (refreshed c key e j) ∧ same_store c (refreshed c key e j).
Proof.
  intros [[HS HQ HC] Hf] He HinS HinQ Hj Hnode.
  pose proof (flags_lookup _ _ _ Hf He) as Hfe.
  split; [split; [split|]|]; simpl.
  - apply linked_push with (b := next_node_ c); try done; [lia|].
    eapply linked_flag_elem_of in HS; [|done]. rewrite <- HS. congruence.
  - apply linked_move_top with (b := S (next_node_ c)); try done; [|lia].
    apply linked_bound_mono with (b := next_node_ c); [done|lia].
  - apply linked_insert with (b := next_node_ c); [done|lia|].
    eapply handle_ok_ext; [..|by eapply linked_handle]; done.
  - apply flags_insert; [done|]. unfold flags_ok in *. simpl.
    rewrite HinQ in *. destruct (is_LIR e), (is_resident e); simpl in *; try done.
    by rewrite HinS in Hfe.
  - split_and!; try done. intros k. simpl. by eapply store_iter_insert.
Qed.

Lemma access_hir_resident_spec c key e :
  WF c → map_ c !! key = Some e → is_LIR e = false → is_resident e = true →
  ∃ c', access_hir_resident key c = Some c' ∧ WF c' ∧ same_store c c' ∧
        top_is (lirs_stack_ c') key.
Proof.
  intros Hwf He HLIR Hr. pose proof Hwf as [[HS HQ HC] Hf].
  destruct (in_lirs_stack e) eqn:HinS.
  - destruct (promote_to_lir_spec c key e) as (c' & Hc' & Hwf' & Hs' & Htop); try done.
    { by apply flags_delete. }
    exists c'. unfold access_hir_resident. rewrite He. simpl. rewrite HinS. done.
  - destruct (flags_ok_HIR _ (flags_lookup _ _ _ Hf He) HLIR) as [HrQ _].
    assert (in_hir_stack e = true) as HinQ by congruence.
    destruct (linked_node _ _ _ _ _ _ _ HQ He HinQ) as (j & Hj & Hnode).
    exists (refreshed c key e j).
    destruct (refreshed_WF c key e j) as [? ?]; try done.
    split_and!; try done.
    + apply access_hir_resident_eq_refresh; try done.
    + apply top_is_push.
Qed.

(** ** [access_hir_non_resident] *)

Lemma loaded_links c key value e :
  WF c → map_ c !! key = Some e → is_resident e = false →
  links (loaded c key value e) ∧ flags (delete key (map_ (loaded c key value e))) ∧
  same_config c (loaded c key value e) ∧
  stored (loaded c key value e) key = Some value.
Proof.
  intros [[HS HQ HC] Hf] He Hr. split_and!; [split|..]; simpl.
  - apply linked_insert with (b := next_node_ c); [done|lia|].
    eapply handle_ok_ext; [..|by eapply linked_handle]; done.
  - apply linked_insert with (b := next_node_ c); [done|lia|].
    eapply handle_ok_ext; [..|by eapply linked_handle]; done.
  - apply linked_push with (b := next_node_ c); try done; [lia|].
    eapply linked_flag_elem_of in HC; [|done]. rewrite <- HC. congruence.
  - rewrite delete_insert_eq. by apply flags_delete.
  - done.
  - unfold stored, store_iter. simpl. rewrite lookup_insert_eq. simpl.
    by rewrite decide_True.
Qed.

Lemma access_hir_non_resident_spec c key value e :
  WF c → map_ c !! key = Some e → is_LIR e = false → is_resident e = false →
  ∃ c', access_hir_non_resident key value c = Some c' ∧ WF c' ∧ same_config c c' ∧
        stored c' key = Some value ∧ top_is (lirs_stack_ c') key.
Proof.
  intros Hwf He HLIR Hr.
  destruct (flags_ok_HIR _ (flags_lookup _ _ _ (proj2 Hwf) He) HLIR) as [HrQ [HinS|HinQ]];
    [|congruence].
  destruct (evict_hir_resident_WF _ Hwf) as (c1 & Hev & Hwf1 & Hcfg1 & _ & _ & _ & Hkeep).
  pose proof (Hkeep _ _ He Hr) as He1.
  destruct (loaded_links c1 key value e Hwf1 He1 Hr) as (Hl2 & Hf2 & Hcfg2 & Hst2).
  destruct (promote_to_lir_spec (loaded c1 key value e) key
              (set_is_resident true (set_data_iter (Some (next_node_ c1)) e)))
    as (c' & Hc' & Hwf' & Hs' & Htop); try done.
  { simpl. by rewrite lookup_insert_eq. }
  exists c'. split_and!; try done.
  - unfold access_hir_non_resident, upd_entry. rewrite Hev. simpl. rewrite He1. simpl.
    rewrite lookup_insert_eq. simpl. rewrite HinS. exact Hc'.
  - eapply same_config_trans; [done|]. eapply same_config_trans; [done|]. apply Hs'.
  - by rewrite (same_store_stored _ _ _ Hs').
Qed.

(** ** [insert_new] *)

Lemma insert_new_eq c key value :
  insert_new key value c =
    if lir_count_ c <? lir_capacity_ c then Some (admitted_lir c key value)
    else c ← evict_hir_resident c; Some (admitted_hir c key value).
Proof. done. Qed.

Lemma admitted_lir_WF c key value :
  WF c → map_ c !! key = None →
  WF (admitted_lir c key value) ∧ stored (admitted_lir c key value) key = Some value.
Proof.
  intros [[HS HQ HC] Hf] He. split; [split; [split|]|]; simpl.
  - apply linked_push with (b := S (next_node_ c)); try done; [|lia|].
    + apply linked_bound_mono with (b := next_node_ c); [done|lia].
    + by eapply linked_not_elem_of.
  - apply linked_insert with (b := next_node_ c); [done|lia|].
    unfold handle_ok. simpl. by eapply linked_not_elem_of.
  - apply linked_push with (b := next_node_ c); try done; [lia|].
    by eapply linked_not_elem_of.
  - by apply flags_insert.
  - unfold stored, store_iter. simpl. rewrite lookup_insert_eq. simpl.
    by rewrite decide_True.
Qed.

Lemma admitted_hir_WF c key value :
  WF c → map_ c !! key = None →
  WF (admitted_hir c key value) ∧ stored (admitted_hir c key value) key = Some value.
Proof.
  intros [[HS HQ HC] Hf] He. split; [split; [split|]|]; simpl.
  - apply linked_push with (b := S (next_node_ c)); try done; [|lia|].
    + apply linked_bound_mono with (b := next_node_ c); [done|lia].
    + by eapply linked_not_elem_of.
  - apply linked_push with (b := S (S (next_node_ c))); try done; [|lia|].
    + apply linked_bound_mono with (b := next_node_ c); [done|lia].
    + by eapply linked_not_elem_of.
  - apply linked_push with (b := next_node_ c); try done; [lia|].
    by eapply linked_not_elem_of.
  - by apply flags_insert.
  - unfold stored, store_iter. simpl. rewrite lookup_insert_eq. simpl.
    by rewrite decide_True.
Qed.

Lemma evict_hir_resident_absent c c' key :
  WF c → evict_hir_resident c = Some c' → map_ c !! key = None → map_ c' !! key = None.
Proof.
  intros Hwf Hev He. destruct (back (hir_stack_ c)) as [victim_key|] eqn:Hb.
  - destruct (evict_victim _ _ Hwf Hb) as (e & d & Hv & HLIR & Hr & HinQ & Hd & Hnd).
    rewrite (evict_hir_resident_eq c victim_key e d) in Hev; try done.
    + simplify_eq. simpl. assert (key ≠ victim_key) by (intros ->; congruence).
      destruct (in_lirs_stack e); [by rewrite lookup_insert_ne | by rewrite lookup_delete_ne].
    + rewrite node_at_keyed in Hnd. by destruct (node_at d (cache_ c)).
  - apply back_None in Hb. rewrite evict_hir_resident_empty in Hev; [|done]. by simplify_eq.
Qed.

Lemma insert_new_spec c key value :
  WF c → map_ c !! key = None →
  ∃ c', insert_new key value c = Some c' ∧ WF c' ∧ same_config c c' ∧
        stored c' key = Some value ∧ top_is (lirs_stack_ c') key.
Proof.
  intros Hwf He. rewrite insert_new_eq. destruct (lir_count_ c <? lir_capacity_ c).
  - destruct (admitted_lir_WF c key value Hwf He) as [? ?].
    eexists. split_and!; try done. apply top_is_push.
  - destruct (evict_hir_resident_WF _ Hwf) as (c1 & Hev & Hwf1 & Hcfg1 & _).
    pose proof (evict_hir_resident_absent _ _ _ Hwf Hev He) as He1.
    destruct (admitted_hir_WF c1 key value Hwf1 He1) as [? ?].
    rewrite Hev. simpl. eexists. split_and!; try done. apply top_is_push.
Qed.

(** ** The public operations *)

Lemma resident_value c key e :
  WF c → map_ c !! key = Some e → is_resident e = true →
  ∃ d v, data_iter e = Some d ∧ node_at d (cache_ c) = Some (key, v) ∧
         stored c key = Some v.
Proof.
  intros [[HS HQ HC] Hf] He Hr.
  destruct (linked_node _ _ _ _ _ _ _ HC He Hr) as (d & Hd & Hnd).
  rewrite node_at_keyed in Hnd.
  destruct (node_at d (cache_ c)) as [[k v]|] eqn:Hn; simplify_eq/=.
  exists d, v. split_and!; try done.
  unfold stored, store_iter. rewrite He. simpl. rewrite Hr, Hd. simpl. by rewrite Hn.
Qed.

Lemma stored_resident c key v : stored c key = Some v → resident c key = true.
Proof.
  unfold stored, resident, store_iter. destruct (map_ c !! key) as [e|]; simpl; [|done].
  by destruct (is_resident e).
Qed.

Lemma stored_deref c key e v :
  map_ c !! key = Some e → stored c key = Some v →
  snd <$> deref (data_iter e) (cache_ c) = Some v.
Proof.
  unfold stored, store_iter. intros ->. simpl. by destruct (is_resident e).
Qed.

Lemma get_miss c key :
  resident c key = false → get key c = Some (None, c).
Proof.
  unfold resident, get. destruct (map_ c !! key) as [e|]; simpl; [|done]. by intros ->.
Qed.

Lemma get_resident_spec c key :
  WF c → resident c key = true →
  ∃ v c', get key c = Some (Some v, c') ∧ stored c key = Some v ∧
          WF c' ∧ same_store c c'.
Proof.
  intros Hwf Hres. unfold resident in Hres.
  destruct (map_ c !! key) as [e|] eqn:He; simpl in Hres; [|done].
  destruct (resident_value _ _ _ Hwf He Hres) as (d & v & Hd & Hnd & Hst).
  assert (∃ c', (if is_LIR e then access_lir key c else access_hir_resident key c) = Some c'
                ∧ WF c' ∧ same_store c c') as (c' & Hacc & Hwf' & Hs').
  { destruct (is_LIR e) eqn:HLIR.
    - destruct (flags_ok_LIR _ (flags_lookup _ _ _ (proj2 Hwf) He) HLIR) as (_ & HinS & _).
      destruct (access_lir_spec c key e) as (c' & ? & ? & ? & _); eauto.
    - destruct (access_hir_resident_spec c key e) as (c' & ? & ? & ? & _); eauto. }
  exists v, c'. split_and!; try done.
  unfold get. rewrite He, Hres. simpl. rewrite Hacc. simpl.
  pose proof (same_store_stored _ _ key Hs') as Hst'. rewrite Hst in Hst'.
  destruct (map_ c' !! key) as [e'|] eqn:He'; [|by unfold stored, store_iter in Hst'; rewrite He' in Hst'].
  simpl. pose proof (stored_deref _ _ _ _ He' Hst') as Hde.
  destruct (deref (data_iter e') (cache_ c')) as [kv|]; simplify_eq/=. done.
Qed.

Lemma overwritten_spec c key e d v value :
  WF c → map_ c !! key = Some e → is_resident e = true →
  data_iter e = Some d → node_at d (cache_ c) = Some (key, v) →
  let c0 := overwritten c d (key, v) value in
  WF c0 ∧ same_config c c0 ∧ size c0 = size c ∧
  (∀ k, resident c0 k = resident c k) ∧
  (∀ k, k ≠ key → stored c0 k = stored c k) ∧
  stored c0 key = Some value.
Proof.
  intros [[HS HQ HC] Hf] He Hr Hd Hnd c0.
  assert (keyed (cache_ c0) = keyed (cache_ c)) as Hk.
  { subst c0. simpl. by eapply keyed_set_node. }
  split_and!; try done.
  - split; [split|]; try done. by rewrite Hk.
  - unfold size. subst c0. simpl. by rewrite set_node_length.
  - intros k Hne. unfold stored. subst c0. simpl.
    destruct (store_iter (map_ c) k) as [[d'|]|] eqn:Hst; simpl; try done.
    rewrite node_at_set_node. case_decide; [|done]. subst d'.
    unfold store_iter in Hst. destruct (map_ c !! k) as [e'|] eqn:He'; simplify_eq/=.
    destruct (is_resident e') eqn:Hr'; simplify_eq/=.
    destruct (linked_node _ _ _ _ _ _ _ HC He' Hr') as (d' & Hd' & Hnd').
    rewrite node_at_keyed in Hnd'. assert (d' = d) as -> by congruence.
    rewrite Hnd in Hnd'. by simplify_eq/=.
  - unfold stored, store_iter. subst c0. simpl. rewrite He. simpl. rewrite Hr, Hd. simpl.
    rewrite node_at_set_node, decide_True; [|done]. by rewrite Hnd.
Qed.

Lemma put_resident_eq c key e d v value :
  map_ c !! key = Some e → is_resident e = true →
  data_iter e = Some d → node_at d (cache_ c) = Some (key, v) →
  put key value c =
    if is_LIR e then access_lir key (overwritten c d (key, v) value)
    else access_hir_resident key (overwritten c d (key, v) value).
Proof.
  intros He Hr Hd Hnd. unfold put. rewrite He, Hr, Hd. unfold modify. simpl.
  rewrite Hnd. simpl. done.
Qed.

Lemma put_resident_spec c key value :
  WF c → resident c key = true →
  ∃ c', put key value c = Some c' ∧ WF c' ∧ same_config c c' ∧
        size c' = size c ∧
        (∀ k, resident c' k = resident c k) ∧
        (∀ k, k ≠ key → stored c' k = stored c k) ∧
        stored c' key = Some value ∧ top_is (lirs_stack_ c') key.
Proof.
  intros Hwf Hres. unfold resident in Hres.
  destruct (map_ c !! key) as [e|] eqn:He; simpl in Hres; [|done].
  destruct (resident_value _ _ _ Hwf He Hres) as (d & v & Hd & Hnd & Hst).
  destruct (overwritten_spec c key e d v value) as (Hwf0 & Hcfg0 & Hsz0 & Hres0 & Hoth0 & Hkey0);
    try done.
  rewrite (put_resident_eq c key e d v value); try done.
  assert (∃ c', (if is_LIR e then access_lir key (overwritten c d (key, v) value)
                 else access_hir_resident key (overwritten c d (key, v) value)) = Some c'
                ∧ WF c' ∧ same_store (overwritten c d (key, v) value) c'
                ∧ top_is (lirs_stack_ c') key) as (c' & Hacc & Hwf' & Hs' & Htop).
  { destruct (is_LIR e) eqn:HLIR.
    - destruct (flags_ok_LIR _ (flags_lookup _ _ _ (proj2 Hwf) He) HLIR) as (_ & HinS & _).
      destruct (access_lir_spec (overwritten c d (key, v) value) key e)
        as (c' & ? & ? & ? & ? & _); eauto.
    - destruct (access_hir_resident_spec (overwritten c d (key, v) value) key e)
        as (c' & ? & ? & ? & ?); eauto. }
  exists c'. split_and!; try done.
  - eapply same_config_trans; [done|]. apply Hs'.
  - by rewrite (same_store_size _ _ Hs').
  - intros k. by rewrite (same_store_resident _ _ _ Hs').
  - intros k Hne. rewrite (same_store_stored _ _ _ Hs'). by apply Hoth0.
  - by rewrite (same_store_stored _ _ _ Hs').
Qed.

Lemma put_spec c key value :
  WF c →
  ∃ c', put key value c = Some c' ∧ WF c' ∧ same_config c c' ∧
        stored c' key = Some value ∧ top_is (lirs_stack_ c') key.
Proof.
  intros Hwf. destruct (resident c key) eqn:Hres.
  - destruct (put_resident_spec c key value Hwf Hres) as (c' & ? & ? & ? & _ & _ & _ & ? & ?).
    by exists c'.
  - unfold resident in Hres. unfold put.
    destruct (map_ c !! key) as [e|] eqn:He; simpl in Hres.
    + assert (is_LIR e = false) as HLIR.
      { destruct (is_LIR e) eqn:HL; [|done].
        destruct (flags_ok_LIR _ (flags_lookup _ _ _ (proj2 Hwf) He) HL) as (? & _); congruence. }
      rewrite HLIR, Hres. by apply (access_hir_non_resident_spec c key value e).
    + by apply insert_new_spec.
Qed.

Lemma get_spec c key :
  WF c → ∃ r c', get key c = Some (r, c') ∧ r = stored c key ∧ WF c' ∧ same_store c c'.
Proof.
  intros Hwf. destruct (resident c key) eqn:Hres.
  - destruct (get_resident_spec c key Hwf Hres) as (v & c' & ? & ? & ? & ?).
    by exists (Some v), c'.
  - exists None, c. split_and!; try done; [by apply get_miss|].
    destruct (stored c key) eqn:Hst; [|done].
    apply stored_resident in Hst. congruence.
Qed.

Lemma step_spec c o :
  WF c → ∃ c', step o c = Some c' ∧ WF c' ∧ same_config c c'.
Proof.
  intros Hwf. destruct o as [key|key value]; simpl.
  - destruct (get_spec c key Hwf) as (r & c' & -> & _ & ? & ? & _). by exists c'.
  - destruct (put_spec c key value Hwf) as (c' & ? & ? & ? & _). by exists c'.
Qed.

Lemma run_spec ops c :
  WF c → ∃ c', run ops c = Some c' ∧ WF c' ∧ same_config c c'.
Proof.
  revert c. induction ops as [|o ops IH]; intros c Hwf; simpl.
  - by exists c.
  - destruct (step_spec c o Hwf) as (c1 & -> & Hwf1 & Hcfg1). simpl.
    destruct (IH c1 Hwf1) as (c' & ? & ? & ?). exists c'. split_and!; try done.
    by eapply same_config_trans.
Qed.

Lemma construct_WF capacity hir_ratio c :
  construct capacity hir_ratio = Constructed c → WF c.
Proof.
  unfold construct. intros Hc.
  repeat (case_match; simplify_eq).
  split; [split|]; simpl; try apply linked_empty. apply map_Forall_empty.
Qed.

Lemma engine_after_spec capacity hir_ratio c0 ops :
  construct capacity hir_ratio = Constructed c0 →
  ∃ c, engine_after capacity hir_ratio ops = Some c ∧ WF c ∧ same_config c0 c.
Proof.
  intros Hc. unfold engine_after. rewrite Hc. apply run_spec. by eapply construct_WF.
Qed.

(** ** Pruning below an LIR bottom *)

Lemma stack_pruning_bottom_lir c bottom :
  WF c → back (lirs_stack_ c) = Some bottom → lir c bottom = true →
  lirs_stack_ (stack_pruning c) = lirs_stack_ c.
Proof.
  intros Hwf Hb Hlir.
  destruct (stack_pruning_spec _ Hwf) as (popped & rest & m' & -> & Hsplit & _ & _ & _ & Hpop & _).
  simpl. destruct popped as [|p popped _] using rev_ind.
  - by rewrite Hsplit, app_nil_r.
  - destruct p as [i k]. rewrite Hsplit, app_assoc, back_snoc in Hb. simplify_eq.
    rewrite Hpop in Hlir; [done|]. rewrite fmap_app, elem_of_app. right. simpl. by left.
Qed.

(** ** A second access to the LIR key on top of S *)

Lemma top_node c key e i :
  WF c → map_ c !! key = Some e → in_lirs_stack e = true → lirs_iter e = Some i →
  top_is (lirs_stack_ c) key →
  ∃ tail, lirs_stack_ c = (i, key) :: tail ∧ key ∉ tail.*2.
Proof.
  intros [[HS _ _] _] He HinS Hi Htop.
  destruct (linked_node _ _ _ _ _ _ _ HS He HinS) as (i' & Hi' & Hnode).
  assert (i' = i) as -> by congruence.
  pose proof (linked_keys _ _ _ _ _ HS) as Hnd.
  destruct (lirs_stack_ c) as [|[j k] tail]; [done|].
  assert (k = key) as -> by (by apply (Htop (j, k))).
  simpl in Hnd. apply NoDup_cons in Hnd as [Hni _].
  simpl in Hnode. case_decide; simplify_eq; [by exists tail|].
  exfalso. apply Hni. apply node_at_elem_of in Hnode.
  by apply (list_elem_of_fmap_2 snd) in Hnode.
Qed.

Lemma access_lir_top c key e :
  WF c → map_ c !! key = Some e → is_LIR e = true → top_is (lirs_stack_ c) key →
  ∃ c', access_lir key c = Some c' ∧ S_keys c' = S_keys c ∧ Q_keys c' = Q_keys c.
Proof.
  intros Hwf He HLIR Htop.
  destruct (flags_ok_LIR _ (flags_lookup _ _ _ (proj2 Hwf) He) HLIR) as (_ & HinS & _).
  destruct (in_S_back _ _ _ Hwf He HinS) as (i & bottom & Hi & Hnode & Hb).
  destruct (top_node _ _ _ _ Hwf He HinS Hi Htop) as (tail & HS & Hni).
  destruct (moved_top_WF _ _ _ _ Hwf He HinS Hi Hnode) as [Hwf1 _].
  assert (lirs_stack_ (moved_top c key e i) = (next_node_ c, key) :: tail) as HS1.
  { simpl. rewrite HS. simpl. by rewrite decide_True. }
  eexists. split; [by eapply access_lir_eq|].
  unfold S_keys, Q_keys. case_bool_decide as Hbk.
  - subst bottom.
    assert (tail = []) as ->.
    { destruct tail as [|t tail _] using rev_ind; [done|]. exfalso.
      destruct t as [j k]. rewrite HS, app_comm_cons, back_snoc in Hb. simplify_eq.
      apply Hni. rewrite fmap_app, elem_of_app. right. simpl. by left. }
    rewrite (stack_pruning_bottom_lir _ key Hwf1).
    + rewrite HS1, HS. split; [done|].
      by destruct (stack_pruning_spec _ Hwf1) as (? & ? & ? & -> & _).
    + by rewrite HS1.
    + unfold lir. simpl. rewrite lookup_insert_eq. done.
  - rewrite HS1, HS. done.
Qed.

Lemma put_twice c key v1 v2 :
  WF c →
  ∃ c1 c2 c' c3,
    put key v1 c = Some c1 ∧ put key v2 c1 = Some c2 ∧ put key v2 c = Some c' ∧
    get key c2 = Some (Some v2, c3) ∧
    (lir c1 key = true → S_keys c2 = S_keys c' ∧ Q_keys c2 = Q_keys c').
Proof.
  intros Hwf.
  destruct (put_spec c key v1 Hwf) as (c1 & Hp1 & Hwf1 & _ & Hst1 & Htop1).
  destruct (put_spec c1 key v2 Hwf1) as (c2 & Hp2 & Hwf2 & _ & Hst2 & _).
  destruct (put_value_independent key v1 v2 c c1 Hp1) as (c' & Hp' & HS' & HQ' & _).
  destruct (get_resident_spec c2 key Hwf2) as (v & c3 & Hg & Hv & _).
  { by eapply stored_resident. }
  assert (v = v2) as -> by congruence.
  exists c1, c2, c', c3. split_and!; try done.
  intros Hlir. unfold lir in Hlir.
  destruct (map_ c1 !! key) as [e|] eqn:He; simpl in Hlir; [|done].
  destruct (flags_ok_LIR _ (flags_lookup _ _ _ (proj2 Hwf1) He) Hlir) as (Hr & _).
  destruct (resident_value _ _ _ Hwf1 He Hr) as (d & v & Hd & Hnd & _).
  rewrite (put_resident_eq c1 key e d v v2), Hlir in Hp2; try done.
  destruct (overwritten_spec c1 key e d v v2) as (Hwf0 & _); try done.
  destruct (access_lir_top (overwritten c1 d (key, v) v2) key e) as (c2' & Hacc & HS2 & HQ2);
    try done.
  assert (c2' = c2) as -> by congruence.
  unfold S_keys, Q_keys in *. simpl in *. by rewrite HS2, HQ2, HS', HQ'.
Qed.

End Operations.


(** * Construction *)

Section Construction.
Context `{Countable K} {V : Type}.

(** The constructor throws exactly when one of its two tests fires. *)
Lemma construct_InvalidArgument capacity hir_ratio :
  (∃ what, construct (K:=K) (V:=V) capacity hir_ratio = InvalidArgument what) ↔
  capacity = 0 ∨ Double.le hir_ratio Double.zero = true
               ∨ Double.ge hir_ratio Double.one = true.
Proof.
  unfold construct. split.
  - intros [what Hc]. destruct (Z.eqb_spec capacity 0) as [->|]; [by left|].
    right. apply orb_true_iff.
    destruct (Double.le hir_ratio Double.zero || Double.ge hir_ratio Double.one); [done|].
    by case_match.
  - intros [-> | Hr]; [by eexists|].
    destruct (capacity =? 0); [by eexists|].
    apply orb_true_iff in Hr. rewrite Hr. by eexists.
Qed.

Lemma construct_Constructed capacity hir_ratio (c : LIRSCache K V) :
  construct capacity hir_ratio = Constructed c →
  capacity ≠ 0 ∧ Double.le hir_ratio Double.zero = false
  ∧ Double.ge hir_ratio Double.one = false
  ∧ capacity_ c = capacity ∧ 1 ≤ hir_capacity_ c
  ∧ lir_capacity_ c = SizeT.sub capacity (hir_capacity_ c)
  ∧ lir_count_ c = 0 ∧ cache_ c = [] ∧ lirs_stack_ c = [] ∧ hir_stack_ c = []
  ∧ map_ c = ∅.
Proof.
  unfold construct. intros Hc.
  destruct (Z.eqb_spec capacity 0); [done|].
  destruct (Double.le hir_ratio Double.zero) eqn:Hle; [done|].
  destruct (Double.ge hir_ratio Double.one) eqn:Hge; [done|]. simpl in Hc.
  destruct (Double.to_size_t _) as [hc|]; simplify_eq/=.
  split_and!; try done. lia.
Qed.
(** Comparison of doubles read in the other direction. *)
Lemma SFcompare_antisym (x y : spec_float) :
  SFcompare y x = CompOpp <$> SFcompare x y.
Proof.
  destruct x as [[]| []| |[] mx ex], y as [[]| []| |[] my ey]; simpl; try done.
  all: rewrite (Z.compare_antisym ey ex); destruct (ey ?= ex); simpl; try done.
  all: change (PosDef.Pos.compare_cont Eq) with Pos.compare.
  all: rewrite (Pos.compare_antisym mx my); by destruct (mx ?= my)%positive.
Qed.

(** Away from NaN, [!(x < y)] is [x >= y]. *)
Lemma double_not_lt (x y : Double.double) :
  x ≠ Double.nan → y ≠ Double.nan → Double.lt x y = false → Double.ge x y = true.
Proof.
  unfold Double.lt, Double.ge, Double.nan, SFltb, SFleb. intros Hx Hy.
  rewrite (SFcompare_antisym x y).
  destruct (SFcompare x y) as [[]|] eqn:Hc; simpl; try done.
  destruct x as [[]| []| |[] mx ex], y as [[]| []| |[] my ey]; simpl in Hc; done.
Qed.

(** A ratio that is a number and is not inside (0, 1) is rejected. *)
Lemma construct_rejects_outside capacity (hir_ratio : Double.double) :
  hir_ratio ≠ Double.nan →
  Double.lt Double.zero hir_ratio = false ∨ Double.lt hir_ratio Double.one = false →
  ∃ what, construct (K:=K) (V:=V) capacity hir_ratio = InvalidArgument what.
Proof.
  intros Hn Hout. apply construct_InvalidArgument. right.
  destruct Hout as [H0|H1].
  - left. by apply (double_not_lt Double.zero hir_ratio).
  - right. by apply (double_not_lt hir_ratio Double.one).
Qed.

(** A ratio inside (0, 1) is rejected only together with capacity 0. *)
Lemma construct_accepts_inside capacity (hir_ratio : Double.double) what :
  Double.lt Double.zero hir_ratio = true → Double.lt hir_ratio Double.one = true →
  construct (K:=K) (V:=V) capacity hir_ratio = InvalidArgument what →
  capacity = 0.
Proof.
  intros H0 H1 Hc.
  destruct (proj1 (construct_InvalidArgument capacity hir_ratio))
    as [?|[Hle|Hge]]; [by eexists|done|..]; exfalso.
  - unfold Double.le, Double.lt, SFleb, SFltb in *.
    rewrite (SFcompare_antisym Double.zero hir_ratio) in Hle.
    destruct (SFcompare Double.zero hir_ratio) as [[]|]; done.
  - unfold Double.ge, Double.lt, SFleb, SFltb in *.
    rewrite (SFcompare_antisym hir_ratio Double.one) in Hge.
    destruct (SFcompare hir_ratio Double.one) as [[]|]; done.
Qed.
End Construction.

(** * More on the bottom of a list *)

Section BottomFacts.
Context {A : Type}.
Implicit Types (l : NodeList A) (i j : nat) (x y : A).

Lemma back_cons l i x y : back l = Some y → back ((i, x) :: l) = Some y.
Proof.
  unfold back. destruct l as [|p l]; [done|]. by rewrite last_cons_cons.
Qed.

Lemma back_erase_ne l i x y :
  node_at i l = Some x → back l = Some y → x ≠ y → back (erase_node i l) = Some y.
Proof.
  induction l as [|[j z] l IH]; simpl; [done|].
  intros Hn Hb Hne. case_decide; simplify_eq.
  - destruct l as [|p l].
    + unfold back in Hb. simpl in Hb. congruence.
    + unfold back in *. by rewrite last_cons_cons in Hb.
  - destruct l as [|p l]; [done|].
    assert (back (p :: l) = Some y) as Hb'.
    { unfold back in *. by rewrite last_cons_cons in Hb. }
    apply back_cons. auto.
Qed.

Lemma elem_of_pop_back l i x y :
  (i, x) ∈ l → back l = Some y → x ≠ y → (i, x) ∈ pop_back l.
Proof.
  intros Hin [j Hj]%back_Some Hne. rewrite Hj in Hin.
  apply elem_of_app in Hin as [?|Hin]; [done|].
  apply list_elem_of_singleton in Hin. congruence.
Qed.

Lemma pop_back_length l y : back l = Some y → length l = S (length (pop_back l)).
Proof.
  intros [j Hj]%back_Some. rewrite Hj at 1. rewrite length_app. simpl. lia.
Qed.
End BottomFacts.

(** * Engines with a positive LIR capacity *)

Section Counters.
Context `{Countable K} {V : Type}.
Implicit Types (c : LIRSCache K V) (m : gmap K Entry) (key k : K) (e : Entry).

Lemma size_t_decr_incr z : 0 ≤ z → z + 1 < SizeT.modulus → SizeT.decr (SizeT.incr z) = z.
Proof.
  intros ? ?. unfold SizeT.decr, SizeT.incr, SizeT.wrap.
  rewrite (Z.mod_small (z + 1)) by lia. rewrite Z.mod_small; lia.
Qed.

Lemma size_t_incr z : 0 ≤ z → z + 1 < SizeT.modulus → SizeT.incr z = z + 1.
Proof. intros ? ?. unfold SizeT.incr, SizeT.wrap. rewrite Z.mod_small; lia. Qed.

Lemma lir_lookup c key : lir c key = true → ∃ e, map_ c !! key = Some e ∧ is_LIR e = true.
Proof. unfold lir. destruct (map_ c !! key) as [e|]; simpl; [eauto|done]. Qed.

(** After pruning the bottom of S is LIR, and a stack that holds an LIR
    key is not emptied. *)
Lemma stack_pruning_bottom c :
  WF c →
  (∀ b, back (lirs_stack_ (stack_pruning c)) = Some b → lir (stack_pruning c) b = true) ∧
  (∀ key, key ∈ S_keys c → lir c key = true → lirs_stack_ (stack_pruning c) ≠ []) ∧
  lir_count_ (stack_pruning c) = lir_count_ c ∧
  hir_stack_ (stack_pruning c) = hir_stack_ c ∧
  cache_ (stack_pruning c) = cache_ c ∧
  same_config c (stack_pruning c).
Proof.
  intros Hwf.
  destruct (stack_pruning_spec _ Hwf)
    as (popped & rest & m' & -> & Hsplit & _ & _ & Hlir & Hpop & Hhd & _).
  simpl. split_and!; try done.
  - intros b Hb. unfold lir. simpl. rewrite Hlir. by apply Hhd.
  - intros key Hin Hl ->. unfold S_keys in Hin. rewrite Hsplit in Hin. simpl in Hin.
    apply Hpop in Hin. congruence.
Qed.

(** The promotion of a key while the bottom of S is LIR: the promotion is
    paired with the demotion of the bottom key. *)
Lemma promote_to_lir_bounded c key e bottom :
  links c → flags (delete key (map_ c)) → map_ c !! key = Some e →
  is_LIR e = false → is_resident e = true → in_lirs_stack e = true →
  back (lirs_stack_ c) = Some bottom → lir c bottom = true →
  0 ≤ lir_count_ c → lir_count_ c + 1 < SizeT.modulus →
  ∃ c', promote_to_lir key c = Some c' ∧
        lir_count_ c' = lir_count_ c ∧ cache_ c' = cache_ c ∧
        hir_stack_ c' = push_front (S (next_node_ c)) bottom (without_key c key e) ∧
        (∀ b, back (lirs_stack_ c') = Some b → lir c' b = true) ∧
        lirs_stack_ c' ≠ [].
Proof.
  intros Hl Hf He HLIR Hr HinS Hb Hlirb Hc0 Hc1.
  destruct (linked_node _ _ _ _ _ _ _ (links_S _ Hl) He HinS) as (i & Hi & Hnode).
  destruct (lir_lookup _ _ Hlirb) as (eb & Heb & HLIRb).
  assert (key ≠ bottom) as Hne by (intros ->; congruence).
  set (c1 := promoted c key e i (without_key c key e)).
  destruct (promoted_WF c key e i) as [Hwf1 _]; try done. fold c1 in Hwf1.
  assert (back (lirs_stack_ c1) = Some bottom) as Hb1.
  { simpl. apply back_cons. by eapply back_erase_ne. }
  assert (map_ c1 !! bottom = Some eb) as Heb1.
  { simpl. by rewrite lookup_insert_ne. }
  set (c2 := demoted c1 bottom eb).
  destruct (demoted_WF c1 bottom eb) as [Hwf2 _]; try done. fold c2 in Hwf2.
  destruct (stack_pruning_bottom c2 Hwf2) as (Hbot & Hne' & Hcnt & HQ & HC & _).
  exists (stack_pruning c2). split_and!.
  - rewrite (promote_to_lir_eq c key e i); try done. fold c1.
    by rewrite (demote_bottom_lir_eq c1 bottom eb Hb1 Heb1), HLIRb.
  - rewrite Hcnt. simpl. by apply size_t_decr_incr.
  - by rewrite HC.
  - by rewrite HQ.
  - done.
  - apply (Hne' key).
    + unfold S_keys. simpl.
      assert ((next_node_ c, key) ∈ lirs_stack_ c1) as Hin by (simpl; left).
      apply (elem_of_pop_back _ _ _ bottom) in Hin; try done.
      by apply (list_elem_of_fmap_2 snd) in Hin.
    + unfold lir. simpl. rewrite lookup_insert_ne by done. by rewrite lookup_insert_eq.
Qed.
End Counters.

Section CountersAccess.
Context `{Countable K} {V : Type}.
Implicit Types (c : LIRSCache K V) (m : gmap K Entry) (key k : K) (e : Entry).

Lemma in_S_elem c key e :
  WF c → map_ c !! key = Some e → in_lirs_stack e = true → key ∈ S_keys c.
Proof.
  intros [[HS _ _] _] He HinS. by apply (linked_flag_elem_of _ _ _ _ _ _ _ HS He).
Qed.

Lemma back_in_map c bottom :
  WF c → back (lirs_stack_ c) = Some bottom → is_Some (map_ c !! bottom).
Proof.
  intros [[HS _ _] _] Hb. apply (linked_dom _ _ _ _ _ HS).
  apply back_Some in Hb as [i Hi]. rewrite Hi, fmap_app, elem_of_app. right. simpl. by left.
Qed.

(** Pruning changes nothing while every entry is LIR. *)
Lemma stack_pruning_all_lir c :
  WF c → (∀ k e, map_ c !! k = Some e → is_LIR e = true) → stack_pruning c = c.
Proof.
  intros Hwf Hall.
  destruct (stack_pruning_spec _ Hwf) as (popped & rest & m' & _ & Hsplit & _ & _ & _ & Hpop & _ & Hid).
  apply Hid. destruct popped as [|[i k] popped]; [done|]. exfalso.
  assert (k ∈ S_keys c) as Hin.
  { unfold S_keys. rewrite Hsplit, fmap_app, elem_of_app. right. simpl. by left. }
  assert (lir c k = false) as Hl by (apply Hpop; simpl; by left).
  destruct Hwf as [[HS _ _] _]. destruct (linked_dom _ _ _ _ _ HS _ Hin) as [e He].
  unfold lir in Hl. rewrite He in Hl. simpl in Hl. rewrite (Hall _ _ He) in Hl. done.
Qed.

Lemma bounded_steady c key e :
  bounded c → map_ c !! key = Some e → is_LIR e = false →
  lir_count_ c = lir_capacity_ c ∧ lirs_stack_ c ≠ [].
Proof.
  intros Hb He HLIR. pose proof (bounded_count _ Hb) as Hc.
  pose proof (bounded_config _ Hb) as Hcfg.
  assert (lir_count_ c = lir_capacity_ c) as Heq.
  { destruct (Z.lt_ge_cases (lir_count_ c) (lir_capacity_ c)) as [Hlt|]; [|lia].
    destruct (bounded_warm _ Hb Hlt) as [_ Hall]. rewrite (Hall _ _ He) in HLIR. done. }
  split; [done|]. intros HS. apply (bounded_S _ Hb) in HS. lia.
Qed.

(** ** [access_lir] *)

Lemma access_lir_bounded c key e :
  WF c → bounded c → map_ c !! key = Some e → is_LIR e = true →
  ∃ c', access_lir key c = Some c' ∧ bounded c' ∧ lir_count_ c' = lir_count_ c.
Proof.
  intros Hwf Hb He HLIR.
  destruct (flags_ok_LIR _ (flags_lookup _ _ _ (proj2 Hwf) He) HLIR) as (_ & HinS & _).
  destruct (in_S_back _ _ _ Hwf He HinS) as (i & bottom & Hi & Hnode & Hbk).
  destruct (moved_top_WF _ _ _ _ Hwf He HinS Hi Hnode) as [Hwf1 _].
  set (c1 := moved_top c key e i) in *.
  assert (lir c1 key = true) as Hlk.
  { unfold lir. simpl. by rewrite lookup_insert_eq. }
  assert (key ∈ S_keys c1) as Hin1 by (unfold S_keys; simpl; by left).
  assert (∀ k, k ≠ key → lir c1 k = lir c k) as Hlir1.
  { intros k Hne. unfold lir. simpl. by rewrite lookup_insert_ne. }
  assert (lir_count_ c1 < lir_capacity_ c1 →
          hir_stack_ c1 = [] ∧ ∀ k e', map_ c1 !! k = Some e' → is_LIR e' = true) as Hwarm1.
  { intros Hlt. destruct (bounded_warm _ Hb Hlt) as [HQ Hall]. split; [done|].
    intros k e'. simpl. rewrite lookup_insert. case_decide; intros ?; simplify_eq; eauto. }
  eexists. split; [by eapply access_lir_eq|]. fold c1.
  case_bool_decide as Hbot.
  - destruct (stack_pruning_bottom c1 Hwf1) as (Hbot' & Hne' & Hcnt & HQ & HC & Hcfg).
    split; [|by rewrite Hcnt].
    destruct Hcfg as (Hc1 & Hc2 & Hc3).
    split.
    + rewrite Hc1, Hc3. apply (bounded_config _ Hb).
    + rewrite Hcnt, Hc3. apply (bounded_count _ Hb).
    + rewrite HC, Hcnt, HQ. apply (bounded_size _ Hb).
    + rewrite HQ. apply (bounded_Q _ Hb).
    + done.
    + rewrite Hcnt, Hc3. intros Hlt. destruct (Hwarm1 Hlt) as [HQ1 Hall1].
      by rewrite (stack_pruning_all_lir c1 Hwf1 Hall1).
    + intros HS. exfalso. by apply (Hne' key).
  - split; [|done]. split; simpl.
    + apply (bounded_config _ Hb).
    + apply (bounded_count _ Hb).
    + apply (bounded_size _ Hb).
    + apply (bounded_Q _ Hb).
    + intros b Hb1. assert (b = bottom) as ->.
      { assert (back (lirs_stack_ c1) = Some bottom) as Hb2.
        { simpl. apply back_cons. eapply back_erase_ne; [done|done|]. congruence. }
        simpl in Hb2. congruence. }
      rewrite Hlir1 by done. by apply (bounded_bottom _ Hb).
    + apply Hwarm1.
    + done.
Qed.

(** ** [access_hir_resident] *)

Lemma singleton_Q c key e :
  WF c → bounded c → map_ c !! key = Some e → in_hir_stack e = true →
  ∃ j, hir_iter e = Some j ∧ hir_stack_ c = [(j, key)].
Proof.
  intros [[_ HQ _] _] Hb He HinQ.
  destruct (linked_node _ _ _ _ _ _ _ HQ He HinQ) as (j & Hj & Hnode).
  exists j. split; [done|]. pose proof (bounded_Q _ Hb) as Hlen.
  destruct (hir_stack_ c) as [|[j' k'] [|? ?]]; simpl in *; [done| |lia].
  case_decide; by simplify_eq.
Qed.

Lemma access_hir_resident_bounded c key e :
  WF c → bounded c → map_ c !! key = Some e → is_LIR e = false → is_resident e = true →
  ∃ c', access_hir_resident key c = Some c' ∧ bounded c' ∧ lir_count_ c' = lir_count_ c.
Proof.
  intros Hwf Hb He HLIR Hr. pose proof Hwf as [Hl Hf].
  destruct (bounded_steady _ _ _ Hb He HLIR) as [Hfull HSne].
  pose proof (bounded_config _ Hb) as Hcfg. pose proof (bounded_count _ Hb) as Hcnt.
  destruct (flags_ok_HIR _ (flags_lookup _ _ _ Hf He) HLIR) as [HrQ _].
  assert (in_hir_stack e = true) as HinQ by congruence.
  destruct (singleton_Q _ _ _ Hwf Hb He HinQ) as (j & Hj & HQ).
  destruct (back (lirs_stack_ c)) as [bottom|] eqn:Hbk; [|by apply back_None in Hbk].
  pose proof (bounded_bottom _ Hb _ Hbk) as Hlb.
  assert (key ≠ bottom) as Hne.
  { intros ->. unfold lir in Hlb. rewrite He in Hlb. simpl in Hlb. congruence. }
  unfold access_hir_resident. rewrite He. simpl.
  destruct (in_lirs_stack e) eqn:HinS.
  - destruct (promote_to_lir_bounded c key e bottom)
      as (c' & Hp & Hc' & HC' & HQ' & Hbot' & HS'); try done; [by apply flags_delete|lia|lia|].
    destruct (promote_to_lir_spec c key e) as (c'' & Hp' & _ & (Hcfg' & _) & _); try done.
    { by apply flags_delete. }
    assert (c'' = c') as -> by congruence. destruct Hcfg' as (Hc1 & Hc2 & Hc3).
    assert (length (hir_stack_ c') = 1%nat) as HlenQ.
    { rewrite HQ'. unfold without_key. rewrite HinQ, Hj, HQ. simpl. by rewrite decide_True. }
    exists c'. split; [done|]. split; [|done]. split.
    + by rewrite Hc1, Hc3.
    + by rewrite Hc', Hc3.
    + rewrite HC', Hc', HlenQ. rewrite (bounded_size _ Hb), HQ. done.
    + lia.
    + done.
    + rewrite Hc', Hc3. lia.
    + done.
  - assert (access_hir_resident key c = Some (refreshed c key e j)) as Hacc.
    { apply access_hir_resident_eq_refresh; try done. rewrite HQ. simpl. by rewrite decide_True. }
    unfold access_hir_resident in Hacc. rewrite He in Hacc. simpl in Hacc. rewrite HinS in Hacc.
    eexists. split; [exact Hacc|]. split; [|done]. split; simpl.
    + done.
    + done.
    + rewrite HQ. simpl. rewrite decide_True by done. simpl.
      rewrite (bounded_size _ Hb), HQ. done.
    + rewrite HQ. simpl. rewrite decide_True by done. simpl. lia.
    + intros b Hb1. unfold push_front in Hb1.
      rewrite (back_cons _ _ _ _ Hbk) in Hb1. simplify_eq.
      unfold lir. simpl. by rewrite lookup_insert_ne.
    + lia.
    + done.
Qed.
End CountersAccess.

Section CountersEviction.
Context `{Countable K} {V : Type}.
Implicit Types (c : LIRSCache K V) (m : gmap K Entry) (key k : K) (e : Entry).

(** ** [evict_hir_resident] *)

Lemma evict_hir_resident_cases c :
  WF c → bounded c →
  (hir_stack_ c = [] ∧ evict_hir_resident c = Some c) ∨
  (∃ j victim_key e d kv,
     hir_stack_ c = [(j, victim_key)] ∧ map_ c !! victim_key = Some e ∧
     is_LIR e = false ∧ is_resident e = true ∧ in_hir_stack e = true ∧
     data_iter e = Some d ∧ node_at d (cache_ c) = Some kv ∧ kv.1 = victim_key ∧
     evict_hir_resident c = Some (evicted c victim_key e d) ∧
     WF (evicted c victim_key e d)).
Proof.
  intros Hwf Hb. destruct (back (hir_stack_ c)) as [victim_key|] eqn:Hbk.
  - right. destruct (evict_victim _ _ Hwf Hbk) as (e & d & He & HLIR & Hr & HinQ & Hd & Hnd).
    destruct (singleton_Q _ _ _ Hwf Hb He HinQ) as (j & _ & HQ).
    pose proof Hnd as Hnd'. rewrite node_at_keyed in Hnd'.
    destruct (node_at d (cache_ c)) as [kv|] eqn:Hkv; simplify_eq/=.
    exists j, kv.1, e, d, kv. split_and!; try done.
    + by apply evict_hir_resident_eq.
    + by apply evicted_WF.
  - left. apply back_None in Hbk. split; [done|]. by apply evict_hir_resident_empty.
Qed.

Lemma evict_hir_resident_bounded c :
  WF c → bounded c →
  ∃ c1, evict_hir_resident c = Some c1 ∧ WF c1 ∧
        hir_stack_ c1 = [] ∧ lirs_stack_ c1 = lirs_stack_ c ∧
        lir_count_ c1 = lir_count_ c ∧ same_config c c1 ∧
        Z.of_nat (length (cache_ c1)) = lir_count_ c ∧
        (∀ k, lir c1 k = lir c k) ∧
        (∀ k e, map_ c !! k = Some e → is_resident e = false → map_ c1 !! k = Some e) ∧
        (∀ k, map_ c !! k = None → map_ c1 !! k = None).
Proof.
  intros Hwf Hb. pose proof (bounded_size _ Hb) as Hsz.
  destruct (evict_hir_resident_cases c Hwf Hb)
    as [[HQ Hev] | (j & victim & e & d & kv & HQ & He & HLIR & Hr & HinQ & Hd & Hkv & Hk & Hev & Hwf1)].
  - exists c. rewrite HQ in Hsz. simpl in Hsz. split_and!; try done. lia.
  - exists (evicted c victim e d). split_and!; try done.
    + simpl. by rewrite HQ.
    + simpl. rewrite (erase_node_length _ _ _ Hkv), HQ in Hsz. simpl in Hsz. lia.
    + intros k. unfold lir. simpl. destruct (decide (k = victim)) as [->|Hne].
      * rewrite He. simpl. rewrite HLIR.
        destruct (in_lirs_stack e); [by rewrite lookup_insert_eq | by rewrite lookup_delete_eq].
      * destruct (in_lirs_stack e); [by rewrite lookup_insert_ne | by rewrite lookup_delete_ne].
    + intros k e' He' Hr'. simpl. assert (k ≠ victim) by (intros ->; congruence).
      destruct (in_lirs_stack e); [by rewrite lookup_insert_ne | by rewrite lookup_delete_ne].
    + intros k He'. simpl. assert (k ≠ victim) by (intros ->; congruence).
      destruct (in_lirs_stack e); [by rewrite lookup_insert_ne | by rewrite lookup_delete_ne].
Qed.

(** ** [access_hir_non_resident] *)

Lemma access_hir_non_resident_bounded c key value e :
  WF c → bounded c → map_ c !! key = Some e → is_LIR e = false → is_resident e = false →
  ∃ c', access_hir_non_resident key value c = Some c' ∧ bounded c' ∧
        lir_count_ c' = lir_count_ c.
Proof.
  intros Hwf Hb He HLIR Hr.
  destruct (bounded_steady _ _ _ Hb He HLIR) as [Hfull HSne].
  pose proof (bounded_config _ Hb) as Hcfg. pose proof (bounded_count _ Hb) as Hcnt.
  destruct (flags_ok_HIR _ (flags_lookup _ _ _ (proj2 Hwf) He) HLIR) as [HrQ [HinS|HinQ]];
    [|congruence].
  assert (in_hir_stack e = false) as HinQ by congruence.
  destruct (back (lirs_stack_ c)) as [bottom|] eqn:Hbk; [|by apply back_None in Hbk].
  pose proof (bounded_bottom _ Hb _ Hbk) as Hlb.
  assert (key ≠ bottom) as Hne.
  { intros ->. unfold lir in Hlb. rewrite He in Hlb. simpl in Hlb. congruence. }
  destruct (evict_hir_resident_bounded c Hwf Hb)
    as (c1 & Hev & Hwf1 & HQ1 & HS1 & Hc1 & (Hcf1 & Hcf2 & Hcf3) & Hsz1 & Hlir1 & Hkeep & _).
  pose proof (Hkeep _ _ He Hr) as He1.
  destruct (loaded_links c1 key value e Hwf1 He1 Hr) as (Hl2 & Hf2 & _ & _).
  set (c2 := loaded c1 key value e) in *.
  set (e2 := set_is_resident true (set_data_iter (Some (next_node_ c1)) e)).
  assert (map_ c2 !! key = Some e2) as He2 by (simpl; by rewrite lookup_insert_eq).
  destruct (promote_to_lir_bounded c2 key e2 bottom)
    as (c' & Hp & Hc' & HC' & HQ' & Hbot' & HS'); try done.
  { simpl. by rewrite HS1. }
  { unfold lir. simpl. rewrite lookup_insert_ne by done. fold (lir c1 bottom). by rewrite Hlir1. }
  { simpl. lia. }
  { simpl. lia. }
  destruct (promote_to_lir_spec c2 key e2) as (c'' & Hp' & _ & (Hcfg' & _) & _); try done.
  assert (c'' = c') as -> by congruence. destruct Hcfg' as (Hd1 & Hd2 & Hd3).
  assert (length (hir_stack_ c') = 1%nat) as HlenQ.
  { rewrite HQ'. unfold without_key. simpl. by rewrite HinQ, HQ1. }
  exists c'. split_and!.
  - unfold access_hir_non_resident, upd_entry. rewrite Hev. simpl. rewrite He1. simpl.
    rewrite lookup_insert_eq. simpl. rewrite HinS. exact Hp.
  - simpl in *. split.
    + by rewrite Hd1, Hd3, Hcf1, Hcf3.
    + rewrite Hc', Hd3, Hcf3. simpl. lia.
    + rewrite HC', Hc', HlenQ. simpl. lia.
    + lia.
    + done.
    + rewrite Hc', Hd3, Hcf3. simpl. lia.
    + done.
  - rewrite Hc'. simpl. done.
Qed.

(** ** [insert_new] *)

Lemma insert_new_bounded c key value :
  WF c → bounded c → map_ c !! key = None →
  ∃ c', insert_new key value c = Some c' ∧ bounded c' ∧
        lir_count_ c ≤ lir_count_ c'.
Proof.
  intros Hwf Hb He. rewrite insert_new_eq.
  pose proof (bounded_config _ Hb) as Hcfg. pose proof (bounded_count _ Hb) as Hcnt.
  assert (∀ b, back (lirs_stack_ c) = Some b → b ≠ key) as Hbne.
  { intros b Hbk ->. destruct (back_in_map _ _ Hwf Hbk) as [? ?]. congruence. }
  destruct (Z.ltb_spec (lir_count_ c) (lir_capacity_ c)) as [Hlt|Hge].
  - destruct (bounded_warm _ Hb Hlt) as [HQ Hall].
    eexists. split; [done|].
    assert (SizeT.incr (lir_count_ c) = lir_count_ c + 1) as Hinc by (apply size_t_incr; lia).
    pose proof (bounded_size _ Hb) as Hsz. rewrite HQ in Hsz. simpl in Hsz.
    split; [|simpl; lia]. split; simpl; rewrite ?Hinc.
    + done.
    + lia.
    + rewrite HQ. simpl. lia.
    + rewrite HQ. simpl. lia.
    + intros b Hb1. unfold lir. simpl. unfold push_front in Hb1.
      destruct (back (lirs_stack_ c)) as [b0|] eqn:Hbk.
      * rewrite (back_cons _ _ _ _ Hbk) in Hb1. simplify_eq.
        rewrite lookup_insert_ne by (by apply not_eq_sym, Hbne).
        by apply (bounded_bottom _ Hb).
      * apply back_None in Hbk. rewrite Hbk in Hb1. unfold back in Hb1. simpl in Hb1.
        simplify_eq. by rewrite lookup_insert_eq.
    + intros _. split; [done|]. intros k e'. rewrite lookup_insert.
      case_decide; intros ?; simplify_eq; eauto.
    + done.
  - assert (lir_count_ c = lir_capacity_ c) as Hfull by lia.
    assert (lirs_stack_ c ≠ []) as HSne.
    { intros HS. apply (bounded_S _ Hb) in HS. lia. }
    destruct (back (lirs_stack_ c)) as [bottom|] eqn:Hbk; [|by apply back_None in Hbk].
    destruct (evict_hir_resident_bounded c Hwf Hb)
      as (c1 & Hev & Hwf1 & HQ1 & HS1 & Hc1 & (Hcf1 & Hcf2 & Hcf3) & Hsz1 & Hlir1 & _ & Habs).
    rewrite Hev. simpl. eexists. split; [done|]. split; [|simpl; lia]. split; simpl.
    + by rewrite Hcf1, Hcf3.
    + rewrite Hc1, Hcf3. lia.
    + rewrite HQ1. simpl. lia.
    + rewrite HQ1. simpl. lia.
    + intros b Hb1. unfold push_front in Hb1. rewrite HS1 in Hb1.
      rewrite (back_cons _ _ _ _ Hbk) in Hb1. simplify_eq.
      unfold lir. simpl. rewrite lookup_insert_ne by (by apply not_eq_sym, Hbne).
      fold (lir c1 b). rewrite Hlir1. by apply (bounded_bottom _ Hb).
    + rewrite Hc1, Hcf3. lia.
    + done.
Qed.
End CountersEviction.

Section FullCache.
Context `{Countable K} {V : Type}.
Implicit Types (c : LIRSCache K V) (m : gmap K Entry) (key k : K) (e : Entry).

(** ** The public operations *)

Lemma overwritten_bounded c d kv value :
  bounded c → bounded (overwritten c d kv value).
Proof.
  intros [? ? Hsz ? ? ? ?]. split; try done. simpl. by rewrite set_node_length.
Qed.

Lemma put_bounded c key value :
  WF c → bounded c →
  ∃ c', put key value c = Some c' ∧ bounded c' ∧ lir_count_ c ≤ lir_count_ c'.
Proof.
  intros Hwf Hb. destruct (map_ c !! key) as [e|] eqn:He.
  - destruct (is_resident e) eqn:Hr.
    + destruct (resident_value _ _ _ Hwf He Hr) as (d & v & Hd & Hnd & _).
      rewrite (put_resident_eq c key e d v value); try done.
      destruct (overwritten_spec c key e d v value) as (Hwf0 & _); try done.
      pose proof (overwritten_bounded c d (key, v) value Hb) as Hb0.
      destruct (is_LIR e) eqn:HLIR.
      * destruct (access_lir_bounded _ key e Hwf0 Hb0) as (c' & ? & ? & Hc); try done.
        exists c'. split_and!; try done. rewrite Hc. simpl. lia.
      * destruct (access_hir_resident_bounded _ key e Hwf0 Hb0) as (c' & ? & ? & Hc); try done.
        exists c'. split_and!; try done. rewrite Hc. simpl. lia.
    + assert (is_LIR e = false) as HLIR.
      { destruct (is_LIR e) eqn:HL; [|done].
        destruct (flags_ok_LIR _ (flags_lookup _ _ _ (proj2 Hwf) He) HL) as (? & _); congruence. }
      unfold put. rewrite He, HLIR, Hr.
      destruct (access_hir_non_resident_bounded c key value e) as (c' & ? & ? & Hc); try done.
      exists c'. split_and!; try done. lia.
  - unfold put. rewrite He. by apply insert_new_bounded.
Qed.

Lemma get_bounded c key :
  WF c → bounded c →
  ∃ r c', get key c = Some (r, c') ∧ bounded c' ∧ lir_count_ c' = lir_count_ c.
Proof.
  intros Hwf Hb. destruct (resident c key) eqn:Hres.
  - destruct (get_resident_spec c key Hwf Hres) as (v & c' & Hg & _).
    exists (Some v), c'. split; [done|].
    unfold resident in Hres. destruct (map_ c !! key) as [e|] eqn:He; simpl in Hres; [|done].
    unfold get in Hg. rewrite He, Hres in Hg. simpl in Hg.
    destruct (is_LIR e) eqn:HLIR.
    + destruct (access_lir_bounded c key e Hwf Hb) as (c1 & Hacc & ? & ?); try done.
      rewrite Hacc in Hg. simpl in Hg.
      destruct (map_ c1 !! key); simpl in Hg; [|done].
      destruct (deref _ _); by simplify_eq/=.
    + destruct (access_hir_resident_bounded c key e Hwf Hb) as (c1 & Hacc & ? & ?); try done.
      rewrite Hacc in Hg. simpl in Hg.
      destruct (map_ c1 !! key); simpl in Hg; [|done].
      destruct (deref _ _); by simplify_eq/=.
  - exists None, c. split_and!; try done. by apply get_miss.
Qed.

Lemma run_bounded ops c :
  WF c → bounded c →
  ∃ c', run ops c = Some c' ∧ WF c' ∧ bounded c' ∧ lir_count_ c ≤ lir_count_ c'.
Proof.
  revert c. induction ops as [|o ops IH]; intros c Hwf Hb; simpl.
  - exists c. split_and!; try done.
  - assert (∃ c1, step o c = Some c1 ∧ WF c1 ∧ bounded c1 ∧ lir_count_ c ≤ lir_count_ c1)
      as (c1 & Hs & Hwf1 & Hb1 & Hle1).
    { destruct (step_spec c o Hwf) as (c1 & Hs & Hwf1 & _). exists c1.
      destruct o as [key|key value]; simpl in *.
      - destruct (get_bounded c key Hwf Hb) as (r & c2 & Hg & ? & Hc).
        rewrite Hg in Hs |- *. simplify_eq/=. split_and!; try done. lia.
      - destruct (put_bounded c key value Hwf Hb) as (c2 & Hp & ? & ?).
        rewrite Hp in Hs |- *. by simplify_eq. }
    rewrite Hs. simpl. destruct (IH c1 Hwf1 Hb1) as (c' & ? & ? & ? & ?).
    exists c'. split_and!; try done. lia.
Qed.

Lemma construct_bounded capacity hir_ratio c :
  construct capacity hir_ratio = Constructed c →
  capacity < SizeT.modulus → hir_capacity_ c < capacity →
  bounded c.
Proof.
  intros (Hne & _ & _ & Hcap & Hhir & Hlir & Hcnt & HC & HS & HQ & Hm)%construct_Constructed ? ?.
  assert (lir_capacity_ c = capacity - hir_capacity_ c) as Hlir'.
  { rewrite Hlir. unfold SizeT.sub, SizeT.wrap. apply Z.mod_small. lia. }
  split; rewrite ?Hcnt, ?HC, ?HS, ?HQ, ?Hcap; simpl; try lia.
  - done.
  - split; [done|]. intros k e. by rewrite Hm, lookup_empty.
Qed.

Lemma bounded_size_capacity c : bounded c → size c ≤ capacity c.
Proof.
  intros Hb. unfold size, capacity.
  pose proof (bounded_config _ Hb). pose proof (bounded_count _ Hb).
  pose proof (bounded_size _ Hb). pose proof (bounded_Q _ Hb). lia.
Qed.

(** A full cache has exactly one key in Q and a full LIR set. *)
Lemma bounded_full c :
  bounded c → size c = capacity c →
  lir_count_ c = lir_capacity_ c ∧ ∃ j victim_key, hir_stack_ c = [(j, victim_key)].
Proof.
  intros Hb Hfull. unfold size, capacity in Hfull.
  pose proof (bounded_config _ Hb). pose proof (bounded_count _ Hb).
  pose proof (bounded_size _ Hb). pose proof (bounded_Q _ Hb).
  split; [lia|]. destruct (hir_stack_ c) as [|[j k] [|? ?]]; simpl in *; [lia| |lia].
  by exists j, k.
Qed.

Lemma insert_new_full c key value :
  WF c → bounded c → size c = capacity c → map_ c !! key = None →
  ∃ victim_key c',
    back (hir_stack_ c) = Some victim_key ∧ insert_new key value c = Some c' ∧
    resident c victim_key = true ∧ resident c' victim_key = false ∧
    (∀ k, k ≠ victim_key → k ≠ key → resident c' k = resident c k) ∧
    resident c' key = true ∧ size c' = size c.
Proof.
  intros Hwf Hb Hfull He.
  destruct (bounded_full c Hb Hfull) as (Hcnt & j0 & victim0 & HQ0).
  destruct (evict_hir_resident_cases c Hwf Hb)
    as [[HQ Hev] | (j & victim & e & d & kv & HQ & Hv & HLIR & Hr & HinQ & Hd & Hkv & Hk & Hev & Hwf1)];
    [congruence|].
  assert (key ≠ victim) as Hne by (intros ->; congruence).
  exists victim, (admitted_hir (evicted c victim e d) key value). split_and!.
  - by rewrite HQ.
  - rewrite insert_new_eq. destruct (Z.ltb_spec (lir_count_ c) (lir_capacity_ c)); [lia|].
    by rewrite Hev.
  - unfold resident. by rewrite Hv.
  - unfold resident. simpl. rewrite lookup_insert_ne by done.
    destruct (in_lirs_stack e); [by rewrite lookup_insert_eq | by rewrite lookup_delete_eq].
  - intros k Hk1 Hk2. unfold resident. simpl. rewrite lookup_insert_ne by done.
    destruct (in_lirs_stack e); [by rewrite lookup_insert_ne | by rewrite lookup_delete_ne].
  - unfold resident. simpl. by rewrite lookup_insert_eq.
  - unfold size. simpl. rewrite (erase_node_length _ _ _ Hkv). done.
Qed.
End FullCache.

Section WarmUp.
Context `{Countable K} {V : Type}.
Implicit Types (c : LIRSCache K V) (m : gmap K Entry) (key k : K) (e : Entry).

(** ** The warm-up: every key put so far is LIR *)

Lemma access_lir_warm c key e :
  WF c → bounded c → lir_count_ c < lir_capacity_ c → map_ c !! key = Some e →
  ∃ c', access_lir key c = Some c' ∧ dom (map_ c') = dom (map_ c).
Proof.
  intros Hwf Hb Hlt He. destruct (bounded_warm _ Hb Hlt) as [_ Hall].
  pose proof (Hall _ _ He) as HLIR.
  destruct (flags_ok_LIR _ (flags_lookup _ _ _ (proj2 Hwf) He) HLIR) as (_ & HinS & _).
  destruct (in_S_back _ _ _ Hwf He HinS) as (i & bottom & Hi & Hnode & Hbk).
  destruct (moved_top_WF _ _ _ _ Hwf He HinS Hi Hnode) as [Hwf1 _].
  assert (stack_pruning (moved_top c key e i) = moved_top c key e i) as Hid.
  { apply stack_pruning_all_lir; [done|]. intros k e'. simpl. rewrite lookup_insert.
    case_decide; intros ?; simplify_eq; eauto. }
  eexists. split; [by eapply access_lir_eq|]. rewrite Hid.
  assert (dom (map_ (moved_top c key e i)) = dom (map_ c)) as Hdom.
  { simpl. apply dom_insert_lookup_L. by rewrite He. }
  by case_bool_decide.
Qed.

Lemma step_warm c o P :
  WF c → bounded c →
  (lir_count_ c < lir_capacity_ c →
   dom (map_ c) = P ∧ lir_count_ c = Z.of_nat (base.size (map_ c))) →
  ∃ c', step o c = Some c' ∧
        (lir_count_ c' < lir_capacity_ c' →
         dom (map_ c') = P ∪ put_keys [o] ∧ lir_count_ c' = Z.of_nat (base.size (map_ c'))).
Proof.
  intros Hwf Hb Hwarm. pose proof (bounded_config _ Hb) as Hcfg.
  pose proof (bounded_count _ Hb) as Hcnt.
  destruct o as [key|key value]; simpl.
  - destruct (get_bounded c key Hwf Hb) as (r & c' & Hg & Hb' & Hc').
    destruct (step_spec c (Get key) Hwf) as (c'' & Hs & _ & (_ & _ & Hcap)).
    simpl in Hs. rewrite Hg in Hs |- *. simplify_eq/=. eexists. split; [done|].
    rewrite Hc', Hcap. intros Hlt. destruct (Hwarm Hlt) as [<- Hsz].
    rewrite union_empty_r_L. rewrite <- !size_dom in *.
    assert (dom (map_ c'') = dom (map_ c)) as Hd; [|by rewrite Hd].
    unfold get in Hg. destruct (map_ c !! key) as [e|] eqn:He; [|by simplify_eq].
    destruct (is_resident e); simpl in Hg; [|by simplify_eq].
    destruct (bounded_warm _ Hb Hlt) as [_ Hall]. rewrite (Hall _ _ He) in Hg.
    destruct (access_lir_warm c key e Hwf Hb Hlt He) as (c1 & Hacc & Hd1).
    rewrite Hacc in Hg. simpl in Hg. destruct (map_ c1 !! key); simpl in Hg; [|done].
    destruct (deref _ _); by simplify_eq/=.
  - destruct (put_bounded c key value Hwf Hb) as (c' & Hp & Hb' & Hle).
    destruct (put_spec c key value Hwf) as (c'' & Hp' & _ & (_ & _ & Hcap) & _).
    assert (c'' = c') as -> by congruence.
    exists c'. split; [done|]. rewrite Hcap. intros Hlt.
    assert (lir_count_ c < lir_capacity_ c) as Hlt0 by lia.
    destruct (Hwarm Hlt0) as [<- Hsz]. destruct (bounded_warm _ Hb Hlt0) as [HQ Hall].
    rewrite union_empty_r_L.
    unfold put in Hp. destruct (map_ c !! key) as [e|] eqn:He.
    + rewrite (Hall _ _ He) in Hp.
      destruct (flags_ok_LIR _ (flags_lookup _ _ _ (proj2 Hwf) He) (Hall _ _ He)) as (Hr & _).
      destruct (resident_value _ _ _ Hwf He Hr) as (d & v & Hd & Hnd & _).
      rewrite Hd in Hp. unfold modify in Hp. simpl in Hp. rewrite Hnd in Hp. simpl in Hp.
      destruct (overwritten_spec c key e d v value) as (Hwf0 & _); try done.
      pose proof (overwritten_bounded c d (key, v) value Hb) as Hb0.
      destruct (access_lir_warm (overwritten c d (key, v) value) key e Hwf0 Hb0)
        as (c1 & Hacc & Hd1); try done.
      unfold overwritten in Hacc. rewrite Hacc in Hp. simplify_eq. simpl in Hd1.
      assert (lir_count_ c' = lir_count_ c) as Hceq.
      { destruct (access_lir_bounded (overwritten c d (key, v) value) key e Hwf0 Hb0)
          as (c2 & Hacc2 & _ & Hc2); try done; [by apply (Hall key)|].
        unfold overwritten in Hacc2. rewrite Hacc in Hacc2. by simplify_eq. }
      rewrite <- !size_dom in *. rewrite Hd1, Hceq. split; [|done].
      apply (elem_of_dom_2 (D := gset K)) in He. rewrite (union_comm_L (dom (map_ c))).
      symmetry. by apply subseteq_union_1_L, singleton_subseteq_l.
    + rewrite insert_new_eq in Hp.
      destruct (Z.ltb_spec (lir_count_ c) (lir_capacity_ c)); [|lia]. simplify_eq. simpl.
      rewrite dom_insert_L. split; [apply union_comm_L|].
      rewrite map_size_insert_None by done.
      rewrite size_t_incr by lia. lia.
Qed.

Lemma run_warm ops c P :
  WF c → bounded c →
  (lir_count_ c < lir_capacity_ c →
   dom (map_ c) = P ∧ lir_count_ c = Z.of_nat (base.size (map_ c))) →
  ∃ c', run ops c = Some c' ∧
        (lir_count_ c' < lir_capacity_ c' →
         dom (map_ c') = P ∪ put_keys ops ∧ lir_count_ c' = Z.of_nat (base.size (map_ c'))).
Proof.
  revert c P. induction ops as [|o ops IH]; intros c P Hwf Hb Hwarm.
  - exists c. split; [done|]. simpl. by rewrite union_empty_r_L.
  - destruct (step_warm c o P Hwf Hb Hwarm) as (c1 & Hs & Hwarm1).
    destruct (run_bounded [o] c Hwf Hb) as (c1' & Hr & Hwf1 & Hb1 & _).
    simpl in Hr. rewrite Hs in Hr. simpl in Hr. simplify_eq.
    destruct (IH c1' _ Hwf1 Hb1 Hwarm1) as (c' & Hrun & Hwarm').
    exists c'. simpl. rewrite Hs. simpl. split; [done|].
    intros Hlt. destruct (Hwarm' Hlt) as [Hdom ?]. split; [|done].
    rewrite Hdom. destruct o; simpl; rewrite ?union_empty_r_L; [done|].
    by rewrite union_assoc_L.
Qed.

(** Once the keys put are at least [lir_capacity], the LIR set is full. *)
Lemma run_fills_lir ops c :
  WF c → bounded c → map_ c = ∅ → lir_count_ c = 0 →
  ∃ c', run ops c = Some c' ∧
        (lir_capacity_ c' ≤ Z.of_nat (base.size (put_keys ops)) → lir_count_ c' = lir_capacity_ c').
Proof.
  intros Hwf Hb Hm Hc.
  destruct (run_warm ops c ∅ Hwf Hb) as (c' & Hrun & Hwarm).
  { intros _. rewrite Hm, dom_empty_L, map_size_empty. done. }
  destruct (run_bounded ops c Hwf Hb) as (c'' & Hrun' & _ & Hb' & _).
  assert (c'' = c') as -> by congruence.
  exists c'. split; [done|]. intros Hle. pose proof (bounded_count _ Hb').
  destruct (Z.lt_ge_cases (lir_count_ c') (lir_capacity_ c')) as [Hlt|]; [|lia].
  destruct (Hwarm Hlt) as [Hdom Hsz]. rewrite union_empty_l_L in Hdom.
  rewrite <- size_dom, Hdom in Hsz. lia.
Qed.
End WarmUp.

(** * Misses, duplicates, overwrites *)

Section Frames.
Context `{Countable K} {V : Type}.
Implicit Types (c : LIRSCache K V) (key k : K) (value : V).

(** C7: [get] of a key that has no entry, or whose entry is not resident
    (a ghost), returns absent and returns the engine as it was: S, Q, the
    value list and the entry table are unchanged.  This holds in every
    state, reachable or not. *)
Theorem C7_get_absent_unchanged c key :
  map_ c !! key = None ∨ (∃ e, map_ c !! key = Some e ∧ is_resident e = false) →
  get key c = Some (None, c).
Proof.
  intros Hk. apply get_miss. unfold resident.
  destruct Hk as [-> | (e & -> & Hr)]; [done | exact Hr].
Qed.

(** C9: after any sequence of [get] and [put] on a constructed engine, the
    sequence runs to a state in which no key occurs twice in S and no key
    occurs twice in Q. *)
Theorem C9_no_duplicate_keys capacity hir_ratio (c0 : LIRSCache K V) ops :
  construct capacity hir_ratio = Constructed c0 →
  ∃ c, run ops c0 = Some c ∧ NoDup (S_keys c) ∧ NoDup (Q_keys c).
Proof.
  intros Hc. destruct (run_spec ops c0) as (c & Hrun & [[HS HQ _] _] & _).
  { by eapply construct_WF. }
  exists c. split_and!; [done | apply (linked_keys _ _ _ _ _ HS) | apply (linked_keys _ _ _ _ _ HQ)].
Qed.

(** C10: in a state reached from construction, [put] of a resident key
    returns, does not change [size()], leaves the residency and the stored
    value of every other key as they were, keeps the key resident, and
    makes [value] the stored value of the key. *)
Theorem C10_put_resident_frame capacity hir_ratio (c0 : LIRSCache K V) ops c key value :
  construct capacity hir_ratio = Constructed c0 →
  run ops c0 = Some c →
  resident c key = true →
  ∃ c', put key value c = Some c' ∧
        size c' = size c ∧
        (∀ k, resident c' k = resident c k) ∧
        (∀ k, k ≠ key → stored c' k = stored c k) ∧
        stored c' key = Some value.
Proof.
  intros Hc Hrun Hres.
  destruct (run_spec ops c0) as (c1 & Hrun1 & Hwf & _).
  { by eapply construct_WF. }
  assert (c1 = c) as -> by congruence.
  destruct (put_resident_spec c key value Hwf Hres)
    as (c' & Hput & _ & _ & Hsz & Hr & Ho & Hk & _).
  by exists c'.
Qed.
End Frames.

Lemma C7_get_absent_unchanged_witness :
  get 5%nat (Scenario.after Scenario.with_ghost Scenario.cache_5)
  = Some (None, Scenario.after Scenario.with_ghost Scenario.cache_5).
Proof.
  apply C7_get_absent_unchanged. right.
  eexists. split; [vm_compute; reflexivity | reflexivity].
Defined.

Lemma C9_no_duplicate_keys_witness :
  ∃ c, run Scenario.with_ghost Scenario.cache_5 = Some c
       ∧ NoDup (S_keys c) ∧ NoDup (Q_keys c).
Proof.
  apply (C9_no_duplicate_keys 5 Scenario.ratio_0_2). vm_compute. reflexivity.
Defined.

Lemma C10_put_resident_frame_witness :
  ∃ c', put 6%nat "F2" (Scenario.after Scenario.with_ghost Scenario.cache_5) = Some c' ∧
        size c' = size (Scenario.after Scenario.with_ghost Scenario.cache_5) ∧
        (∀ k, resident c' k = resident (Scenario.after Scenario.with_ghost Scenario.cache_5) k) ∧
        (∀ k, k ≠ 6%nat →
              stored c' k = stored (Scenario.after Scenario.with_ghost Scenario.cache_5) k) ∧
        stored c' 6%nat = Some "F2".
Proof.
  apply (C10_put_resident_frame 5 Scenario.ratio_0_2 Scenario.cache_5 Scenario.with_ghost).
  - vm_compute. reflexivity.
  - vm_compute. reflexivity.
  - vm_compute. reflexivity.
Defined.

(** * Two successive puts of one key *)

Section PutTwice.
Context `{Countable K} {V : Type}.
Implicit Types (c : LIRSCache K V) (key k : K) (value : V).

(** C4 (amended): in a state reached from construction, [put(k, v1)]
    followed by [put(k, v2)] and the single [put(k, v2)] all return, a
    [get(k)] after the two puts yields [v2], and when [k] is LIR after the
    first put the two puts leave the same key sequences in S and in Q as
    the single put does. *)
Theorem C4_put_twice capacity hir_ratio (c0 : LIRSCache K V) ops c key v1 v2 :
  construct capacity hir_ratio = Constructed c0 →
  run ops c0 = Some c →
  ∃ c1 c2 c' c3,
    put key v1 c = Some c1 ∧ put key v2 c1 = Some c2 ∧ put key v2 c = Some c' ∧
    get key c2 = Some (Some v2, c3) ∧
    (lir c1 key = true → S_keys c2 = S_keys c' ∧ Q_keys c2 = Q_keys c').
Proof.
  intros Hc Hrun.
  destruct (run_spec ops c0) as (c1 & Hrun1 & Hwf & _).
  { by eapply construct_WF. }
  assert (c1 = c) as -> by congruence.
  by apply put_twice.
Qed.
End PutTwice.

Lemma C4_put_twice_witness :
  ∃ c1 c2 c' c3,
    put 1%nat "A1" (Scenario.after Scenario.with_ghost Scenario.cache_5) = Some c1 ∧
    put 1%nat "A2" c1 = Some c2 ∧
    put 1%nat "A2" (Scenario.after Scenario.with_ghost Scenario.cache_5) = Some c' ∧
    get 1%nat c2 = Some (Some "A2", c3) ∧
    (lir c1 1%nat = true → S_keys c2 = S_keys c' ∧ Q_keys c2 = Q_keys c').
Proof.
  apply (C4_put_twice 5 Scenario.ratio_0_2 Scenario.cache_5 Scenario.with_ghost).
  - vm_compute. reflexivity.
  - vm_compute. reflexivity.
Defined.

(** C4 as stated fails for a key admitted in the steady state: after the
    warm-up of the engine of capacity 5, [put(5, "E")] admits 5 as HIR on
    top of S and Q, and the second [put(5, "E2")] promotes it, which
    demotes key 1 into Q; the single [put(5, "E2")] leaves S as 5,4,3,2,1
    and Q as 5. *)
Lemma C4_counterexample :
  ¬ (∀ c1 c2 c',
       put 5%nat "E" (Scenario.after Scenario.warm_up Scenario.cache_5) = Some c1 →
       put 5%nat "E2" c1 = Some c2 →
       put 5%nat "E2" (Scenario.after Scenario.warm_up Scenario.cache_5) = Some c' →
       S_keys c2 = S_keys c' ∧ Q_keys c2 = Q_keys c').
Proof.
  intros Hclaim.
  specialize (Hclaim
    (Scenario.after (Scenario.warm_up ++ [Scenario.P 5 "E"]) Scenario.cache_5)
    (Scenario.after (Scenario.warm_up ++ [Scenario.P 5 "E"; Scenario.P 5 "E2"]) Scenario.cache_5)
    (Scenario.after (Scenario.warm_up ++ [Scenario.P 5 "E2"]) Scenario.cache_5)).
  destruct Hclaim as [HS _]; [vm_compute; reflexivity..|].
  vm_compute in HS. discriminate HS.
Qed.

Lemma C4_counterexample_states :
  S_keys (Scenario.after (Scenario.warm_up ++ [Scenario.P 5 "E"; Scenario.P 5 "E2"])
            Scenario.cache_5) = [5; 4; 3; 2]%nat ∧
  Q_keys (Scenario.after (Scenario.warm_up ++ [Scenario.P 5 "E"; Scenario.P 5 "E2"])
            Scenario.cache_5) = [1]%nat ∧
  S_keys (Scenario.after (Scenario.warm_up ++ [Scenario.P 5 "E2"])
            Scenario.cache_5) = [5; 4; 3; 2; 1]%nat ∧
  Q_keys (Scenario.after (Scenario.warm_up ++ [Scenario.P 5 "E2"])
            Scenario.cache_5) = [5]%nat.
Proof. vm_compute. done. Qed.

(** * Engines whose LIR capacity is positive

    When [hir_capacity < capacity] the LIR capacity is at least 1.  On
    those engines the counters stay within their capacities, the bottom of
    S is LIR, a full cache evicts the bottom of Q on admission, and [get]
    leaves the LIR count alone. *)

Section PositiveLIR.
Context `{Countable K} {V : Type}.
Implicit Types (c : LIRSCache K V) (key k : K) (value : V).

Lemma positive_lir_reachable capacity hir_ratio (c0 : LIRSCache K V) ops :
  construct capacity hir_ratio = Constructed c0 →
  capacity < SizeT.modulus → hir_capacity_ c0 < capacity →
  ∃ c, run ops c0 = Some c ∧ WF c ∧ bounded c.
Proof.
  intros Hc Hcap Hhir.
  destruct (run_bounded ops c0) as (c & ? & ? & ? & _).
  - by eapply construct_WF.
  - by eapply construct_bounded.
  - by exists c.
Qed.

(** X1: on an engine whose HIR capacity is below its capacity, after any
    sequence of operations [size()] is at most [capacity()], the LIR
    count is at most the LIR capacity, and equal to it once as many
    distinct keys were put, and the bottom of S, if any, is LIR. *)
Theorem positive_lir_invariants capacity hir_ratio (c0 : LIRSCache K V) ops :
  construct capacity hir_ratio = Constructed c0 →
  capacity < SizeT.modulus → hir_capacity_ c0 < capacity →
  ∃ c, run ops c0 = Some c ∧
       size c ≤ LIRS.capacity c ∧
       lir_count_ c ≤ lir_capacity_ c ∧
       (lir_capacity_ c ≤ Z.of_nat (base.size (put_keys ops)) →
        lir_count_ c = lir_capacity_ c) ∧
       (∀ bottom_key, back (lirs_stack_ c) = Some bottom_key → lir c bottom_key = true).
Proof.
  intros Hc Hcap Hhir.
  destruct (positive_lir_reachable _ _ _ ops Hc Hcap Hhir) as (c & Hrun & Hwf & Hb).
  destruct (construct_Constructed _ _ _ Hc) as (_ & _ & _ & _ & _ & _ & Hcnt & _ & _ & _ & Hm).
  destruct (run_fills_lir ops c0) as (c' & Hrun' & Hfill); try done.
  { by eapply construct_WF. }
  { by eapply construct_bounded. }
  assert (c' = c) as -> by congruence.
  exists c. split_and!; try done.
  - by apply bounded_size_capacity.
  - apply (bounded_count _ Hb).
  - apply (bounded_bottom _ Hb).
Qed.

(** X2: on such an engine, a [put] of a key that has no entry into a full
    cache evicts the bottom of Q and nothing else, and [size()] stays
    what it was. *)
Theorem positive_lir_full_insert capacity hir_ratio (c0 : LIRSCache K V) ops c key value :
  construct capacity hir_ratio = Constructed c0 →
  capacity < SizeT.modulus → hir_capacity_ c0 < capacity →
  run ops c0 = Some c →
  size c = LIRS.capacity c → map_ c !! key = None →
  ∃ victim_key c',
    back (hir_stack_ c) = Some victim_key ∧ put key value c = Some c' ∧
    resident c victim_key = true ∧ resident c' victim_key = false ∧
    (∀ k, k ≠ victim_key → k ≠ key → resident c' k = resident c k) ∧
    resident c' key = true ∧ size c' = size c.
Proof.
  intros Hc Hcap Hhir Hrun Hfull He.
  destruct (positive_lir_reachable _ _ _ ops Hc Hcap Hhir) as (c1 & Hrun1 & Hwf & Hb).
  assert (c1 = c) as -> by congruence.
  unfold put. rewrite He. by apply insert_new_full.
Qed.

(** X3: on such an engine, [get] of a resident key returns its value and
    changes neither residency, nor [size()], nor the LIR count. *)
Theorem positive_lir_get_resident capacity hir_ratio (c0 : LIRSCache K V) ops c key :
  construct capacity hir_ratio = Constructed c0 →
  capacity < SizeT.modulus → hir_capacity_ c0 < capacity →
  run ops c0 = Some c →
  resident c key = true →
  ∃ v c', get key c = Some (Some v, c') ∧ stored c key = Some v ∧
          (∀ k, resident c' k = resident c k) ∧ size c' = size c ∧
          lir_count_ c' = lir_count_ c.
Proof.
  intros Hc Hcap Hhir Hrun Hres.
  destruct (positive_lir_reachable _ _ _ ops Hc Hcap Hhir) as (c1 & Hrun1 & Hwf & Hb).
  assert (c1 = c) as -> by congruence.
  destruct (get_resident_spec c key Hwf Hres) as (v & c' & Hg & Hst & _ & Hs).
  destruct (get_bounded c key Hwf Hb) as (r & c'' & Hg' & _ & Hcnt).
  assert (c'' = c') as -> by congruence.
  exists v, c'. split_and!; try done.
  - intros k. by apply same_store_resident.
  - by apply same_store_size.
Qed.

(** X4: On every engine, [get] of a resident key returns its value and
    changes neither residency nor [size()]. *)
Theorem get_resident_frame capacity hir_ratio (c0 : LIRSCache K V) ops c key :
  construct capacity hir_ratio = Constructed c0 →
  run ops c0 = Some c →
  resident c key = true →
  ∃ v c', get key c = Some (Some v, c') ∧ stored c key = Some v ∧
          (∀ k, resident c' k = resident c k) ∧ size c' = size c.
Proof.
  intros Hc Hrun Hres.
  destruct (run_spec ops c0) as (c1 & Hrun1 & Hwf & _).
  { by eapply construct_WF. }
  assert (c1 = c) as -> by congruence.
  destruct (get_resident_spec c key Hwf Hres) as (v & c' & Hg & Hst & _ & Hs).
  exists v, c'. split_and!; try done.
  - intros k. by apply same_store_resident.
  - by apply same_store_size.
Qed.
End PositiveLIR.

Lemma positive_lir_invariants_witness :
  ∃ c, run (Scenario.with_ghost ++ [Scenario.G 1; Scenario.G 4; Scenario.G 6]) Scenario.cache_5
       = Some c ∧
       size c ≤ capacity c ∧
       lir_count_ c ≤ lir_capacity_ c ∧
       (lir_capacity_ c
          ≤ Z.of_nat (base.size (put_keys
               (Scenario.with_ghost ++ [Scenario.G 1; Scenario.G 4; Scenario.G 6]))) →
        lir_count_ c = lir_capacity_ c) ∧
       (∀ bottom_key, back (lirs_stack_ c) = Some bottom_key → lir c bottom_key = true).
Proof.
  apply (positive_lir_invariants 5 Scenario.ratio_0_2).
  - vm_compute. reflexivity.
  - reflexivity.
  - reflexivity.
Defined.

Lemma positive_lir_full_insert_witness :
  ∃ victim_key c',
    back (hir_stack_ (Scenario.after Scenario.with_ghost Scenario.cache_5)) = Some victim_key ∧
    put 7%nat "G" (Scenario.after Scenario.with_ghost Scenario.cache_5) = Some c' ∧
    resident (Scenario.after Scenario.with_ghost Scenario.cache_5) victim_key = true ∧
    resident c' victim_key = false ∧
    (∀ k, k ≠ victim_key → k ≠ 7%nat →
          resident c' k = resident (Scenario.after Scenario.with_ghost Scenario.cache_5) k) ∧
    resident c' 7%nat = true ∧
    size c' = size (Scenario.after Scenario.with_ghost Scenario.cache_5).
Proof.
  apply (positive_lir_full_insert 5 Scenario.ratio_0_2 Scenario.cache_5 Scenario.with_ghost).
  - vm_compute. reflexivity.
  - reflexivity.
  - reflexivity.
  - vm_compute. reflexivity.
  - vm_compute. reflexivity.
  - vm_compute. reflexivity.
Defined.

Lemma positive_lir_get_resident_witness :
  ∃ v c', get 6%nat (Scenario.after Scenario.with_ghost Scenario.cache_5) = Some (Some v, c') ∧
          stored (Scenario.after Scenario.with_ghost Scenario.cache_5) 6%nat = Some v ∧
          (∀ k, resident c' k = resident (Scenario.after Scenario.with_ghost Scenario.cache_5) k) ∧
          size c' = size (Scenario.after Scenario.with_ghost Scenario.cache_5) ∧
          lir_count_ c' = lir_count_ (Scenario.after Scenario.with_ghost Scenario.cache_5).
Proof.
  apply (positive_lir_get_resident 5 Scenario.ratio_0_2 Scenario.cache_5 Scenario.with_ghost).
  - vm_compute. reflexivity.
  - reflexivity.
  - reflexivity.
  - vm_compute. reflexivity.
  - vm_compute. reflexivity.
Defined.

(** * The engine of capacity 1

    [capacity = 1] passes the constructor's checks with any ratio in
    (0, 1); [hir_capacity] is then [max(1, 0) = 1] and [lir_capacity] is 0.
    The theorems of this section run the code on that engine. *)

(** C3: on the engine of capacity 1 and ratio 0.5, after [put(1, "A")]
    stack S holds key 1 alone and the entry of key 1 is not LIR. *)
Theorem C3_bottom_not_lir_capacity_1 :
  ∃ c, engine_after 1 Scenario.ratio_0_5 [Scenario.P 1 "A"] = Some c ∧
       lir_capacity_ c = 0 ∧ S_keys c = [1%nat] ∧ lir c 1%nat = false.
Proof.
  exists (Scenario.after [Scenario.P 1 "A"] Scenario.cache_1). vm_compute. done.
Qed.

(** C2: on the same engine, after [put(1); put(2); get(2)] the LIR count
    is 1 and the LIR capacity is 0. *)
Theorem C2_lir_count_exceeds_capacity_1 :
  ∃ c, engine_after 1 Scenario.ratio_0_5
         [Scenario.P 1 "A"; Scenario.P 2 "B"; Scenario.G 2] = Some c ∧
       lir_count_ c = 1 ∧ lir_capacity_ c = 0.
Proof.
  exists (Scenario.after [Scenario.P 1 "A"; Scenario.P 2 "B"; Scenario.G 2] Scenario.cache_1).
  vm_compute. done.
Qed.

(** C1: on the same engine, after [put(1); put(2); get(2); put(3)] two
    entries are resident and [size()] is 2, with [capacity()] 1. *)
Theorem C1_size_exceeds_capacity_1 :
  ∃ c, engine_after 1 Scenario.ratio_0_5
         [Scenario.P 1 "A"; Scenario.P 2 "B"; Scenario.G 2; Scenario.P 3 "C"] = Some c ∧
       size c = 2 ∧ capacity c = 1 ∧
       stored c 2%nat = Some "B" ∧ stored c 3%nat = Some "C".
Proof.
  exists (Scenario.after
            [Scenario.P 1 "A"; Scenario.P 2 "B"; Scenario.G 2; Scenario.P 3 "C"]
            Scenario.cache_1).
  vm_compute. done.
Qed.

(** C5: on the same engine, after [put(1); put(2); get(2)] the cache is
    full ([size() = capacity() = 1]), Q is empty and key 3 has no entry;
    [put(3, "C")] then evicts nothing: key 2 stays resident and [size()]
    becomes 2. *)
Theorem C5_no_eviction_capacity_1 :
  ∃ c c', engine_after 1 Scenario.ratio_0_5
            [Scenario.P 1 "A"; Scenario.P 2 "B"; Scenario.G 2] = Some c ∧
          size c = capacity c ∧ map_ c !! 3%nat = None ∧ Q_keys c = [] ∧
          cache_keys c = [2%nat] ∧
          put 3%nat "C" c = Some c' ∧
          resident c' 2%nat = true ∧ size c' = 2.
Proof.
  exists (Scenario.after [Scenario.P 1 "A"; Scenario.P 2 "B"; Scenario.G 2] Scenario.cache_1),
         (Scenario.after
            [Scenario.P 1 "A"; Scenario.P 2 "B"; Scenario.G 2; Scenario.P 3 "C"]
            Scenario.cache_1).
  vm_compute. done.
Qed.

(** C6: on the same engine, after [put(1); put(2)] key 2 is resident and
    the LIR count is 0; [get(2)] returns its value and leaves the LIR
    count at 1. *)
Theorem C6_get_changes_lir_count_capacity_1 :
  ∃ c c', engine_after 1 Scenario.ratio_0_5
            [Scenario.P 1 "A"; Scenario.P 2 "B"] = Some c ∧
          resident c 2%nat = true ∧ lir_count_ c = 0 ∧
          get 2%nat c = Some (Some "B", c') ∧ lir_count_ c' = 1.
Proof.
  exists (Scenario.after [Scenario.P 1 "A"; Scenario.P 2 "B"] Scenario.cache_1),
         (Scenario.after [Scenario.P 1 "A"; Scenario.P 2 "B"; Scenario.G 2] Scenario.cache_1).
  vm_compute. done.
Qed.


(** C8: a NaN ratio is not inside (0, 1) -- both [0 < NaN] and [NaN < 1]
    are false -- but neither test of the constructor fires for it, and no
    invalid-argument error is raised; the conversion of [capacity * NaN]
    in the member initialiser is undefined. *)
Theorem C8_nan_ratio_not_rejected :
  Double.lt Double.zero Double.nan = false ∧
  Double.lt Double.nan Double.one = false ∧
  construct (K:=nat) (V:=string) 5 Double.nan = UndefinedConversion ∧
  ∀ what, construct (K:=nat) (V:=string) 5 Double.nan ≠ InvalidArgument what.
Proof. split_and!; try done. Qed.

(** The rejections and the acceptance of scenario F. *)
Lemma construct_scenario_F :
  construct (K:=nat) (V:=string) 0 Scenario.ratio_0_2
    = InvalidArgument "Capacity must be greater than 0" ∧
  construct (K:=nat) (V:=string) 5 Double.zero
    = InvalidArgument "HIR ratio must be in range(0, 1)" ∧
  construct (K:=nat) (V:=string) 5 Double.one
    = InvalidArgument "HIR ratio must be in range(0, 1)" ∧
  construct (K:=nat) (V:=string) 5 (SFopp (Double.of_ratio 1 10))
    = InvalidArgument "HIR ratio must be in range(0, 1)" ∧
  construct (K:=nat) (V:=string) 5 (Double.of_ratio 3 2)
    = InvalidArgument "HIR ratio must be in range(0, 1)" ∧
  construct 5 Scenario.ratio_0_2 = Constructed Scenario.cache_5 ∧
  construct 1 Scenario.ratio_0_5 = Constructed Scenario.cache_1.
Proof. vm_compute. done. Qed.

(** With capacity 2 the LIR capacity is 1 even for the largest ratio
    below 1, and a small ratio leaves the HIR capacity at 1. *)
Lemma construct_lir_capacity_examples :
  Double.lt (S754_finite false (2 ^ 53 - 1) (-53)) Double.one = true ∧
  construct (K:=nat) (V:=string) 2 (S754_finite false (2 ^ 53 - 1) (-53))
    = Constructed (mkCache 2 1 1 0 [] [] [] ∅ 0) ∧
  construct (K:=nat) (V:=string) 100 (Double.of_ratio 1 100)
    = Constructed (mkCache 100 1 99 0 [] [] [] ∅ 0).
Proof. vm_compute. done. Qed.

(** * What one operation does to the stored values *)

Section Effects.
Context `{Countable K} {V : Type}.
Implicit Types (c : LIRSCache K V) (m : gmap K Entry) (key k : K) (e : Entry).

Lemma reachable_WF capacity hir_ratio (c0 : LIRSCache K V) ops c :
  construct capacity hir_ratio = Constructed c0 → run ops c0 = Some c → WF c.
Proof.
  intros Hc Hrun. destruct (run_spec ops c0) as (c' & Hrun' & Hwf & _).
  { by eapply construct_WF. }
  congruence.
Qed.

(** The node [push_front] allocates is new: the values already stored are
    found where they were. *)
Lemma stored_push_front c c' k kv :
  WF c → cache_ c' = push_front (next_node_ c) kv (cache_ c) →
  map_ c' !! k = map_ c !! k → stored c' k = stored c k.
Proof.
  intros [[HS HQ HC] Hf] Hcache Hm. unfold stored, store_iter. rewrite Hm, Hcache.
  destruct (map_ c !! k) as [e|] eqn:He; simpl; [|done].
  destruct (is_resident e) eqn:Hr; simpl; [|done].
  destruct (linked_node _ _ _ _ _ _ _ HC He Hr) as (d & Hd & Hnd).
  rewrite Hd. simpl. rewrite decide_False; [done|].
  intros ->. assert (next_node_ c ∈ (keyed (cache_ c)).*1) as Hin.
  { apply node_at_is_Some. by eexists. }
  apply (linked_bound _ _ _ _ _ HC) in Hin. lia.
Qed.

Lemma evicted_effect c victim_key e d :
  WF c → map_ c !! victim_key = Some e → is_LIR e = false → is_resident e = true →
  data_iter e = Some d → node_at d (keyed (cache_ c)) = Some victim_key →
  stored (evicted c victim_key e d) victim_key = None ∧
  (∀ k, k ≠ victim_key →
        map_ (evicted c victim_key e d) !! k = map_ c !! k ∧
        stored (evicted c victim_key e d) k = stored c k) ∧
  size (evicted c victim_key e d) = size c - 1 ∧
  (∀ k, lir (evicted c victim_key e d) k = lir c k).
Proof.
  intros [[HS HQ HC] Hf] He HLIR Hr Hd Hnd.
  assert (∀ k, k ≠ victim_key → map_ (evicted c victim_key e d) !! k = map_ c !! k) as Hne.
  { intros k Hk. simpl.
    destruct (in_lirs_stack e); [by rewrite lookup_insert_ne | by rewrite lookup_delete_ne]. }
  split_and!.
  - unfold stored, store_iter. simpl.
    destruct (in_lirs_stack e); [by rewrite lookup_insert_eq | by rewrite lookup_delete_eq].
  - intros k Hk. split; [by apply Hne|].
    unfold stored, store_iter. rewrite (Hne _ Hk).
    destruct (map_ c !! k) as [e'|] eqn:He'; simpl; [|done].
    destruct (is_resident e') eqn:Hr'; simpl; [|done].
    destruct (linked_node _ _ _ _ _ _ _ HC He' Hr') as (d' & Hd' & Hnd').
    rewrite Hd'. simpl. rewrite node_at_erase_ne; [done|]. intros ->. congruence.
  - unfold size. simpl. rewrite node_at_keyed in Hnd.
    destruct (node_at d (cache_ c)) as [kv|] eqn:Hn; [|done].
    rewrite (erase_node_length _ _ _ Hn). lia.
  - intros k. unfold lir. simpl. destruct (decide (k = victim_key)) as [->|Hk].
    + rewrite He. simpl. rewrite HLIR.
      destruct (in_lirs_stack e); [by rewrite lookup_insert_eq | by rewrite lookup_delete_eq].
    + destruct (in_lirs_stack e); [by rewrite lookup_insert_ne | by rewrite lookup_delete_ne].
Qed.

(** [evict_hir_resident] in a well-formed state: the bottom of Q, if
    there is one, leaves the value list; it stays in the table as a ghost
    when it is in S and is erased from the table otherwise. *)
Lemma evict_hir_resident_effect c :
  WF c →
  ∃ c1, evict_hir_resident c = Some c1 ∧ WF c1 ∧ same_config c c1 ∧
    lir_count_ c1 = lir_count_ c ∧ lirs_stack_ c1 = lirs_stack_ c ∧
    hir_stack_ c1 = pop_back (hir_stack_ c) ∧ next_node_ c1 = next_node_ c ∧
    (∀ k, stored c1 k = if decide (back (hir_stack_ c) = Some k) then None else stored c k) ∧
    (∀ k, back (hir_stack_ c) ≠ Some k → map_ c1 !! k = map_ c !! k) ∧
    (∀ k, lir c1 k = lir c k) ∧
    size c1 = size c - (if decide (hir_stack_ c = []) then 0 else 1) ∧
    (∀ k, back (hir_stack_ c) = Some k →
          ∃ e, map_ c !! k = Some e ∧ is_LIR e = false ∧ is_resident e = true ∧
               map_ c1 !! k = if in_lirs_stack e
                              then Some (set_in_hir_stack false (set_is_resident false e))
                              else None).
Proof.
  intros Hwf. destruct (back (hir_stack_ c)) as [victim_key|] eqn:Hb.
  - destruct (evict_victim _ _ Hwf Hb) as (e & d & He & HLIR & Hr & HinQ & Hd & Hnd).
    destruct (evicted_effect c victim_key e d) as (Hv & Hoth & Hsz & Hlir); try done.
    exists (evicted c victim_key e d). split_and!; try done.
    + apply evict_hir_resident_eq; try done.
      rewrite node_at_keyed in Hnd. by destruct (node_at d (cache_ c)).
    + by apply evicted_WF.
    + intros k. case_decide; simplify_eq; [done|]. apply Hoth. congruence.
    + intros k Hk. apply Hoth. congruence.
    + rewrite Hsz. rewrite decide_False; [done|]. intros Hq. by rewrite Hq in Hb.
    + intros k ?; simplify_eq. exists e. split_and!; try done. simpl.
      destruct (in_lirs_stack e); [by rewrite lookup_insert_eq | by rewrite lookup_delete_eq].
  - pose proof Hb as Hq. apply back_None in Hq. exists c. split_and!; try done.
    + by apply evict_hir_resident_empty.
    + by rewrite Hq.
    + rewrite decide_True; [lia|done].
Qed.

Lemma size_push_front c c' kv :
  cache_ c' = push_front (next_node_ c) kv (cache_ c) → size c' = size c + 1.
Proof. unfold size. intros ->. simpl. lia. Qed.

(** [put] of a key that is not resident: what is evicted is the bottom of
    Q, if anything. *)
Lemma put_miss_effect c key value :
  WF c → resident c key = false →
  ∃ c1 c', put key value c = Some c' ∧ WF c' ∧ stored c' key = Some value ∧
    (∀ k, k ≠ key → stored c' k = stored c1 k) ∧ size c' = size c1 + 1 ∧
    (c1 = c ∨ evict_hir_resident c = Some c1).
Proof.
  intros Hwf Hres. unfold resident in Hres. unfold put.
  destruct (map_ c !! key) as [e|] eqn:He; simpl in Hres.
  - assert (is_LIR e = false) as HLIR.
    { destruct (is_LIR e) eqn:HL; [|done].
      destruct (flags_ok_LIR _ (flags_lookup _ _ _ (proj2 Hwf) He) HL) as (? & _); congruence. }
    rewrite HLIR, Hres.
    destruct (flags_ok_HIR _ (flags_lookup _ _ _ (proj2 Hwf) He) HLIR) as [HrQ [HinS|HinQ]];
      [|congruence].
    destruct (evict_hir_resident_WF _ Hwf) as (c1 & Hev & Hwf1 & Hcfg1 & _ & _ & _ & Hkeep).
    pose proof (Hkeep _ _ He Hres) as He1.
    destruct (loaded_links c1 key value e Hwf1 He1 Hres) as (Hl2 & Hf2 & Hcfg2 & Hst2).
    destruct (promote_to_lir_spec (loaded c1 key value e) key
                (set_is_resident true (set_data_iter (Some (next_node_ c1)) e)))
      as (c' & Hc' & Hwf' & Hs' & Htop); try done.
    { simpl. by rewrite lookup_insert_eq. }
    exists c1, c'. split_and!; try done.
    + unfold access_hir_non_resident, upd_entry. rewrite Hev. simpl. rewrite He1. simpl.
      rewrite lookup_insert_eq. simpl. rewrite HinS. exact Hc'.
    + by rewrite (same_store_stored _ _ _ Hs').
    + intros k Hk. rewrite (same_store_stored _ _ _ Hs').
      apply (stored_push_front c1 _ k (key, value)); [done..|]. simpl.
      by rewrite lookup_insert_ne.
    + rewrite (same_store_size _ _ Hs'). by apply (size_push_front c1 _ (key, value)).
    + by right.
  - rewrite insert_new_eq. destruct (lir_count_ c <? lir_capacity_ c).
    + destruct (admitted_lir_WF c key value Hwf He) as [? ?].
      exists c, (admitted_lir c key value). split_and!; try done.
      * intros k Hk. apply (stored_push_front c _ k (key, value)); [done..|]. simpl.
        by rewrite lookup_insert_ne.
      * by apply (size_push_front c _ (key, value)).
      * by left.
    + destruct (evict_hir_resident_WF _ Hwf) as (c1 & Hev & Hwf1 & Hcfg1 & _).
      pose proof (evict_hir_resident_absent _ _ _ Hwf Hev He) as He1.
      destruct (admitted_hir_WF c1 key value Hwf1 He1) as [? ?].
      rewrite Hev. simpl. exists c1, (admitted_hir c1 key value). split_and!; try done.
      * intros k Hk. apply (stored_push_front c1 _ k (key, value)); [done..|]. simpl.
        by rewrite lookup_insert_ne.
      * by apply (size_push_front c1 _ (key, value)).
      * by right.
Qed.

(** What [put] does to the values stored for the other keys and to the
    number of resident entries. *)
Lemma put_effect c key value :
  WF c →
  ∃ c', put key value c = Some c' ∧ WF c' ∧ stored c' key = Some value ∧
    (∀ k, k ≠ key →
          stored c' k = stored c k ∨
          (stored c' k = None ∧ resident c key = false ∧ back (hir_stack_ c) = Some k)) ∧
    size c ≤ size c' ≤ size c + 1.
Proof.
  intros Hwf. destruct (resident c key) eqn:Hres.
  - destruct (put_resident_spec c key value Hwf Hres)
      as (c' & ? & ? & ? & Hsz & _ & Hoth & ? & _).
    exists c'. split_and!; try done; [|lia..]. intros k Hk. left. by apply Hoth.
  - destruct (put_miss_effect c key value Hwf Hres)
      as (c1 & c' & Hput & Hwf' & Hkey & Hoth & Hsz & Hc1).
    exists c'. split_and!; try done.
    + intros k Hk. rewrite (Hoth _ Hk). destruct Hc1 as [->|Hev]; [by left|].
      destruct (evict_hir_resident_effect c Hwf) as (c1' & Hev' & _ & _ & _ & _ & _ & _ & Hst & _).
      assert (c1' = c1) as -> by congruence.
      rewrite Hst. case_decide; [by right|by left].
    + destruct Hc1 as [->|Hev]; [lia|].
      destruct (evict_hir_resident_effect c Hwf)
        as (c1' & Hev' & _ & _ & _ & _ & _ & _ & _ & _ & _ & Hsz1 & _).
      assert (c1' = c1) as -> by congruence. case_decide; lia.
    + destruct Hc1 as [->|Hev]; [lia|].
      destruct (evict_hir_resident_effect c Hwf)
        as (c1' & Hev' & _ & _ & _ & _ & _ & _ & _ & _ & _ & Hsz1 & _).
      assert (c1' = c1) as -> by congruence. case_decide; lia.
Qed.

Lemma step_effect c o :
  WF c →
  ∃ c', step o c = Some c' ∧ WF c' ∧
    (∀ k, stored c' k = stored c k ∨
          (∃ value, o = Put k value ∧ stored c' k = Some value) ∨
          (∃ key value, o = Put key value ∧ resident c key = false ∧
                        stored c' k = None ∧ back (hir_stack_ c) = Some k)) ∧
    size c ≤ size c' ≤ size c + 1.
Proof.
  intros Hwf. destruct o as [key|key value]; simpl.
  - destruct (get_spec c key Hwf) as (r & c' & -> & _ & Hwf' & Hs). simpl.
    exists c'. split_and!; try done.
    + intros k. left. by apply same_store_stored.
    + rewrite (same_store_size _ _ Hs). lia.
    + rewrite (same_store_size _ _ Hs). lia.
  - destruct (put_effect c key value Hwf) as (c' & ? & ? & Hkey & Hoth & ?).
    exists c'. split_and!; try done; try lia.
    intros k. destruct (decide (k = key)) as [->|Hk].
    + right. left. by exists value.
    + destruct (Hoth _ Hk) as [?|(? & ? & ?)]; [by left|].
      right. right. by exists key, value.
Qed.
End Effects.

(** * Eviction, size and the values returned *)

Section Values.
Context `{Countable K} {V : Type}.
Implicit Types (c : LIRSCache K V) (m : gmap K Entry) (key k : K) (e : Entry).

Lemma resident_stored c k : WF c → resident c k = true → is_Some (stored c k).
Proof.
  intros Hwf Hres. unfold resident in Hres.
  destruct (map_ c !! k) as [e|] eqn:He; simpl in Hres; [|done].
  destruct (resident_value _ _ _ Hwf He Hres) as (d & v & _ & _ & Hst). by exists v.
Qed.

Lemma not_resident_stored c k : resident c k = false → stored c k = None.
Proof.
  intros Hres. destruct (stored c k) eqn:Hst; [|done].
  apply stored_resident in Hst. congruence.
Qed.

(** X7: The only key that can lose residency in an operation is the bottom
    of Q, it is never LIR, and the operation is a [put] of another key
    that was not resident. *)
Theorem eviction_only_bottom_of_Q capacity hir_ratio (c0 : LIRSCache K V) ops c o c' k :
  construct capacity hir_ratio = Constructed c0 → run ops c0 = Some c →
  step o c = Some c' → resident c k = true → resident c' k = false →
  back (hir_stack_ c) = Some k ∧ lir c k = false ∧
  ∃ key value, o = Put key value ∧ key ≠ k ∧ resident c key = false.
Proof.
  intros Hc Hrun Hstep Hres Hres'.
  pose proof (reachable_WF _ _ _ _ _ Hc Hrun) as Hwf.
  destruct (step_effect c o Hwf) as (c'' & Hstep' & _ & Hst & _).
  assert (c'' = c') as -> by congruence.
  destruct (resident_stored c k Hwf Hres) as [v Hv].
  pose proof (not_resident_stored c' k Hres') as Hv'.
  destruct (Hst k) as [Heq|[(value & _ & Heq)|(key & value & -> & Hkey & _ & Hb)]];
    [congruence..|].
  destruct (evict_victim _ _ Hwf Hb) as (e & d & He & HLIR & _).
  split_and!; try done.
  - unfold lir. by rewrite He.
  - exists key, value. split_and!; try done. intros ->. congruence.
Qed.

Lemma run_size ops c c' :
  WF c → run ops c = Some c' → size c ≤ size c' ≤ size c + Z.of_nat (length ops).
Proof.
  revert c. induction ops as [|o ops IH]; intros c Hwf Hrun; simpl in Hrun.
  - simplify_eq. simpl. lia.
  - destruct (step_effect c o Hwf) as (c1 & Hstep & Hwf1 & _ & Hsz).
    rewrite Hstep in Hrun. simpl in Hrun. specialize (IH c1 Hwf1 Hrun).
    rewrite length_cons. lia.
Qed.

(** X8: [size()] never decreases, and grows by at most one per operation. *)
Theorem size_never_decreases capacity hir_ratio (c0 : LIRSCache K V) ops c ops' c' :
  construct capacity hir_ratio = Constructed c0 → run ops c0 = Some c →
  run ops' c = Some c' →
  size c ≤ size c' ≤ size c + Z.of_nat (length ops').
Proof.
  intros Hc Hrun Hrun'. apply run_size; [|done]. by eapply reachable_WF.
Qed.

Lemma run_last_put ops c c' k v :
  WF c → run ops c = Some c' → stored c' k = Some v →
  match last_put ops k with
  | Some value => v = value
  | None => stored c k = Some v
  end.
Proof.
  revert c. induction ops as [|o ops IH]; intros c Hwf Hrun Hst; simpl in *.
  - by simplify_eq.
  - destruct (step_effect c o Hwf) as (c1 & Hstep & Hwf1 & Heff & _).
    rewrite Hstep in Hrun. simpl in Hrun. specialize (IH c1 Hwf1 Hrun Hst).
    destruct (last_put ops k) as [value|]; [done|].
    destruct (Heff k) as [Heq|[(value & -> & Heq)|(key & value & -> & _ & Heq & _)]].
    + rewrite Heq in IH. destruct o as [key|key value]; [done|].
      case_decide; [|done]. subst key.
      destruct (put_effect c k value Hwf) as (c1' & Hput & _ & Hkey & _).
      simpl in Hstep. assert (c1' = c1) as -> by congruence. congruence.
    + rewrite decide_True; [|done]. congruence.
    + congruence.
Qed.

(** X5: A hit returns the value of the last [put] of the key. *)
Theorem get_returns_last_put capacity hir_ratio (c0 : LIRSCache K V) ops c key v c' :
  construct capacity hir_ratio = Constructed c0 → run ops c0 = Some c →
  get key c = Some (Some v, c') →
  last_put ops key = Some v.
Proof.
  intros Hc Hrun Hget.
  pose proof (construct_WF _ _ _ Hc) as Hwf0.
  pose proof (reachable_WF _ _ _ _ _ Hc Hrun) as Hwf.
  destruct (get_spec c key Hwf) as (r & c'' & Hget' & -> & _).
  assert (stored c key = Some v) as Hst by congruence.
  pose proof (run_last_put ops c0 c key v Hwf0 Hrun Hst) as Hlast.
  destruct (last_put ops key) as [value|]; [congruence|].
  destruct (construct_Constructed _ _ _ Hc) as (_ & _ & _ & _ & _ & _ & _ & _ & _ & _ & Hm).
  unfold stored, store_iter in Hlast. by rewrite Hm, lookup_empty in Hlast.
Qed.

(** X6: [get] right after [put] of the same key is a hit with the value put. *)
Theorem put_then_get capacity hir_ratio (c0 : LIRSCache K V) ops c key value :
  construct capacity hir_ratio = Constructed c0 → run ops c0 = Some c →
  ∃ c1 c2, put key value c = Some c1 ∧ get key c1 = Some (Some value, c2).
Proof.
  intros Hc Hrun. pose proof (reachable_WF _ _ _ _ _ Hc Hrun) as Hwf.
  destruct (put_spec c key value Hwf) as (c1 & Hput & Hwf1 & _ & Hst & _).
  destruct (get_spec c1 key Hwf1) as (r & c2 & Hget & -> & _).
  exists c1, c2. split; [done|]. by rewrite Hget, Hst.
Qed.

Lemma run_no_put ops c c' :
  WF c → run ops c = Some c' → put_keys ops = ∅ → cache_ c' = cache_ c.
Proof.
  revert c. induction ops as [|o ops IH]; intros c Hwf Hrun Hno; simpl in *.
  - by simplify_eq.
  - destruct o as [key|key value].
    + destruct (get_spec c key Hwf) as (r & c1 & Hget & _ & Hwf1 & Hs).
      simpl in Hrun. rewrite Hget in Hrun. simpl in Hrun.
      rewrite (IH c1 Hwf1 Hrun Hno). apply Hs.
    + exfalso. assert (key ∈ ({[key]} ∪ put_keys ops : gset K)) as Hin.
      { apply elem_of_union. left. by apply elem_of_singleton. }
      rewrite Hno in Hin. by apply not_elem_of_empty in Hin.
Qed.

Lemma run_put_size ops c c' :
  WF c → run ops c = Some c' → put_keys ops ≠ ∅ → 1 ≤ size c'.
Proof.
  revert c. induction ops as [|o ops IH]; intros c Hwf Hrun Hsome; simpl in *; [done|].
  destruct (step_effect c o Hwf) as (c1 & Hstep & Hwf1 & Heff & Hsz).
  rewrite Hstep in Hrun. simpl in Hrun.
  destruct o as [key|key value]; [by eapply IH|].
  destruct (put_effect c key value Hwf) as (c1' & Hput & _ & Hkey & _).
  simpl in Hstep. assert (c1' = c1) as -> by congruence.
  assert (1 ≤ size c1).
  { unfold stored in Hkey. destruct (store_iter (map_ c1) key) as [[d|]|]; simplify_eq/=.
    unfold size. destruct (cache_ c1); simpl in *; [done|lia]. }
  pose proof (run_size ops c1 c' Hwf1 Hrun). lia.
Qed.

(** X9: [empty()] is [size() == 0], and it holds exactly as long as nothing
    was put. *)
Theorem empty_iff_no_put capacity hir_ratio (c0 : LIRSCache K V) ops c :
  construct capacity hir_ratio = Constructed c0 → run ops c0 = Some c →
  (empty c = true ↔ size c = 0) ∧ (empty c = true ↔ put_keys ops = ∅).
Proof.
  intros Hc Hrun. pose proof (construct_WF _ _ _ Hc) as Hwf0.
  destruct (construct_Constructed _ _ _ Hc) as (_ & _ & _ & _ & _ & _ & _ & Hcache & _).
  assert (empty c = true ↔ size c = 0) as Hes.
  { unfold empty, size. rewrite bool_decide_eq_true.
    destruct (cache_ c); simpl; split; (done || lia). }
  split; [done|]. rewrite Hes. split.
  - intros Hsz. destruct (decide (put_keys ops = ∅)) as [|Hne]; [done|].
    pose proof (run_put_size ops c0 c Hwf0 Hrun Hne). lia.
  - intros Hno. unfold size. by rewrite (run_no_put ops c0 c Hwf0 Hrun Hno), Hcache.
Qed.

(** X10: [capacity()] is the argument of the constructor, and the two
    derived capacities stay what the constructor made them. *)
Theorem capacity_constant capacity hir_ratio (c0 : LIRSCache K V) ops c :
  construct capacity hir_ratio = Constructed c0 → run ops c0 = Some c →
  LIRS.capacity c = capacity ∧
  hir_capacity_ c = hir_capacity_ c0 ∧ lir_capacity_ c = lir_capacity_ c0 ∧
  1 ≤ hir_capacity_ c ∧ lir_capacity_ c = SizeT.sub capacity (hir_capacity_ c).
Proof.
  intros Hc Hrun. pose proof (construct_WF _ _ _ Hc) as Hwf0.
  destruct (run_spec ops c0 Hwf0) as (c' & Hrun' & _ & Hcap & Hhir & Hlir).
  assert (c' = c) as -> by congruence.
  destruct (construct_Constructed _ _ _ Hc) as (_ & _ & _ & Hcap0 & Hh & Hl & _).
  unfold LIRS.capacity. rewrite Hcap, Hhir, Hlir. by split_and!.
Qed.
End Values.

(** * Admission of new keys *)

Section Admission.
Context `{Countable K} {V : Type}.
Implicit Types (c : LIRSCache K V) (m : gmap K Entry) (key k : K) (e : Entry).

Lemma pop_back_keys {A} (l : NodeList A) : (pop_back l).*2 = removelast l.*2.
Proof.
  unfold pop_back. induction l as [|[i x] l IH]; [done|]. simpl.
  destruct l as [|[j y] l]; [done|]. simpl in *. f_equal. exact IH.
Qed.

Lemma put_new_effect c key value :
  WF c → map_ c !! key = None →
  ∃ c', put key value c = Some c' ∧ WF c' ∧ S_keys c' = key :: S_keys c ∧
    (∀ k, k ≠ key → lir c' k = lir c k) ∧
    (∀ k, k ≠ key → map_ c !! k = None → map_ c' !! k = None) ∧
    (∀ k, lir c k = true → stored c' k = stored c k) ∧
    if lir_count_ c <? lir_capacity_ c
    then lir c' key = true ∧ Q_keys c' = Q_keys c ∧ size c' = size c + 1
    else lir c' key = false ∧ Q_keys c' = key :: removelast (Q_keys c) ∧
         size c' = size c + (if decide (Q_keys c = []) then 1 else 0).
Proof.
  intros Hwf He. unfold put. rewrite He, insert_new_eq.
  destruct (lir_count_ c <? lir_capacity_ c) eqn:Hwarm.
  - destruct (admitted_lir_WF c key value Hwf He) as [Hwf' Hst].
    exists (admitted_lir c key value). split_and!; try done.
    + intros k Hk. unfold lir. simpl. by rewrite lookup_insert_ne.
    + intros k Hk Hn. simpl. by rewrite lookup_insert_ne.
    + intros k Hk. apply (stored_push_front c _ k (key, value)); [done..|]. simpl.
      rewrite lookup_insert_ne; [done|]. intros ->. unfold lir in Hk. by rewrite He in Hk.
    + unfold lir. simpl. by rewrite lookup_insert_eq.
    + by apply (size_push_front c _ (key, value)).
  - destruct (evict_hir_resident_effect c Hwf)
      as (c1 & Hev & Hwf1 & _ & _ & HS1 & HQ1 & _ & Hst1 & Hm1 & Hlir1 & Hsz1 & Hvic).
    pose proof (evict_hir_resident_absent _ _ _ Hwf Hev He) as He1.
    destruct (admitted_hir_WF c1 key value Hwf1 He1) as [Hwf' Hst].
    rewrite Hev. simpl. exists (admitted_hir c1 key value). split_and!; try done.
    + unfold S_keys. simpl. by rewrite HS1.
    + intros k Hk. unfold lir at 1. simpl. rewrite lookup_insert_ne; [|done]. apply Hlir1.
    + intros k Hk Hn. simpl. rewrite lookup_insert_ne; [|done].
      by apply (evict_hir_resident_absent c).
    + intros k Hk.
      assert (k ≠ key) by (intros ->; unfold lir in Hk; by rewrite He in Hk).
      rewrite (stored_push_front c1 (admitted_hir c1 key value) k (key, value));
        [|done|done|simpl; by rewrite lookup_insert_ne].
      rewrite Hst1. destruct (decide (back (hir_stack_ c) = Some k)) as [Hb|]; [|done].
      destruct (Hvic _ Hb) as (e & Hek & HLIR & _). unfold lir in Hk. rewrite Hek in Hk.
      simpl in Hk. congruence.
    + unfold lir. simpl. by rewrite lookup_insert_eq.
    + unfold Q_keys. simpl. by rewrite HQ1, pop_back_keys.
    + rewrite (size_push_front c1 _ (key, value)); [|done]. rewrite Hsz1.
      unfold Q_keys. destruct (hir_stack_ c); simpl; repeat case_decide; try done; lia.
Qed.

(** X15: A key that has no entry goes on top of S, and S keeps all it had.
    The key is admitted LIR while the LIR set has room; after that it
    is admitted HIR and takes the place of the bottom of Q.  No other
    key changes class. *)
Theorem put_new_key capacity hir_ratio (c0 : LIRSCache K V) ops c key value :
  construct capacity hir_ratio = Constructed c0 → run ops c0 = Some c →
  map_ c !! key = None →
  ∃ c', put key value c = Some c' ∧ S_keys c' = key :: S_keys c ∧
    (∀ k, k ≠ key → lir c' k = lir c k) ∧
    if lir_count_ c <? lir_capacity_ c
    then lir c' key = true ∧ Q_keys c' = Q_keys c ∧ size c' = size c + 1
    else lir c' key = false ∧ Q_keys c' = key :: removelast (Q_keys c) ∧
         size c' = size c + (if decide (Q_keys c = []) then 1 else 0).
Proof.
  intros Hc Hrun He. pose proof (reachable_WF _ _ _ _ _ Hc Hrun) as Hwf.
  destruct (put_new_effect c key value Hwf He) as (c' & ? & _ & ? & ? & _ & _ & ?).
  by exists c'.
Qed.

Lemma run_scan (scan : list (K * V)) c :
  WF c → NoDup scan.*1 → (∀ k, k ∈ scan.*1 → map_ c !! k = None) →
  ∃ c', run ((λ kv, Put kv.1 kv.2) <$> scan) c = Some c' ∧
    S_keys c' = reverse scan.*1 ++ S_keys c ∧
    ∀ k, lir c k = true → lir c' k = true ∧ stored c' k = stored c k.
Proof.
  revert c. induction scan as [|[key value] scan IH]; intros c Hwf Hnd Hnew; simpl.
  - exists c. by split_and!.
  - simpl in Hnd. apply NoDup_cons in Hnd as [Hnotin Hnd].
    assert (map_ c !! key = None) as He by (apply Hnew; simpl; by left).
    destruct (put_new_effect c key value Hwf He)
      as (c1 & Hput & Hwf1 & HS1 & Hlir1 & Hnone1 & Hst1 & _).
    rewrite Hput. simpl.
    destruct (IH c1 Hwf1 Hnd) as (c' & Hrun & HS' & Hkeep).
    { intros k Hk. apply Hnone1; [by intros ->|]. apply Hnew. simpl. by right. }
    exists c'. split_and!; try done.
    + rewrite HS', HS1, reverse_cons, <- app_assoc. done.
    + intros k Hk.
      assert (k ≠ key) by (intros ->; unfold lir in Hk; by rewrite He in Hk).
      destruct (Hkeep k) as [? Hst']; [by rewrite Hlir1|].
      split; [done|]. rewrite Hst'. by apply Hst1.
Qed.

(** X23: A scan of keys that have no entry, each put once, leaves every LIR
    key LIR with its value, and adds every key of the scan to S. *)
Theorem scan_keeps_lir capacity hir_ratio (c0 : LIRSCache K V) ops c (scan : list (K * V)) :
  construct capacity hir_ratio = Constructed c0 → run ops c0 = Some c →
  NoDup scan.*1 → (∀ k, k ∈ scan.*1 → map_ c !! k = None) →
  ∃ c', run ((λ kv, Put kv.1 kv.2) <$> scan) c = Some c' ∧
    S_keys c' = reverse scan.*1 ++ S_keys c ∧
    ∀ k, lir c k = true → lir c' k = true ∧ stored c' k = stored c k.
Proof.
  intros Hc Hrun. apply run_scan. by eapply reachable_WF.
Qed.
End Admission.

(** * The access cases *)

Section AccessCases.
Context `{Countable K} {V : Type}.
Implicit Types (c : LIRSCache K V) (m : gmap K Entry) (key k : K) (e : Entry).

Lemma reachable_bounded capacity hir_ratio (c0 : LIRSCache K V) ops c :
  construct capacity hir_ratio = Constructed c0 →
  capacity < SizeT.modulus → hir_capacity_ c0 < capacity →
  run ops c0 = Some c → WF c ∧ bounded c.
Proof.
  intros Hc Hcap Hhir Hrun.
  destruct (run_bounded ops c0) as (c' & Hrun' & ? & ? & _).
  - by eapply construct_WF.
  - by eapply construct_bounded.
  - assert (c' = c) as -> by congruence. done.
Qed.

Lemma stack_pruning_lir c k : WF c → lir (stack_pruning c) k = lir c k.
Proof.
  intros Hwf.
  destruct (stack_pruning_spec _ Hwf) as (popped & rest & m' & -> & _ & _ & _ & Hlir & _).
  unfold lir. simpl. apply Hlir.
Qed.

Lemma not_in_S c k e :
  WF c → map_ c !! k = Some e → in_lirs_stack e = false → k ∉ S_keys c.
Proof.
  intros [[HS _ _] _] He HinS Hin.
  apply (linked_flag_elem_of _ _ _ _ _ _ _ HS He) in Hin. congruence.
Qed.

(** The promotion of [key] while the bottom of S is LIR: [key] becomes
    LIR and the bottom key becomes HIR, leaves S and enters Q. *)
Lemma promote_to_lir_class c key e bottom :
  links c → flags (delete key (map_ c)) → map_ c !! key = Some e →
  is_LIR e = false → is_resident e = true → in_lirs_stack e = true →
  back (lirs_stack_ c) = Some bottom → lir c bottom = true →
  0 ≤ lir_count_ c → lir_count_ c + 1 < SizeT.modulus →
  ∃ c', promote_to_lir key c = Some c' ∧ WF c' ∧ same_store c c' ∧
        (∀ k, lir c' k = if decide (k = key) then true
                         else if decide (k = bottom) then false else lir c k) ∧
        head (S_keys c') = Some key ∧ (bottom ∉ S_keys c') ∧
        Q_keys c' = bottom :: (without_key c key e).*2 ∧
        lir_count_ c' = lir_count_ c.
Proof.
  intros Hl Hf He HLIR Hr HinS Hb Hlirb Hc0 Hc1.
  destruct (linked_node _ _ _ _ _ _ _ (links_S _ Hl) He HinS) as (i & Hi & Hnode).
  destruct (lir_lookup _ _ Hlirb) as (eb & Heb & HLIRb).
  assert (key ≠ bottom) as Hne by (intros ->; congruence).
  set (c1 := promoted c key e i (without_key c key e)).
  destruct (promoted_WF c key e i) as [Hwf1 _]; try done. fold c1 in Hwf1.
  assert (back (lirs_stack_ c1) = Some bottom) as Hb1.
  { simpl. apply back_cons. by eapply back_erase_ne. }
  assert (map_ c1 !! bottom = Some eb) as Heb1.
  { simpl. by rewrite lookup_insert_ne. }
  set (c2 := demoted c1 bottom eb).
  destruct (demoted_WF c1 bottom eb) as [Hwf2 _]; try done. fold c2 in Hwf2.
  destruct (promote_to_lir_spec c key e) as (c' & Hp & Hwf' & Hs' & Htop); try done.
  destruct (promote_to_lir_bounded c key e bottom)
    as (c'' & Hp' & Hcnt & _ & HQ' & _ & HSne); try done.
  assert (c'' = c') as -> by congruence.
  assert (c' = stack_pruning c2) as Hc'.
  { rewrite (promote_to_lir_eq c key e i) in Hp; try done. fold c1 in Hp.
    rewrite (demote_bottom_lir_eq c1 bottom eb Hb1 Heb1), HLIRb in Hp. by simplify_eq. }
  exists c'. split_and!; try done.
  - intros k. rewrite Hc', stack_pruning_lir by done. unfold lir. simpl.
    destruct (decide (k = bottom)) as [->|Hkb].
    + rewrite lookup_insert_eq. simpl. by rewrite decide_False.
    + rewrite lookup_insert_ne by done. destruct (decide (k = key)) as [->|Hkk].
      * by rewrite lookup_insert_eq.
      * by rewrite lookup_insert_ne.
  - unfold S_keys. destruct (lirs_stack_ c') as [|[j k] l] eqn:HS; [done|]. simpl.
    f_equal. by apply (Htop (j, k)).
  - intros Hin. assert (bottom ∈ S_keys c2) as Hin2.
    { pose proof (stack_pruning_prefix c2 Hwf2) as [tail Htail].
      unfold S_keys in *. rewrite Htail, fmap_app, elem_of_app. left. by rewrite <- Hc'. }
    revert Hin2. eapply not_in_S; [done| |]; simpl; [by rewrite lookup_insert_eq|done].
  - unfold Q_keys. by rewrite HQ'.
Qed.

Lemma get_resident_eq c key e c' :
  WF c → map_ c !! key = Some e → is_resident e = true →
  (if is_LIR e then access_lir key c else access_hir_resident key c) = Some c' →
  same_store c c' →
  ∃ v, get key c = Some (Some v, c') ∧ stored c key = Some v.
Proof.
  intros Hwf He Hres Hacc Hs'.
  destruct (resident_value _ _ _ Hwf He Hres) as (d & v & Hd & Hnd & Hst).
  exists v. split; [|done].
  unfold get. rewrite He, Hres. simpl. rewrite Hacc. simpl.
  pose proof (same_store_stored _ _ key Hs') as Hst'. rewrite Hst in Hst'.
  destruct (map_ c' !! key) as [e'|] eqn:He';
    [|by unfold stored, store_iter in Hst'; rewrite He' in Hst'].
  simpl. pose proof (stored_deref _ _ _ _ He' Hst') as Hde.
  destruct (deref (data_iter e') (cache_ c')) as [kv|]; simplify_eq/=. done.
Qed.

Lemma filter_ne_id (l : list K) key : key ∉ l → filter (λ k, k ≠ key) l = l.
Proof.
  induction l as [|k l IH]; [done|]. intros Hnotin.
  apply not_elem_of_cons in Hnotin as [Hne Hnotin].
  rewrite filter_cons_True by done. by rewrite IH.
Qed.

Lemma erase_node_keys (l : NodeList K) i key :
  NoDup l.*2 → node_at i l = Some key →
  (erase_node i l).*2 = filter (λ k, k ≠ key) l.*2.
Proof.
  intros Hnd Hnode.
  destruct (node_at_split _ _ _ Hnode) as (l1 & l2 & -> & _ & -> & _).
  rewrite !fmap_app, fmap_cons in *. simpl in *.
  apply NoDup_app in Hnd as (_ & Hdisj & Hnd2). apply NoDup_cons in Hnd2 as [Hk2 _].
  rewrite filter_app, filter_cons_False by (intros Hk; by apply Hk).
  rewrite !filter_ne_id; [done|done|]. intros Hin. apply (Hdisj _ Hin). by left.
Qed.


(** X18: Case 2b, on every engine: a hit on a resident key that is not in S
    puts the key on top of S and of Q; it stays HIR. *)
Theorem get_hir_outside_S capacity hir_ratio (c0 : LIRSCache K V) ops c key :
  construct capacity hir_ratio = Constructed c0 → run ops c0 = Some c →
  resident c key = true → key ∉ S_keys c →
  ∃ v c', get key c = Some (Some v, c') ∧ stored c key = Some v ∧
    S_keys c' = key :: S_keys c ∧
    Q_keys c' = key :: filter (λ k, k ≠ key) (Q_keys c) ∧
    (∀ k, lir c' k = lir c k) ∧ lir c key = false ∧ lir_count_ c' = lir_count_ c.
Proof.
  intros Hc Hrun Hres HnS. pose proof (reachable_WF _ _ _ _ _ Hc Hrun) as Hwf.
  unfold resident in Hres. destruct (map_ c !! key) as [e|] eqn:He; simpl in Hres; [|done].
  assert (in_lirs_stack e = false) as HinS.
  { destruct (in_lirs_stack e) eqn:HinS; [|done]. exfalso. apply HnS. by eapply in_S_elem. }
  assert (is_LIR e = false) as HLIR.
  { destruct (is_LIR e) eqn:HL; [|done].
    destruct (flags_ok_LIR _ (flags_lookup _ _ _ (proj2 Hwf) He) HL) as (_ & ? & _). congruence. }
  destruct (flags_ok_HIR _ (flags_lookup _ _ _ (proj2 Hwf) He) HLIR) as [HrQ _].
  assert (in_hir_stack e = true) as HinQ by congruence.
  destruct (linked_node _ _ _ _ _ _ _ (links_Q _ (proj1 Hwf)) He HinQ) as (j & Hj & Hnode).
  destruct (refreshed_WF c key e j) as [Hwf' Hs']; try done.
  assert (access_hir_resident key c = Some (refreshed c key e j)) as Hacc.
  { apply access_hir_resident_eq_refresh; try done. }
  destruct (get_resident_eq c key e (refreshed c key e j) Hwf He Hres) as (v & Hget & Hst);
    try done.
  { by rewrite HLIR. }
  exists v, (refreshed c key e j). split_and!; try done.
  - unfold Q_keys. simpl. f_equal. apply erase_node_keys; [|done].
    apply (linked_keys _ _ _ _ _ (links_Q _ (proj1 Hwf))).
  - intros k. unfold lir. simpl. destruct (decide (k = key)) as [->|Hk].
    + by rewrite lookup_insert_eq, He.
    + by rewrite lookup_insert_ne.
  - unfold lir. by rewrite He.
Qed.

(** X17: Case 2a: a hit on a resident HIR key that is in S makes the key
    LIR and puts it on top of S; the LIR key at the bottom of S becomes
    HIR, leaves S and is then the one key of Q. *)
Theorem get_promotes capacity hir_ratio (c0 : LIRSCache K V) ops c key :
  construct capacity hir_ratio = Constructed c0 →
  capacity < SizeT.modulus → hir_capacity_ c0 < capacity →
  run ops c0 = Some c →
  resident c key = true → lir c key = false → key ∈ S_keys c →
  ∃ v c' bottom, get key c = Some (Some v, c') ∧ stored c key = Some v ∧
    back (lirs_stack_ c) = Some bottom ∧ lir c bottom = true ∧
    (∀ k, lir c' k = if decide (k = key) then true
                     else if decide (k = bottom) then false else lir c k) ∧
    head (S_keys c') = Some key ∧ (bottom ∉ S_keys c') ∧
    Q_keys c = [key] ∧ Q_keys c' = [bottom] ∧ resident c' bottom = true ∧
    lir_count_ c' = lir_count_ c.
Proof.
  intros Hc Hcap Hhir Hrun Hres Hlir HinS.
  destruct (reachable_bounded _ _ _ _ _ Hc Hcap Hhir Hrun) as [Hwf Hb].
  pose proof Hwf as [Hl Hf].
  unfold resident in Hres. destruct (map_ c !! key) as [e|] eqn:He; simpl in Hres; [|done].
  assert (is_LIR e = false) as HLIR by (unfold lir in Hlir; by rewrite He in Hlir).
  assert (in_lirs_stack e = true) as HinS'.
  { by apply (linked_flag_elem_of _ _ _ _ _ _ _ (links_S _ Hl) He). }
  destruct (bounded_steady _ _ _ Hb He HLIR) as [Hfull HSne].
  pose proof (bounded_config _ Hb) as Hcfg. pose proof (bounded_count _ Hb) as Hcnt.
  destruct (flags_ok_HIR _ (flags_lookup _ _ _ Hf He) HLIR) as [HrQ _].
  assert (in_hir_stack e = true) as HinQ by congruence.
  destruct (singleton_Q _ _ _ Hwf Hb He HinQ) as (j & Hj & HQ).
  destruct (back (lirs_stack_ c)) as [bottom|] eqn:Hbk; [|by apply back_None in Hbk].
  pose proof (bounded_bottom _ Hb _ Hbk) as Hlb.
  destruct (promote_to_lir_class c key e bottom)
    as (c' & Hp & Hwf' & Hs' & Hcls & Hhd & Hnb & HQ' & Hcnt'); try done;
    [by apply flags_delete|lia|lia|].
  destruct (get_resident_eq c key e c' Hwf He Hres) as (v & Hget & Hst); try done.
  { rewrite HLIR. unfold access_hir_resident. rewrite He. simpl. by rewrite HinS'. }
  exists v, c', bottom. split_and!; try done.
  - unfold Q_keys. by rewrite HQ.
  - rewrite HQ'. unfold without_key. rewrite HinQ, Hj, HQ. simpl. by rewrite decide_True.
  - rewrite (same_store_resident _ _ _ Hs').
    destruct (lir_lookup _ _ Hlb) as (eb & Heb & HLb).
    destruct (flags_ok_LIR _ (flags_lookup _ _ _ Hf Heb) HLb) as (? & _).
    unfold resident. by rewrite Heb.
Qed.
End AccessCases.

(** * Counters and recency on engines with a positive LIR capacity *)

Section Slots.
Context `{Countable K} {V : Type}.
Implicit Types (c : LIRSCache K V) (m : gmap K Entry) (key k : K) (e : Entry).

(** X19: Case 3a: a [put] of a ghost evicts the key of Q, loads the value and
    promotes the ghost, which is always in S: it becomes LIR on top of
    S, and the LIR key at the bottom of S becomes the one key of Q. *)
Theorem put_ghost_promotes capacity hir_ratio (c0 : LIRSCache K V) ops c key value :
  construct capacity hir_ratio = Constructed c0 →
  capacity < SizeT.modulus → hir_capacity_ c0 < capacity →
  run ops c0 = Some c →
  is_Some (map_ c !! key) → resident c key = false →
  ∃ c' bottom, put key value c = Some c' ∧ stored c' key = Some value ∧
    key ∈ S_keys c ∧ back (lirs_stack_ c) = Some bottom ∧ lir c bottom = true ∧
    (∀ k, lir c' k = if decide (k = key) then true
                     else if decide (k = bottom) then false else lir c k) ∧
    head (S_keys c') = Some key ∧ (bottom ∉ S_keys c') ∧ Q_keys c' = [bottom] ∧
    (∀ k, k ∈ Q_keys c → resident c' k = false) ∧
    lir_count_ c' = lir_count_ c.
Proof.
  intros Hc Hcap Hhir Hrun [e He] Hres.
  destruct (reachable_bounded _ _ _ _ _ Hc Hcap Hhir Hrun) as [Hwf Hb].
  pose proof Hwf as [Hl Hf].
  assert (is_resident e = false) as Hr by (unfold resident in Hres; by rewrite He in Hres).
  assert (is_LIR e = false) as HLIR.
  { destruct (is_LIR e) eqn:HL; [|done].
    destruct (flags_ok_LIR _ (flags_lookup _ _ _ Hf He) HL) as (? & _); congruence. }
  destruct (flags_ok_HIR _ (flags_lookup _ _ _ Hf He) HLIR) as [HrQ [HinS|HinQ]];
    [|congruence].
  destruct (bounded_steady _ _ _ Hb He HLIR) as [Hfull HSne].
  pose proof (bounded_config _ Hb) as Hcfg. pose proof (bounded_count _ Hb) as Hcnt.
  destruct (back (lirs_stack_ c)) as [bottom|] eqn:Hbk; [|by apply back_None in Hbk].
  pose proof (bounded_bottom _ Hb _ Hbk) as Hlb.
  assert (key ≠ bottom) as Hne.
  { intros ->. unfold lir in Hlb. rewrite He in Hlb. simpl in Hlb. congruence. }
  destruct (evict_hir_resident_bounded c Hwf Hb)
    as (c1 & Hev & Hwf1 & HQ1 & HS1 & Hcnt1 & Hcfg1 & _ & Hlir1 & Hkeep & _).
  pose proof (Hkeep _ _ He Hr) as He1.
  destruct (loaded_links c1 key value e Hwf1 He1 Hr) as (Hl2 & Hf2 & Hcfg2 & Hst2).
  set (e' := set_is_resident true (set_data_iter (Some (next_node_ c1)) e)).
  destruct (promote_to_lir_class (loaded c1 key value e) key e' bottom)
    as (c' & Hp & Hwf' & Hs' & Hcls & Hhd & Hnb & HQ' & Hcnt'); try done.
  { simpl. by rewrite lookup_insert_eq. }
  { simpl. by rewrite HS1. }
  { unfold lir. simpl. rewrite lookup_insert_ne by done.
    fold (lir c1 bottom). by rewrite Hlir1. }
  { simpl. lia. }
  { simpl. lia. }
  assert (put key value c = Some c') as Hput.
  { unfold put. rewrite He, HLIR, Hr.
    unfold access_hir_non_resident, upd_entry. rewrite Hev. simpl. rewrite He1. simpl.
    rewrite lookup_insert_eq. simpl. rewrite HinS. exact Hp. }
  exists c', bottom. split_and!; try done.
  - by rewrite (same_store_stored _ _ _ Hs').
  - by eapply in_S_elem.
  - intros k. rewrite Hcls. repeat case_decide; try done.
    unfold lir at 1. simpl. rewrite lookup_insert_ne by done. apply Hlir1.
  - rewrite HQ'. unfold without_key. simpl. rewrite HrQ in Hr. rewrite Hr. simpl.
    by rewrite HQ1.
  - intros k Hk.
    destruct (evict_hir_resident_effect c Hwf)
      as (c1' & Hev' & _ & _ & _ & _ & _ & _ & Hst1 & _).
    assert (c1' = c1) as -> by congruence.
    assert (back (hir_stack_ c) = Some k) as Hbq.
    { pose proof (bounded_Q _ Hb) as Hlen. unfold Q_keys in Hk.
      destruct (hir_stack_ c) as [|[j k'] [|? ?]]; simpl in *; [by apply elem_of_nil in Hk| |lia].
      apply list_elem_of_singleton in Hk. by subst. }
    assert (k ≠ key) as Hkk.
    { intros ->. destruct (evict_victim _ _ Hwf Hbq) as (ev & _ & Hev2 & _ & ? & _). congruence. }
    assert (stored c' k = None) as Hnone.
    { rewrite (same_store_stored _ _ _ Hs').
      rewrite (stored_push_front c1 (loaded c1 key value e) k (key, value)); try done.
      - rewrite Hst1. by rewrite decide_True.
      - simpl. by rewrite lookup_insert_ne. }
    destruct (resident c' k) eqn:Hrk; [|done].
    destruct (resident_stored c' k Hwf' Hrk) as [? ?]. congruence.
  - rewrite Hcnt'. simpl. done.
Qed.

Lemma bounded_nonempty c : bounded c → cache_ c ≠ [] → lirs_stack_ c ≠ [].
Proof.
  intros Hb Hne HS. pose proof (bounded_S _ Hb HS) as Hcnt.
  pose proof (bounded_config _ Hb) as Hcfg.
  destruct (bounded_warm _ Hb) as [HQ _]; [lia|].
  pose proof (bounded_size _ Hb) as Hsz. rewrite HQ, Hcnt in Hsz. simpl in Hsz.
  destruct (cache_ c); simpl in *; [done|lia].
Qed.

Lemma top_is_head c key : top_is (lirs_stack_ c) key → lirs_stack_ c ≠ [] →
  head (S_keys c) = Some key.
Proof.
  intros Htop Hne. unfold S_keys. destruct (lirs_stack_ c) as [|[j k] l]; [done|]. simpl.
  f_equal. by apply (Htop (j, k)).
Qed.

Lemma stored_nonempty c key v : stored c key = Some v → cache_ c ≠ [].
Proof.
  unfold stored. destruct (store_iter (map_ c) key) as [[d|]|]; simpl; try done.
  by destruct (cache_ c).
Qed.

(** X20: The key of a [put], and the key of a [get] that hits, is on top of
    S when the operation returns. *)
Theorem accessed_key_on_top capacity hir_ratio (c0 : LIRSCache K V) ops c key :
  construct capacity hir_ratio = Constructed c0 →
  capacity < SizeT.modulus → hir_capacity_ c0 < capacity →
  run ops c0 = Some c →
  (∀ value, ∃ c', put key value c = Some c' ∧ head (S_keys c') = Some key) ∧
  (resident c key = true →
   ∃ v c', get key c = Some (Some v, c') ∧ head (S_keys c') = Some key).
Proof.
  intros Hc Hcap Hhir Hrun.
  destruct (reachable_bounded _ _ _ _ _ Hc Hcap Hhir Hrun) as [Hwf Hb]. split.
  - intros value.
    destruct (put_spec c key value Hwf) as (c' & Hput & Hwf' & _ & Hst & Htop).
    destruct (put_bounded c key value Hwf Hb) as (c'' & Hput' & Hb' & _).
    assert (c'' = c') as -> by congruence.
    exists c'. split; [done|]. apply top_is_head; [done|].
    apply bounded_nonempty; [done|]. by eapply stored_nonempty.
  - intros Hres. unfold resident in Hres.
    destruct (map_ c !! key) as [e|] eqn:He; simpl in Hres; [|done].
    assert (∃ c', (if is_LIR e then access_lir key c else access_hir_resident key c) = Some c'
                  ∧ WF c' ∧ same_store c c' ∧ top_is (lirs_stack_ c') key)
      as (c' & Hacc & Hwf' & Hs' & Htop).
    { destruct (is_LIR e) eqn:HLIR.
      - destruct (flags_ok_LIR _ (flags_lookup _ _ _ (proj2 Hwf) He) HLIR) as (_ & HinS & _).
        destruct (access_lir_spec c key e) as (c' & ? & ? & ? & ? & _); eauto.
      - destruct (access_hir_resident_spec c key e) as (c' & ? & ? & ? & ?); eauto. }
    destruct (get_resident_eq c key e c' Hwf He Hres Hacc Hs') as (v & Hget & Hst).
    destruct (get_bounded c key Hwf Hb) as (r & c'' & Hget' & Hb' & _).
    assert (c'' = c') as -> by congruence.
    exists v, c'. split; [done|]. apply top_is_head; [done|].
    apply bounded_nonempty; [done|].
    destruct Hs' as (_ & -> & _). by eapply stored_nonempty.
Qed.

(** X13: Q never holds more than one key: whatever the ratio, the engine
    keeps at most one resident HIR entry, and [size()] stays within the
    LIR capacity plus one. *)
Theorem single_hir_slot capacity hir_ratio (c0 : LIRSCache K V) ops c :
  construct capacity hir_ratio = Constructed c0 →
  capacity < SizeT.modulus → hir_capacity_ c0 < capacity →
  run ops c0 = Some c →
  (length (Q_keys c) ≤ 1)%nat ∧
  size c = lir_count_ c + Z.of_nat (length (Q_keys c)) ∧
  size c ≤ capacity - hir_capacity_ c0 + 1 ∧
  (2 ≤ hir_capacity_ c0 → size c < LIRS.capacity c).
Proof.
  intros Hc Hcap Hhir Hrun.
  destruct (reachable_bounded _ _ _ _ _ Hc Hcap Hhir Hrun) as [Hwf Hb].
  pose proof (construct_WF _ _ _ Hc) as Hwf0.
  destruct (run_spec ops c0 Hwf0) as (c' & Hrun' & _ & Hc1 & Hc2 & Hc3).
  assert (c' = c) as -> by congruence.
  destruct (construct_Constructed _ _ _ Hc) as (Hne & _ & _ & Hcap0 & Hh & Hl & _).
  pose proof (bounded_Q _ Hb) as HQ. pose proof (bounded_size _ Hb) as Hsz.
  pose proof (bounded_count _ Hb) as Hcnt. pose proof (bounded_config _ Hb) as Hcfg.
  assert (lir_capacity_ c = capacity - hir_capacity_ c0) as Hlc.
  { rewrite Hc3, Hl. unfold SizeT.sub, SizeT.wrap. apply Z.mod_small.
    unfold SizeT.modulus in *. lia. }
  unfold Q_keys, size, LIRS.capacity. rewrite length_fmap, Hc1, Hcap0. split_and!; lia.
Qed.

(** X14: [lir_count_] is the number of LIR keys. *)
Theorem lir_count_accurate capacity hir_ratio (c0 : LIRSCache K V) ops c :
  construct capacity hir_ratio = Constructed c0 →
  capacity < SizeT.modulus → hir_capacity_ c0 < capacity →
  run ops c0 = Some c →
  ∃ lirs : list K, NoDup lirs ∧ (∀ k, k ∈ lirs ↔ lir c k = true) ∧
                   lir_count_ c = Z.of_nat (length lirs).
Proof.
  intros Hc Hcap Hhir Hrun.
  destruct (reachable_bounded _ _ _ _ _ Hc Hcap Hhir Hrun) as [Hwf Hb].
  pose proof Hwf as [[HS HQ HC] Hf].
  assert (NoDup (cache_keys c)) as HndC.
  { unfold cache_keys. rewrite <- keyed_keys. apply (linked_keys _ _ _ _ _ HC). }
  assert (∀ k, k ∈ cache_keys c ↔ resident c k = true) as HinC.
  { intros k. unfold cache_keys, resident. rewrite <- keyed_keys. split.
    - intros Hin. destruct (linked_dom _ _ _ _ _ HC _ Hin) as [e He]. rewrite He. simpl.
      by apply (linked_flag_elem_of _ _ _ _ _ _ _ HC He).
    - destruct (map_ c !! k) as [e|] eqn:He; simpl; [|done].
      by apply (linked_flag_elem_of _ _ _ _ _ _ _ HC He). }
  exists (filter (λ k, lir c k = true) (cache_keys c)). split_and!.
  - by apply NoDup_filter.
  - intros k. rewrite list_elem_of_filter, HinC. split; [by intros [? _]|].
    intros Hl. split; [done|]. destruct (lir_lookup _ _ Hl) as (e & He & HL).
    destruct (flags_ok_LIR _ (flags_lookup _ _ _ Hf He) HL) as (? & _).
    unfold resident. by rewrite He.
  - assert (filter (λ k, ¬ lir c k = true) (cache_keys c) ≡ₚ Q_keys c) as Hperm.
    { apply NoDup_Permutation; [by apply NoDup_filter|apply (linked_keys _ _ _ _ _ HQ)|].
      intros k. rewrite list_elem_of_filter, HinC. unfold resident, lir, Q_keys. split.
      - intros [Hnl Hr]. destruct (map_ c !! k) as [e|] eqn:He; simpl in *; [|done].
        apply (linked_flag_elem_of _ _ _ _ _ _ _ HQ He).
        destruct (is_LIR e) eqn:HL; [done|].
        destruct (flags_ok_HIR _ (flags_lookup _ _ _ Hf He) HL) as [? _]. congruence.
      - intros Hin. destruct (linked_dom _ _ _ _ _ HQ _ Hin) as [e He]. rewrite He. simpl.
        apply (linked_flag_elem_of _ _ _ _ _ _ _ HQ He) in Hin.
        destruct (is_LIR e) eqn:HL.
        + destruct (flags_ok_LIR _ (flags_lookup _ _ _ Hf He) HL) as (_ & _ & ?). congruence.
        + destruct (flags_ok_HIR _ (flags_lookup _ _ _ Hf He) HL) as [? _].
          split; [done|congruence]. }
    pose proof (filter_app_complement (λ k, lir c k = true) (cache_keys c)) as Hall.
    apply Permutation_length in Hall. rewrite length_app in Hall.
    apply Permutation_length in Hperm. rewrite Hperm in Hall.
    pose proof (bounded_size _ Hb) as Hsz.
    assert (length (cache_keys c) = length (cache_ c)) as HlenC.
    { unfold cache_keys. by rewrite !length_fmap. }
    assert (length (Q_keys c) = length (hir_stack_ c)) as HlenQ.
    { unfold Q_keys. by rewrite length_fmap. }
    lia.
Qed.
End Slots.

(** * The entry table against the three lists *)

Section Table.
Context `{Countable K} {V : Type}.
Implicit Types (c : LIRSCache K V) (m : gmap K Entry) (key k : K) (e : Entry).

(** X11: The block states of the header comment: an LIR key is resident, in
    S and not in Q; Q holds exactly the resident HIR keys; the value
    list holds exactly the resident keys, each once; the table has an
    entry exactly for the keys of S and Q, so that a ghost is in S. *)
Theorem block_states capacity hir_ratio (c0 : LIRSCache K V) ops c key :
  construct capacity hir_ratio = Constructed c0 → run ops c0 = Some c →
  (lir c key = true → resident c key = true ∧ key ∈ S_keys c ∧ key ∉ Q_keys c) ∧
  (key ∈ Q_keys c ↔ resident c key = true ∧ lir c key = false) ∧
  (key ∈ cache_keys c ↔ resident c key = true) ∧
  (is_Some (map_ c !! key) ↔ key ∈ S_keys c ∨ key ∈ Q_keys c) ∧
  NoDup (cache_keys c).
Proof.
  intros Hc Hrun. pose proof (reachable_WF _ _ _ _ _ Hc Hrun) as Hwf.
  pose proof Hwf as [[HS HQ HC] Hf]. unfold lir, resident, S_keys, Q_keys, cache_keys.
  rewrite <- keyed_keys. split_and!.
  - destruct (map_ c !! key) as [e|] eqn:He; simpl; [|done]. intros HL.
    destruct (flags_ok_LIR _ (flags_lookup _ _ _ Hf He) HL) as (Hr & HinS & HinQ).
    split_and!; [done|by apply (linked_flag_elem_of _ _ _ _ _ _ _ HS He)|].
    intros Hin. apply (linked_flag_elem_of _ _ _ _ _ _ _ HQ He) in Hin. congruence.
  - split.
    + intros Hin. destruct (linked_dom _ _ _ _ _ HQ _ Hin) as [e He]. rewrite He. simpl.
      apply (linked_flag_elem_of _ _ _ _ _ _ _ HQ He) in Hin.
      destruct (is_LIR e) eqn:HL.
      * destruct (flags_ok_LIR _ (flags_lookup _ _ _ Hf He) HL) as (_ & _ & ?). congruence.
      * destruct (flags_ok_HIR _ (flags_lookup _ _ _ Hf He) HL) as [? _].
        split; [congruence|done].
    + destruct (map_ c !! key) as [e|] eqn:He; simpl; [|by intros [? _]]. intros [Hr HL].
      apply (linked_flag_elem_of _ _ _ _ _ _ _ HQ He).
      destruct (flags_ok_HIR _ (flags_lookup _ _ _ Hf He) HL) as [? _]. congruence.
  - split.
    + intros Hin. destruct (linked_dom _ _ _ _ _ HC _ Hin) as [e He]. rewrite He. simpl.
      by apply (linked_flag_elem_of _ _ _ _ _ _ _ HC He).
    + destruct (map_ c !! key) as [e|] eqn:He; simpl; [|done].
      by apply (linked_flag_elem_of _ _ _ _ _ _ _ HC He).
  - split.
    + intros [e He]. pose proof (flags_lookup _ _ _ Hf He) as Hfe.
      destruct (is_LIR e) eqn:HL.
      * destruct (flags_ok_LIR _ Hfe HL) as (_ & ? & _). left.
        by apply (linked_flag_elem_of _ _ _ _ _ _ _ HS He).
      * destruct (flags_ok_HIR _ Hfe HL) as [_ [?|?]].
        -- left. by apply (linked_flag_elem_of _ _ _ _ _ _ _ HS He).
        -- right. by apply (linked_flag_elem_of _ _ _ _ _ _ _ HQ He).
    + intros [Hin|Hin]; [by apply (linked_dom _ _ _ _ _ HS)|by apply (linked_dom _ _ _ _ _ HQ)].
  - apply (linked_keys _ _ _ _ _ HC).
Qed.

(** X12: Every iterator the code goes through is valid: the iterator of an
    entry into a list the entry is flagged to be in designates a node of
    that list, and the node holds the key of the entry.  Hence the next
    operation, whatever it is, is defined: it erases and dereferences
    through valid iterators only. *)
Theorem iterators_valid capacity hir_ratio (c0 : LIRSCache K V) ops c key e :
  construct capacity hir_ratio = Constructed c0 → run ops c0 = Some c →
  map_ c !! key = Some e →
  (in_lirs_stack e = true → deref (lirs_iter e) (lirs_stack_ c) = Some key) ∧
  (in_hir_stack e = true → deref (hir_iter e) (hir_stack_ c) = Some key) ∧
  (is_resident e = true → fst <$> deref (data_iter e) (cache_ c) = Some key) ∧
  (∀ o, is_Some (step o c)).
Proof.
  intros Hc Hrun He. pose proof (reachable_WF _ _ _ _ _ Hc Hrun) as Hwf.
  pose proof Hwf as [[HS HQ HC] Hf]. split_and!.
  - intros Hflag. destruct (linked_node _ _ _ _ _ _ _ HS He Hflag) as (i & -> & Hnode). done.
  - intros Hflag. destruct (linked_node _ _ _ _ _ _ _ HQ He Hflag) as (i & -> & Hnode). done.
  - intros Hflag. destruct (linked_node _ _ _ _ _ _ _ HC He Hflag) as (i & -> & Hnode).
    simpl. by rewrite <- node_at_keyed.
  - intros o. destruct (step_spec c o Hwf) as (c' & -> & _). by eexists.
Qed.

Lemma access_lir_class c key e :
  WF c → map_ c !! key = Some e → in_lirs_stack e = true →
  ∃ c', access_lir key c = Some c' ∧ ∀ k, lir c' k = lir c k.
Proof.
  intros Hwf He HinS.
  destruct (in_S_back _ _ _ Hwf He HinS) as (i & bottom & Hi & Hnode & Hbk).
  destruct (moved_top_WF _ _ _ _ Hwf He HinS Hi Hnode) as [Hwf1 Hs1].
  assert (∀ k, lir (moved_top c key e i) k = lir c k) as Hlir1.
  { intros k. unfold lir. simpl. destruct (decide (k = key)) as [->|Hk].
    - by rewrite lookup_insert_eq, He.
    - by rewrite lookup_insert_ne. }
  rewrite (access_lir_eq c key e i bottom He Hi Hnode Hbk).
  case_bool_decide; eexists; (split; [done|]); [|done].
  intros k. by rewrite stack_pruning_lir.
Qed.

Lemma access_hir_resident_class c key e :
  WF c → map_ c !! key = Some e → is_LIR e = false → is_resident e = true →
  in_lirs_stack e = false →
  ∃ c', access_hir_resident key c = Some c' ∧ ∀ k, lir c' k = lir c k.
Proof.
  intros Hwf He HLIR Hres HinS.
  destruct (flags_ok_HIR _ (flags_lookup _ _ _ (proj2 Hwf) He) HLIR) as [HrQ _].
  assert (in_hir_stack e = true) as HinQ by congruence.
  destruct (linked_node _ _ _ _ _ _ _ (links_Q _ (proj1 Hwf)) He HinQ) as (j & Hj & Hnode).
  exists (refreshed c key e j). split.
  - by apply access_hir_resident_eq_refresh.
  - intros k. unfold lir. simpl. destruct (decide (k = key)) as [->|Hk].
    + by rewrite lookup_insert_eq, He.
    + by rewrite lookup_insert_ne.
Qed.

(** X21: Classes change only through an access to an HIR key that is in S:
    an operation on a key that is LIR, or that is not in S, leaves the
    class of every other key as it was. *)
Theorem classes_stable capacity hir_ratio (c0 : LIRSCache K V) ops c o c' :
  construct capacity hir_ratio = Constructed c0 → run ops c0 = Some c →
  step o c = Some c' →
  lir c (op_key o) = true ∨ op_key o ∉ S_keys c →
  ∀ k, k ≠ op_key o → lir c' k = lir c k.
Proof.
  intros Hc Hrun Hstep Hkey k Hk. pose proof (reachable_WF _ _ _ _ _ Hc Hrun) as Hwf.
  pose proof Hwf as [Hl Hf].
  assert (∀ e, map_ c !! op_key o = Some e → is_LIR e = false → in_lirs_stack e = false)
    as HnotS.
  { intros e He HL. destruct Hkey as [Hlir|Hnin].
    - unfold lir in Hlir. rewrite He in Hlir. simpl in Hlir. congruence.
    - destruct (in_lirs_stack e) eqn:HinS; [|done]. exfalso. apply Hnin.
      by eapply in_S_elem. }
  destruct o as [key|key value]; simpl in *.
  - destruct (map_ c !! key) as [e|] eqn:He.
    + destruct (is_resident e) eqn:Hres.
      * assert (∃ c1, (if is_LIR e then access_lir key c else access_hir_resident key c)
                      = Some c1 ∧ ∀ k, lir c1 k = lir c k) as (c1 & Hacc & Hcls).
        { destruct (is_LIR e) eqn:HL.
          - destruct (flags_ok_LIR _ (flags_lookup _ _ _ Hf He) HL) as (_ & HinS & _).
            by apply (access_lir_class c key e).
          - apply (access_hir_resident_class c key e); try done. by apply HnotS. }
        unfold get in Hstep. rewrite He, Hres in Hstep. simpl in Hstep.
        rewrite Hacc in Hstep. simpl in Hstep.
        destruct (map_ c1 !! key) as [e1|]; simpl in Hstep; [|done].
        destruct (deref (data_iter e1) (cache_ c1)); simpl in Hstep; [|done].
        simplify_eq. apply Hcls.
      * unfold get in Hstep. rewrite He, Hres in Hstep. by simplify_eq/=.
    + unfold get in Hstep. rewrite He in Hstep. by simplify_eq/=.
  - destruct (map_ c !! key) as [e|] eqn:He.
    + destruct (is_resident e) eqn:Hres.
      * destruct (resident_value _ _ _ Hwf He Hres) as (d & v & Hd & Hnd & Hst).
        destruct (overwritten_spec c key e d v value) as (Hwf0 & _); try done.
        rewrite (put_resident_eq c key e d v value) in Hstep; try done.
        assert (∀ k, lir (overwritten c d (key, v) value) k = lir c k) as Hlir0 by done.
        rewrite <- Hlir0.
        destruct (is_LIR e) eqn:HL.
        -- destruct (flags_ok_LIR _ (flags_lookup _ _ _ Hf He) HL) as (_ & HinS & _).
           destruct (access_lir_class (overwritten c d (key, v) value) key e)
             as (c1 & Hacc & Hcls); try done.
           assert (c1 = c') as -> by congruence. apply Hcls.
        -- destruct (access_hir_resident_class (overwritten c d (key, v) value) key e)
             as (c1 & Hacc & Hcls); try done; [by apply HnotS|].
           assert (c1 = c') as -> by congruence. apply Hcls.
      * exfalso.
        assert (is_LIR e = false) as HL.
        { destruct (is_LIR e) eqn:HL; [|done].
          destruct (flags_ok_LIR _ (flags_lookup _ _ _ Hf He) HL) as (? & _); congruence. }
        destruct (flags_ok_HIR _ (flags_lookup _ _ _ Hf He) HL) as [HrQ [HinS|HinQ]];
          [|congruence].
        rewrite (HnotS e) in HinS; done.
    + destruct (put_new_effect c key value Hwf He) as (c1 & Hput & _ & _ & Hcls & _).
      assert (c1 = c') as -> by congruence. by apply Hcls.
Qed.

(** X25: [evict_hir_resident] in a reachable state: nothing happens while Q
    is empty; otherwise the bottom of Q leaves Q and the value list, it
    stays in the table as a ghost when it is in S and is erased from the
    table when it is not, and nothing else changes. *)
Theorem evict_bottom_of_Q capacity hir_ratio (c0 : LIRSCache K V) ops c :
  construct capacity hir_ratio = Constructed c0 → run ops c0 = Some c →
  match back (hir_stack_ c) with
  | None => evict_hir_resident c = Some c
  | Some victim_key =>
      ∃ c1, evict_hir_resident c = Some c1 ∧
        resident c victim_key = true ∧ lir c victim_key = false ∧
        stored c1 victim_key = None ∧ size c1 = size c - 1 ∧
        Q_keys c1 = removelast (Q_keys c) ∧ S_keys c1 = S_keys c ∧
        (∀ k, k ≠ victim_key → map_ c1 !! k = map_ c !! k ∧ stored c1 k = stored c k) ∧
        (is_Some (map_ c1 !! victim_key) ↔ victim_key ∈ S_keys c)
  end.
Proof.
  intros Hc Hrun. pose proof (reachable_WF _ _ _ _ _ Hc Hrun) as Hwf.
  destruct (evict_hir_resident_effect c Hwf)
    as (c1 & Hev & Hwf1 & _ & _ & HS1 & HQ1 & _ & Hst1 & Hm1 & Hlir1 & Hsz1 & Hvic).
  destruct (back (hir_stack_ c)) as [victim_key|] eqn:Hb.
  - destruct (Hvic _ eq_refl) as (e & He & HL & Hr & He1).
    exists c1. split_and!; try done.
    + unfold resident. by rewrite He.
    + unfold lir. by rewrite He.
    + rewrite Hst1. by rewrite decide_True.
    + rewrite Hsz1. rewrite decide_False; [done|]. intros Hq. by rewrite Hq in Hb.
    + unfold Q_keys. by rewrite HQ1, pop_back_keys.
    + unfold S_keys. by rewrite HS1.
    + intros k Hk. split.
      * apply Hm1. congruence.
      * rewrite Hst1. rewrite decide_False; [done|]. congruence.
    + rewrite He1. pose proof Hwf as [[HS _ _] _].
      rewrite <- (linked_flag_elem_of _ _ _ _ _ _ _ HS He).
      destruct (in_lirs_stack e); split; done.
  - apply back_None in Hb. by apply evict_hir_resident_empty.
Qed.
End Table.

(** * The values do not steer the replacement *)

Section Oblivious.
Context `{Countable K} {V V' : Type} (f : V → V').
Implicit Types (c : LIRSCache K V) (key k : K).

Lemma get_vmap key c :
  get key (vmap f c) = result_vmap f <$> get key c.
Proof.
  unfold get. simpl. destruct (map_ c !! key) as [e|] eqn:He; [|done].
  destruct (is_resident e); simpl; [|done].
  assert ((if is_LIR e then access_lir key (vmap f c) else access_hir_resident key (vmap f c))
          = vmap f <$> (if is_LIR e then access_lir key c else access_hir_resident key c))
    as ->.
  { destruct (is_LIR e); [apply access_lir_vmap|apply access_hir_resident_vmap]. }
  destruct (if is_LIR e then access_lir key c else access_hir_resident key c) as [c1|];
    simpl; [|done].
  destruct (map_ c1 !! key) as [e1|]; simpl; [|done].
  unfold deref. destruct (data_iter e1) as [d|]; simpl; [|done].
  rewrite node_at_vmap. by destruct (node_at d (cache_ c1)) as [[k v]|].
Qed.

Lemma step_vmap o c : step (op_vmap f o) (vmap f c) = vmap f <$> step o c.
Proof.
  destruct o as [key|key value]; simpl.
  - rewrite get_vmap. by destruct (get key c) as [[r c1]|].
  - apply put_vmap.
Qed.

Lemma run_vmap ops c : run (op_vmap f <$> ops) (vmap f c) = vmap f <$> run ops c.
Proof.
  revert c. induction ops as [|o ops IH]; intros c; simpl; [done|].
  rewrite step_vmap. destruct (step o c) as [c1|]; simpl; [|done]. apply IH.
Qed.

(** X26: Replacing every value [v] of a sequence of operations by [f v]
    gives the same engine, S, Q, entry table and counters included, with
    every stored value replaced by its image; a [get] returns the image
    of what it returned. *)
Theorem values_do_not_steer capacity hir_ratio ops key :
  engine_after (K:=K) (V:=V') capacity hir_ratio (op_vmap f <$> ops)
    = vmap f <$> engine_after (K:=K) (V:=V) capacity hir_ratio ops ∧
  ∀ c, get key (vmap f c) = result_vmap f <$> get key c.
Proof.
  split; [|intros c; apply get_vmap].
  unfold engine_after, construct.
  destruct (capacity =? 0); [done|].
  destruct (Double.le hir_ratio Double.zero || Double.ge hir_ratio Double.one); [done|].
  destruct (Z.max 1 <$> Double.to_size_t _) as [hc|]; [|done].
  apply (run_vmap ops (mkCache capacity hc (SizeT.sub capacity hc) 0 [] [] [] ∅ 0)).
Qed.
End Oblivious.

(** * [stack_pruning] in any state *)

Section Pruning.
Context `{Countable K} {V : Type}.
Implicit Types (c : LIRSCache K V) (m : gmap K Entry) (key k : K) (e : Entry).

Lemma stack_pruning_loop_general (bottom_up : NodeList K) m :
  ∃ popped rest m',
    stack_pruning_loop bottom_up m = (rest, m') ∧ bottom_up = popped ++ rest ∧
    (∀ k, from_option is_LIR false (m' !! k) = from_option is_LIR false (m !! k)) ∧
    (∀ k, store_iter m' k = store_iter m k) ∧
    (∀ k, k ∈ popped.*2 → from_option is_LIR false (m !! k) = false) ∧
    (∀ k, k ∉ popped.*2 → m' !! k = m !! k) ∧
    (∀ k, k ∈ popped.*2 →
          from_option (λ e, is_resident e && negb (in_lirs_stack e)) true (m' !! k) = true) ∧
    (∀ p, head rest = Some p → from_option is_LIR false (m' !! p.2) = true) ∧
    stack_pruning_loop rest m' = (rest, m').
Proof.
  revert m. induction bottom_up as [|[i key] bottom_up IH]; intros m.
  - exists [], [], m. split_and!; try done; intros k Hk; by apply elem_of_nil in Hk.
  - simpl. unfold map_index. simpl.
    destruct (is_LIR (default Entry_default (m !! key))) eqn:HL.
    + assert (m !! key = Some (default Entry_default (m !! key))) as He.
      { destruct (m !! key) as [e|]; [done|]. simpl in HL. done. }
      rewrite (insert_id _ _ _ He).
      exists [], ((i, key) :: bottom_up), m. split_and!; try done.
      * intros k Hk. by apply elem_of_nil in Hk.
      * intros k Hk. by apply elem_of_nil in Hk.
      * intros p Hp. simplify_eq/=. by rewrite He.
      * simpl. unfold map_index. simpl. rewrite HL. by rewrite (insert_id _ _ _ He).
    + rewrite insert_insert_eq.
      set (e := default Entry_default (m !! key)) in *.
      set (m1 := if negb (is_resident e) then delete key (<[key:=set_in_lirs_stack false e]> m)
                 else <[key:=set_in_lirs_stack false e]> m).
      assert (∀ k, k ≠ key → m1 !! k = m !! k) as Hne.
      { intros k Hk. subst m1. destruct (is_resident e); simpl.
        - by rewrite lookup_insert_ne.
        - rewrite lookup_delete_ne by done. by rewrite lookup_insert_ne. }
      assert (m1 !! key = if is_resident e then Some (set_in_lirs_stack false e) else None)
        as Hkey.
      { subst m1. destruct (is_resident e); simpl.
        - by rewrite lookup_insert_eq.
        - by rewrite lookup_delete_eq. }
      assert (from_option is_LIR false (m !! key) = false) as HLm.
      { subst e. by destruct (m !! key). }
      destruct (IH m1) as (popped & rest & m' & Hloop & Hsplit & Hlir & Hst & Hpop & Hframe
                           & Hout & Hhd & Hidem).
      exists ((i, key) :: popped), rest, m'. split_and!; try done.
      * simpl. by rewrite Hsplit.
      * intros k. rewrite Hlir. destruct (decide (k = key)) as [->|Hk]; [|by rewrite Hne].
        rewrite Hkey, HLm. by destruct (is_resident e).
      * intros k. rewrite Hst. unfold store_iter.
        destruct (decide (k = key)) as [->|Hk]; [|by rewrite Hne].
        rewrite Hkey. subst e. destruct (m !! key) as [e|]; simpl; [|done].
        destruct (is_resident e) eqn:Hr; simpl; by rewrite ?Hr.
      * intros k Hk. simpl in Hk. apply elem_of_cons in Hk as [->|Hk]; [done|].
        destruct (decide (k = key)) as [->|Hkk]; [done|].
        rewrite <- (Hne _ Hkk). by apply Hpop.
      * intros k Hk. simpl in Hk. apply not_elem_of_cons in Hk as [Hk1 Hk2].
        rewrite (Hframe _ Hk2). by apply Hne.
      * intros k Hk. simpl in Hk.
        destruct (decide (k ∈ popped.*2)) as [Hin|Hnin]; [by apply Hout|].
        apply elem_of_cons in Hk as [->|Hk]; [|done].
        rewrite (Hframe _ Hnin), Hkey.
        destruct (is_resident e) eqn:Hr; simpl; by rewrite ?Hr.
Qed.

Lemma stack_pruning_general c :
  ∃ popped,
    S_keys c = S_keys (stack_pruning c) ++ popped ∧
    (∀ k, k ∈ popped → lir c k = false) ∧
    (∀ b, back (lirs_stack_ (stack_pruning c)) = Some b → lir c b = true) ∧
    (∀ k, lir (stack_pruning c) k = lir c k) ∧
    (∀ k, stored (stack_pruning c) k = stored c k) ∧
    (∀ k, k ∈ popped → resident c k = false → map_ (stack_pruning c) !! k = None) ∧
    (∀ k, k ∉ popped → map_ (stack_pruning c) !! k = map_ c !! k) ∧
    Q_keys (stack_pruning c) = Q_keys c ∧ cache_ (stack_pruning c) = cache_ c ∧
    lir_count_ (stack_pruning c) = lir_count_ c ∧
    stack_pruning (stack_pruning c) = stack_pruning c.
Proof.
  destruct (stack_pruning_loop_general (reverse (lirs_stack_ c)) (map_ c))
    as (popped & rest & m' & Hloop & Hsplit & Hlir & Hst & Hpop & Hframe & Hout & Hhd & Hidem).
  assert (stack_pruning c = with_map m' (with_lirs_stack (reverse rest) c)) as Heq.
  { unfold stack_pruning. by rewrite Hloop. }
  assert (lirs_stack_ c = reverse rest ++ reverse popped) as HS.
  { rewrite <- reverse_app, <- Hsplit. by rewrite reverse_involutive. }
  exists (reverse popped).*2. rewrite Heq. split_and!; try done.
  - unfold S_keys. simpl. by rewrite HS, fmap_app.
  - intros k Hk. rewrite fmap_reverse, elem_of_reverse in Hk. by apply Hpop.
  - intros b Hb. simpl in Hb. unfold back in Hb. rewrite last_reverse in Hb.
    destruct (head rest) as [p|] eqn:Hp; simplify_eq/=.
    unfold lir. rewrite <- Hlir. by apply Hhd.
  - intros k. unfold stored. simpl. by rewrite Hst.
  - intros k Hk Hres. simpl. rewrite fmap_reverse, elem_of_reverse in Hk.
    pose proof (Hout _ Hk) as Ho. pose proof (Hst k) as Hs.
    unfold resident in Hres. unfold store_iter in Hs.
    destruct (m' !! k) as [e'|]; [|done]. simpl in *.
    apply andb_true_iff in Ho as [Hr _]. rewrite Hr in Hs. simpl in Hs.
    destruct (map_ c !! k) as [e|]; simpl in *; [|done]. by rewrite Hres in Hs.
  - intros k Hk. simpl. apply Hframe. by rewrite fmap_reverse, elem_of_reverse in Hk.
  - unfold stack_pruning. simpl. rewrite reverse_involutive, Hidem. done.
Qed.

(** X24: [stack_pruning], whatever the state: it removes from the bottom of
    S the entries below the lowest LIR key, none of them LIR; the ghosts
    among them lose their entry; classes, stored values, Q and the
    counters are unchanged; the bottom of what is left is LIR; pruning
    again changes nothing. *)
Theorem stack_pruning_effect c :
  ∃ popped,
    S_keys c = S_keys (stack_pruning c) ++ popped ∧
    (∀ k, k ∈ popped → lir c k = false) ∧
    (∀ b, back (lirs_stack_ (stack_pruning c)) = Some b → lir c b = true) ∧
    (∀ k, lir (stack_pruning c) k = lir c k) ∧
    (∀ k, stored (stack_pruning c) k = stored c k) ∧
    (∀ k, k ∈ popped → resident c k = false → map_ (stack_pruning c) !! k = None) ∧
    (∀ k, k ∉ popped → map_ (stack_pruning c) !! k = map_ c !! k) ∧
    Q_keys (stack_pruning c) = Q_keys c ∧ cache_ (stack_pruning c) = cache_ c ∧
    lir_count_ (stack_pruning c) = lir_count_ c ∧
    stack_pruning (stack_pruning c) = stack_pruning c.
Proof. apply stack_pruning_general. Qed.

Lemma stack_pruning_absent c k :
  map_ c !! k = None → map_ (stack_pruning c) !! k = None.
Proof.
  intros Hk. destruct (stack_pruning_general c) as (popped & _ & _ & _ & _ & _ & Hout & Hframe & _).
  destruct (decide (k ∈ popped)) as [Hin|Hnin].
  - apply Hout; [done|]. unfold resident. by rewrite Hk.
  - by rewrite Hframe.
Qed.
End Pruning.

(** * The LIR keys under a scan *)

Section HotSet.
Context `{Countable K} {V : Type}.
Implicit Types (c : LIRSCache K V) (m : gmap K Entry) (key k : K) (e : Entry).

Lemma get_lir_effect c key :
  WF c → lir c key = true →
  ∃ v c1, get key c = Some (Some v, c1) ∧ WF c1 ∧
    (∀ k, lir c1 k = lir c k) ∧ (∀ k, stored c1 k = stored c k) ∧
    (∀ k, map_ c !! k = None → map_ c1 !! k = None).
Proof.
  intros Hwf Hlir.
  destruct (lir_lookup _ _ Hlir) as (e & He & HLIR).
  destruct (flags_ok_LIR _ (flags_lookup _ _ _ (proj2 Hwf) He) HLIR) as (Hres & HinS & _).
  destruct (in_S_back _ _ _ Hwf He HinS) as (i & bottom & Hi & Hnode & Hbk).
  destruct (access_lir_spec c key e Hwf He HinS) as (c' & Hacc & Hwf' & Hs' & _).
  destruct (access_lir_class c key e Hwf He HinS) as (c'' & Hacc' & Hcls).
  assert (c'' = c') as -> by congruence.
  destruct (get_resident_eq c key e c' Hwf He Hres) as (v & Hget & Hst); try done.
  { by rewrite HLIR. }
  exists v, c'. split_and!; try done.
  - intros k. by apply same_store_stored.
  - intros k Hk. rewrite (access_lir_eq c key e i bottom He Hi Hnode Hbk) in Hacc.
    assert (map_ (moved_top c key e i) !! k = None) as Hk1.
    { simpl. rewrite lookup_insert_ne; [done|]. intros ->. congruence. }
    case_bool_decide; simplify_eq; [|done]. by apply stack_pruning_absent.
Qed.

Lemma run_hot ops c :
  WF c →
  Forall (λ o, match o with
               | Get k => lir c k = true
               | Put k _ => map_ c !! k = None
               end) ops →
  NoDup (put_key_list ops) →
  ∃ c', run ops c = Some c' ∧
    ∀ k, lir c k = true → lir c' k = true ∧ stored c' k = stored c k.
Proof.
  revert c. induction ops as [|o ops IH]; intros c Hwf Hall Hnd; simpl.
  - exists c. by split_and!.
  - apply Forall_cons in Hall as [Ho Hall].
    assert (∃ c1, step o c = Some c1 ∧ WF c1 ∧
              (∀ k, lir c k = true → lir c1 k = true ∧ stored c1 k = stored c k) ∧
              (∀ k, k ∉ put_key_list [o] → map_ c !! k = None → map_ c1 !! k = None))
      as (c1 & Hstep & Hwf1 & Hkeep1 & Hnone1).
    { destruct o as [key|key value]; simpl.
      - destruct (get_lir_effect c key Hwf Ho) as (v & c1 & Hget & Hwf1 & Hcls & Hst & Hnone).
        exists c1. rewrite Hget. split_and!; try done.
        + intros k Hk. by rewrite Hcls, Hst.
        + intros k _. apply Hnone.
      - destruct (put_new_effect c key value Hwf Ho)
          as (c1 & Hput & Hwf1 & _ & Hcls & Hnone & Hst & _).
        exists c1. split_and!; try done.
        + intros k Hk. split; [|by apply Hst].
          rewrite Hcls; [done|]. intros ->. unfold lir in Hk. by rewrite Ho in Hk.
        + intros k Hk. apply Hnone. intros ->. apply Hk. simpl. by left. }
    rewrite Hstep. simpl.
    assert (NoDup (put_key_list ops) ∧ ∀ k, k ∈ put_key_list [o] → k ∉ put_key_list ops)
      as [Hnd' Hdisj].
    { destruct o as [key|key value]; simpl in *.
      - split; [done|]. intros k Hk. by apply elem_of_nil in Hk.
      - apply NoDup_cons in Hnd as [? ?]. split; [done|].
        intros k Hk. apply list_elem_of_singleton in Hk. by subst. }
    destruct (IH c1 Hwf1) as (c' & Hrun & Hkeep); [|done|].
    { apply Forall_forall. intros o' Ho'. rewrite Forall_forall in Hall.
      specialize (Hall _ Ho'). destruct o' as [k|k v'].
      - by apply Hkeep1.
      - apply Hnone1; [|done]. intros Hk. apply (Hdisj _ Hk).
        unfold put_key_list. apply list_elem_of_omap. by exists (Put k v'). }
    exists c'. split; [done|]. intros k Hk.
    destruct (Hkeep1 _ Hk) as [Hk1 Hst1]. destruct (Hkeep _ Hk1) as [? Hst'].
    split; [done|]. by rewrite Hst', Hst1.
Qed.

(** X22: The LIR keys are protected from a scan: through any sequence of
    hits on LIR keys and of puts of keys that have no entry, each put
    once, every LIR key stays LIR and keeps its value. *)
Theorem hot_set_protected capacity hir_ratio (c0 : LIRSCache K V) ops0 c ops :
  construct capacity hir_ratio = Constructed c0 → run ops0 c0 = Some c →
  Forall (λ o, match o with
               | Get k => lir c k = true
               | Put k _ => map_ c !! k = None
               end) ops →
  NoDup (put_key_list ops) →
  ∃ c', run ops c = Some c' ∧
    ∀ k, lir c k = true → lir c' k = true ∧ stored c' k = stored c k.
Proof.
  intros Hc Hrun. apply run_hot. by eapply reachable_WF.
Qed.
End HotSet.

(** * Construction: rejections and the default ratio *)

Section Ratio.
Context `{Countable K} {V : Type}.


(** X28: With the default ratio every capacity below 200 gets one HIR slot,
    and all the other slots are LIR. *)
Theorem default_ratio_one_hir_slot capacity :
  1 ≤ capacity < 200 →
  construct_default (K:=K) (V:=V) capacity
    = Constructed (mkCache capacity 1 (capacity - 1) 0 [] [] [] ∅ 0).
Proof.
  intros Hcap.
  assert (Forall (λ n, Z.max 1 <$> Double.to_size_t
                         (Double.mul (Double.of_size_t n) default_hir_ratio) = Some 1)
                 (seqZ 1 199)) as Hall.
  { apply Forall_forall. intros n Hn.
    assert (forallb (λ n, match Double.to_size_t
                                  (Double.mul (Double.of_size_t n) default_hir_ratio) with
                          | Some h => Z.max 1 h =? 1
                          | None => false
                          end) (seqZ 1 199) = true) as Hb by (vm_compute; reflexivity).
    rewrite forallb_forall in Hb. apply list_elem_of_In in Hn. specialize (Hb _ Hn).
    destruct (Double.to_size_t _) as [h|]; [|done]. simpl. f_equal. by apply Z.eqb_eq. }
  rewrite Forall_seqZ in Hall. specialize (Hall capacity ltac:(lia)).
  unfold construct_default, construct. rewrite Hall.
  destruct (Z.eqb_spec capacity 0); [lia|].
  assert (Double.le default_hir_ratio Double.zero || Double.ge default_hir_ratio Double.one
          = false) as -> by (vm_compute; reflexivity).
  do 2 f_equal. unfold SizeT.sub, SizeT.wrap, SizeT.modulus. apply Z.mod_small. lia.
Qed.
End Ratio.

(** * [Display] *)

Section DisplayFacts.
Context `{Countable K} {V : Type} `{Pretty K} `{Pretty V}.
Implicit Types (c : LIRSCache K V) (key k : K).

Lemma node_at_key_inj {A} (l : NodeList A) i j x :
  NoDup l.*2 → node_at i l = Some x → node_at j l = Some x → i = j.
Proof.
  induction l as [|[n y] l IH]; simpl; [done|]. intros Hnd Hi Hj.
  apply NoDup_cons in Hnd as [Hy Hnd].
  destruct (decide (i = n)) as [->|Hin], (decide (j = n)) as [->|Hjn]; simplify_eq.
  - done.
  - exfalso. apply Hy. apply node_at_elem_of in Hj.
    by apply (list_elem_of_fmap_2 snd) in Hj.
  - exfalso. apply Hy. apply node_at_elem_of in Hi.
    by apply (list_elem_of_fmap_2 snd) in Hi.
  - by apply IH.
Qed.

(** X29: [Display] skips nothing: [map_.find] succeeds for every key of S and
    for every pair of the value list, so each of them gets its line; the
    class printed is the class of the key, and the value printed for a
    key is the value [get] would return. *)
Theorem Display_skips_nothing capacity hir_ratio (c0 : LIRSCache K V) ops c :
  construct capacity hir_ratio = Constructed c0 → run ops c0 = Some c →
  (∀ key, key ∈ S_keys c →
     Display_S_entry c key =
       "  [" +:+ pretty key +:+ "] "
       +:+ (if lir c key then "LIR"
            else if resident c key then "HIR-resident" else "HIR-non-resident (ghost)")
       +:+ endl) ∧
  (∀ pair, pair ∈ (cache_ c).*2 →
     stored c pair.1 = Some pair.2 ∧
     Display_pair c pair =
       "  {" +:+ pretty pair.1 +:+ ": " +:+ pretty pair.2 +:+ "} "
       +:+ (if lir c pair.1 then "[LIR]" else "[HIR]") +:+ endl).
Proof.
  intros Hc Hrun. pose proof (reachable_WF _ _ _ _ _ Hc Hrun) as Hwf.
  pose proof Hwf as [[HS HQ HC] Hf]. split.
  - intros key Hin. destruct (linked_dom _ _ _ _ _ HS _ Hin) as [e He].
    unfold Display_S_entry, Display_class, lir, resident. by rewrite He.
  - intros [key v] Hin. simpl.
    apply list_elem_of_fmap in Hin as ([i kv] & Hkv & Hin). simpl in Hkv. subst kv.
    assert (node_at i (cache_ c) = Some (key, v)) as Hnode.
    { apply elem_of_node_at; [|done]. rewrite <- keyed_ids. apply (linked_ids _ _ _ _ _ HC). }
    assert (key ∈ (keyed (cache_ c)).*2) as Hk.
    { rewrite keyed_keys. apply list_elem_of_fmap. exists (key, v). split; [done|].
      apply list_elem_of_fmap. by exists (i, (key, v)). }
    destruct (linked_dom _ _ _ _ _ HC _ Hk) as [e He].
    pose proof (proj2 (linked_flag_elem_of _ _ _ _ _ _ _ HC He) Hk) as Hr.
    destruct (linked_node _ _ _ _ _ _ _ HC He Hr) as (d & Hd & Hnd).
    assert (i = d) as ->.
    { apply (node_at_key_inj (keyed (cache_ c)) i d key); [|by rewrite node_at_keyed, Hnode|done].
      apply (linked_keys _ _ _ _ _ HC). }
    split.
    + unfold stored, store_iter. rewrite He. simpl. rewrite Hr, Hd. simpl. by rewrite Hnode.
    + unfold Display_pair, lir. simpl. by rewrite He.
Qed.
End DisplayFacts.

(** * [put] of a resident key against [get] *)

Section PutAsGet.
Context `{Countable K} {V : Type}.
Implicit Types (c : LIRSCache K V) (m : gmap K Entry) (key k : K) (e : Entry).
Implicit Types (l : NodeList (K * V)).

Lemma stack_pruning_with_cache l c :
  stack_pruning (with_cache l c) = with_cache l (stack_pruning c).
Proof.
  unfold stack_pruning, with_cache. simpl.
  by destruct (stack_pruning_loop (reverse (lirs_stack_ c)) (map_ c)).
Qed.

Lemma demote_bottom_lir_with_cache l c :
  demote_bottom_lir (with_cache l c) = with_cache l (demote_bottom_lir c).
Proof.
  unfold demote_bottom_lir, with_cache. simpl.
  destruct (back (lirs_stack_ c)) as [bottom_key|]; [|done]. simpl.
  unfold map_index. simpl.
  by destruct (is_LIR (default Entry_default (map_ c !! bottom_key))).
Qed.

Lemma promote_to_lir_with_cache l key c :
  promote_to_lir key (with_cache l c) = with_cache l <$> promote_to_lir key c.
Proof.
  unfold promote_to_lir, upd_entry. simpl.
  destruct (map_ c !! key) as [e|]; simpl; [|done].
  rewrite ?lookup_insert_eq. simpl.
  destruct (erase (lirs_iter e) (lirs_stack_ c)) as [s|]; simpl; [|done].
  rewrite ?lookup_insert_eq. simpl.
  destruct (in_hir_stack e); simpl.
  - destruct (erase (hir_iter e) (hir_stack_ c)) as [q|]; simpl; [|done].
    rewrite ?lookup_insert_eq. simpl.
    f_equal. rewrite <- stack_pruning_with_cache, <- demote_bottom_lir_with_cache. done.
  - f_equal. rewrite <- stack_pruning_with_cache, <- demote_bottom_lir_with_cache. done.
Qed.

Lemma access_lir_with_cache l key c :
  access_lir key (with_cache l c) = with_cache l <$> access_lir key c.
Proof.
  unfold access_lir, upd_entry. simpl.
  destruct (back (lirs_stack_ c)) as [bottom|]; simpl; [|done].
  destruct (map_ c !! key) as [e|]; simpl; [|done].
  destruct (erase (lirs_iter e) (lirs_stack_ c)) as [s|]; simpl; [|done].
  f_equal. case_bool_decide; [|done].
  by rewrite <- stack_pruning_with_cache.
Qed.

Lemma access_hir_resident_with_cache l key c :
  access_hir_resident key (with_cache l c) = with_cache l <$> access_hir_resident key c.
Proof.
  unfold access_hir_resident. simpl.
  destruct (map_ c !! key) as [e|] eqn:He; simpl; [|done].
  destruct (in_lirs_stack e); [apply promote_to_lir_with_cache|].
  unfold upd_entry. simpl. rewrite He. simpl. rewrite ?lookup_insert_eq. simpl.
  destruct (erase (hir_iter e) (hir_stack_ c)) as [q|]; simpl; [|done].
  rewrite ?lookup_insert_eq. done.
Qed.

(** X30: [put] of a resident key reorganises S and Q exactly as a [get]
    of the key does: the two leave the same S, Q, entry table and LIR
    count, and differ only in the value stored for the key. *)
Theorem put_resident_as_get capacity hir_ratio (c0 : LIRSCache K V) ops c key value :
  construct capacity hir_ratio = Constructed c0 → run ops c0 = Some c →
  resident c key = true →
  ∃ v c1 c2, put key value c = Some c1 ∧ get key c = Some (Some v, c2) ∧
    lirs_stack_ c1 = lirs_stack_ c2 ∧ hir_stack_ c1 = hir_stack_ c2 ∧
    map_ c1 = map_ c2 ∧ lir_count_ c1 = lir_count_ c2 ∧
    stored c1 key = Some value ∧ ∀ k, k ≠ key → stored c1 k = stored c2 k.
Proof.
  intros Hc Hrun Hres. pose proof (reachable_WF _ _ _ _ _ Hc Hrun) as Hwf.
  destruct (put_resident_spec c key value Hwf Hres)
    as (c1 & Hput & _ & _ & _ & _ & Hoth & Hkey & _).
  destruct (get_resident_spec c key Hwf Hres) as (v & c2 & Hget & Hst & _ & Hs2).
  exists v, c1, c2. split_and!; try done.
  5:{ intros k Hk. rewrite (Hoth _ Hk). symmetry. by apply same_store_stored. }
  all: unfold resident in Hres;
    destruct (map_ c !! key) as [e|] eqn:He; simpl in Hres; [|done];
    destruct (resident_value _ _ _ Hwf He Hres) as (d & v' & Hd & Hnd & _);
    rewrite (put_resident_eq c key e d v' value He Hres Hd Hnd) in Hput;
    unfold overwritten in Hput;
    unfold get in Hget; rewrite He, Hres in Hget; simpl in Hget;
    destruct (is_LIR e);
    [rewrite access_lir_with_cache in Hput; destruct (access_lir key c) as [c3|]
    |rewrite access_hir_resident_with_cache in Hput;
     destruct (access_hir_resident key c) as [c3|]];
    simpl in *; try done;
    destruct (map_ c3 !! key) as [e3|]; simpl in Hget; try done;
    destruct (deref (data_iter e3) (cache_ c3)); simpl in Hget; try done;
    by simplify_eq.
Qed.
End PutAsGet.

(** * The theorems at concrete states *)

Lemma eviction_only_bottom_of_Q_witness :
  back (hir_stack_ Scenario.steady) = Some 6%nat ∧ lir Scenario.steady 6%nat = false ∧
  ∃ key value, Scenario.P 7 "G" = Put key value ∧ key ≠ 6%nat ∧
               resident Scenario.steady key = false.
Proof.
  apply (eviction_only_bottom_of_Q 5 Scenario.ratio_0_2 Scenario.cache_5 Scenario.with_ghost
           Scenario.steady (Scenario.P 7 "G")
           (Scenario.after (Scenario.with_ghost ++ [Scenario.P 7 "G"]) Scenario.cache_5) 6%nat).
  - vm_compute. reflexivity.
  - vm_compute. reflexivity.
  - vm_compute. reflexivity.
  - vm_compute. reflexivity.
  - vm_compute. reflexivity.
Defined.

Lemma size_never_decreases_witness :
  size Scenario.steady
  ≤ size (Scenario.after (Scenario.with_ghost ++ [Scenario.P 7 "G"; Scenario.G 1])
            Scenario.cache_5)
  ≤ size Scenario.steady + Z.of_nat (length [Scenario.P 7 "G"; Scenario.G 1]).
Proof.
  apply (size_never_decreases 5 Scenario.ratio_0_2 Scenario.cache_5 Scenario.with_ghost).
  - vm_compute. reflexivity.
  - vm_compute. reflexivity.
  - vm_compute. reflexivity.
Defined.

Lemma get_returns_last_put_witness :
  last_put (Scenario.with_ghost ++ [Scenario.P 6 "F2"]) 6%nat = Some "F2".
Proof.
  apply (get_returns_last_put 5 Scenario.ratio_0_2 Scenario.cache_5
           (Scenario.with_ghost ++ [Scenario.P 6 "F2"])
           (Scenario.after (Scenario.with_ghost ++ [Scenario.P 6 "F2"]) Scenario.cache_5)
           6%nat "F2"
           (Scenario.after (Scenario.with_ghost ++ [Scenario.P 6 "F2"; Scenario.G 6])
              Scenario.cache_5)).
  - vm_compute. reflexivity.
  - vm_compute. reflexivity.
  - vm_compute. reflexivity.
Defined.

Lemma put_then_get_witness :
  ∃ c1 c2, put 7%nat "G" Scenario.steady = Some c1 ∧ get 7%nat c1 = Some (Some "G", c2).
Proof.
  apply (put_then_get 5 Scenario.ratio_0_2 Scenario.cache_5 Scenario.with_ghost).
  - vm_compute. reflexivity.
  - vm_compute. reflexivity.
Defined.

Lemma empty_iff_no_put_witness :
  (empty (Scenario.after [Scenario.G 1] Scenario.cache_5) = true
   ↔ size (Scenario.after [Scenario.G 1] Scenario.cache_5) = 0) ∧
  (empty (Scenario.after [Scenario.G 1] Scenario.cache_5) = true
   ↔ put_keys [Scenario.G 1] = ∅).
Proof.
  apply (empty_iff_no_put 5 Scenario.ratio_0_2 Scenario.cache_5).
  - vm_compute. reflexivity.
  - vm_compute. reflexivity.
Defined.

Lemma capacity_constant_witness :
  capacity Scenario.steady = 5 ∧
  hir_capacity_ Scenario.steady = hir_capacity_ Scenario.cache_5 ∧
  lir_capacity_ Scenario.steady = lir_capacity_ Scenario.cache_5 ∧
  1 ≤ hir_capacity_ Scenario.steady ∧
  lir_capacity_ Scenario.steady = SizeT.sub 5 (hir_capacity_ Scenario.steady).
Proof.
  apply (capacity_constant 5 Scenario.ratio_0_2 Scenario.cache_5 Scenario.with_ghost).
  - vm_compute. reflexivity.
  - vm_compute. reflexivity.
Defined.

Lemma put_new_key_witness :
  ∃ c', put 7%nat "G" Scenario.steady = Some c' ∧
    S_keys c' = 7%nat :: S_keys Scenario.steady ∧
    (∀ k, k ≠ 7%nat → lir c' k = lir Scenario.steady k) ∧
    if lir_count_ Scenario.steady <? lir_capacity_ Scenario.steady
    then lir c' 7%nat = true ∧ Q_keys c' = Q_keys Scenario.steady ∧
         size c' = size Scenario.steady + 1
    else lir c' 7%nat = false ∧ Q_keys c' = 7%nat :: removelast (Q_keys Scenario.steady) ∧
         size c' = size Scenario.steady + (if decide (Q_keys Scenario.steady = []) then 1 else 0).
Proof.
  apply (put_new_key 5 Scenario.ratio_0_2 Scenario.cache_5 Scenario.with_ghost).
  - vm_compute. reflexivity.
  - vm_compute. reflexivity.
  - vm_compute. reflexivity.
Defined.

Lemma scan_keeps_lir_witness :
  ∃ c', run ((λ kv, Put kv.1 kv.2) <$> [(7%nat, "G"); (8%nat, "H")]) Scenario.steady = Some c' ∧
    S_keys c' = reverse [(7%nat, "G"); (8%nat, "H")].*1 ++ S_keys Scenario.steady ∧
    ∀ k, lir Scenario.steady k = true →
         lir c' k = true ∧ stored c' k = stored Scenario.steady k.
Proof.
  apply (scan_keeps_lir 5 Scenario.ratio_0_2 Scenario.cache_5 Scenario.with_ghost).
  - vm_compute. reflexivity.
  - vm_compute. reflexivity.
  - simpl. apply NoDup_cons. split; [by intros ?%list_elem_of_singleton|apply NoDup_singleton].
  - intros k Hk. apply elem_of_cons in Hk as [->|Hk]; [vm_compute; reflexivity|].
    apply elem_of_cons in Hk as [->|Hk]; [vm_compute; reflexivity|].
    by apply elem_of_nil in Hk.
Defined.


Lemma get_hir_outside_S_witness :
  ∃ v c', get 1%nat Scenario.demoted_1 = Some (Some v, c') ∧
    stored Scenario.demoted_1 1%nat = Some v ∧
    S_keys c' = 1%nat :: S_keys Scenario.demoted_1 ∧
    Q_keys c' = 1%nat :: filter (λ k, k ≠ 1%nat) (Q_keys Scenario.demoted_1) ∧
    (∀ k, lir c' k = lir Scenario.demoted_1 k) ∧ lir Scenario.demoted_1 1%nat = false ∧
    lir_count_ c' = lir_count_ Scenario.demoted_1.
Proof.
  apply (get_hir_outside_S 5 Scenario.ratio_0_2 Scenario.cache_5
           (Scenario.with_ghost ++ [Scenario.G 6])).
  - vm_compute. reflexivity.
  - vm_compute. reflexivity.
  - vm_compute. reflexivity.
  - vm_compute. intros Hin. repeat (apply elem_of_cons in Hin as [Hin|Hin]; [discriminate|]).
    by apply elem_of_nil in Hin.
Defined.

Lemma get_promotes_witness :
  ∃ v c' bottom, get 6%nat Scenario.steady = Some (Some v, c') ∧
    stored Scenario.steady 6%nat = Some v ∧
    back (lirs_stack_ Scenario.steady) = Some bottom ∧ lir Scenario.steady bottom = true ∧
    (∀ k, lir c' k = if decide (k = 6%nat) then true
                     else if decide (k = bottom) then false else lir Scenario.steady k) ∧
    head (S_keys c') = Some 6%nat ∧ (bottom ∉ S_keys c') ∧
    Q_keys Scenario.steady = [6%nat] ∧ Q_keys c' = [bottom] ∧ resident c' bottom = true ∧
    lir_count_ c' = lir_count_ Scenario.steady.
Proof.
  apply (get_promotes 5 Scenario.ratio_0_2 Scenario.cache_5 Scenario.with_ghost).
  - vm_compute. reflexivity.
  - reflexivity.
  - reflexivity.
  - vm_compute. reflexivity.
  - vm_compute. reflexivity.
  - vm_compute. reflexivity.
  - vm_compute. by left.
Defined.

Lemma put_ghost_promotes_witness :
  ∃ c' bottom, put 5%nat "E2" Scenario.steady = Some c' ∧ stored c' 5%nat = Some "E2" ∧
    5%nat ∈ S_keys Scenario.steady ∧
    back (lirs_stack_ Scenario.steady) = Some bottom ∧ lir Scenario.steady bottom = true ∧
    (∀ k, lir c' k = if decide (k = 5%nat) then true
                     else if decide (k = bottom) then false else lir Scenario.steady k) ∧
    head (S_keys c') = Some 5%nat ∧ (bottom ∉ S_keys c') ∧ Q_keys c' = [bottom] ∧
    (∀ k, k ∈ Q_keys Scenario.steady → resident c' k = false) ∧
    lir_count_ c' = lir_count_ Scenario.steady.
Proof.
  apply (put_ghost_promotes 5 Scenario.ratio_0_2 Scenario.cache_5 Scenario.with_ghost).
  - vm_compute. reflexivity.
  - reflexivity.
  - reflexivity.
  - vm_compute. reflexivity.
  - vm_compute. by eexists.
  - vm_compute. reflexivity.
Defined.

Lemma accessed_key_on_top_witness :
  (∀ value, ∃ c', put 6%nat value Scenario.steady = Some c' ∧ head (S_keys c') = Some 6%nat) ∧
  (resident Scenario.steady 6%nat = true →
   ∃ v c', get 6%nat Scenario.steady = Some (Some v, c') ∧ head (S_keys c') = Some 6%nat).
Proof.
  apply (accessed_key_on_top 5 Scenario.ratio_0_2 Scenario.cache_5 Scenario.with_ghost).
  - vm_compute. reflexivity.
  - reflexivity.
  - reflexivity.
  - vm_compute. reflexivity.
Defined.

Lemma single_hir_slot_witness :
  (length (Q_keys (Scenario.after Scenario.fill_10 Scenario.cache_10)) ≤ 1)%nat ∧
  size (Scenario.after Scenario.fill_10 Scenario.cache_10)
  = lir_count_ (Scenario.after Scenario.fill_10 Scenario.cache_10)
    + Z.of_nat (length (Q_keys (Scenario.after Scenario.fill_10 Scenario.cache_10))) ∧
  size (Scenario.after Scenario.fill_10 Scenario.cache_10)
  ≤ 10 - hir_capacity_ Scenario.cache_10 + 1 ∧
  (2 ≤ hir_capacity_ Scenario.cache_10 →
   size (Scenario.after Scenario.fill_10 Scenario.cache_10)
   < capacity (Scenario.after Scenario.fill_10 Scenario.cache_10)).
Proof.
  apply (single_hir_slot 10 Scenario.ratio_0_5 Scenario.cache_10 Scenario.fill_10).
  - vm_compute. reflexivity.
  - reflexivity.
  - reflexivity.
  - vm_compute. reflexivity.
Defined.

Lemma lir_count_accurate_witness :
  ∃ lirs : list nat, NoDup lirs ∧ (∀ k, k ∈ lirs ↔ lir Scenario.steady k = true) ∧
                     lir_count_ Scenario.steady = Z.of_nat (length lirs).
Proof.
  apply (lir_count_accurate 5 Scenario.ratio_0_2 Scenario.cache_5 Scenario.with_ghost).
  - vm_compute. reflexivity.
  - reflexivity.
  - reflexivity.
  - vm_compute. reflexivity.
Defined.

Lemma block_states_witness :
  (lir Scenario.steady 6%nat = true →
   resident Scenario.steady 6%nat = true ∧ 6%nat ∈ S_keys Scenario.steady
   ∧ 6%nat ∉ Q_keys Scenario.steady) ∧
  (6%nat ∈ Q_keys Scenario.steady
   ↔ resident Scenario.steady 6%nat = true ∧ lir Scenario.steady 6%nat = false) ∧
  (6%nat ∈ cache_keys Scenario.steady ↔ resident Scenario.steady 6%nat = true) ∧
  (is_Some (map_ Scenario.steady !! 6%nat)
   ↔ 6%nat ∈ S_keys Scenario.steady ∨ 6%nat ∈ Q_keys Scenario.steady) ∧
  NoDup (cache_keys Scenario.steady).
Proof.
  apply (block_states 5 Scenario.ratio_0_2 Scenario.cache_5 Scenario.with_ghost).
  - vm_compute. reflexivity.
  - vm_compute. reflexivity.
Defined.

Lemma iterators_valid_witness :
  (in_lirs_stack (default Entry_default (map_ Scenario.steady !! 6%nat)) = true →
   deref (lirs_iter (default Entry_default (map_ Scenario.steady !! 6%nat)))
     (lirs_stack_ Scenario.steady) = Some 6%nat) ∧
  (in_hir_stack (default Entry_default (map_ Scenario.steady !! 6%nat)) = true →
   deref (hir_iter (default Entry_default (map_ Scenario.steady !! 6%nat)))
     (hir_stack_ Scenario.steady) = Some 6%nat) ∧
  (is_resident (default Entry_default (map_ Scenario.steady !! 6%nat)) = true →
   fst <$> deref (data_iter (default Entry_default (map_ Scenario.steady !! 6%nat)))
             (cache_ Scenario.steady) = Some 6%nat) ∧
  (∀ o, is_Some (step o Scenario.steady)).
Proof.
  apply (iterators_valid 5 Scenario.ratio_0_2 Scenario.cache_5 Scenario.with_ghost).
  - vm_compute. reflexivity.
  - vm_compute. reflexivity.
  - vm_compute. reflexivity.
Defined.

Lemma classes_stable_witness :
  lir (Scenario.after (Scenario.with_ghost ++ [Scenario.G 1]) Scenario.cache_5) 2%nat
  = lir Scenario.steady 2%nat.
Proof.
  apply (classes_stable 5 Scenario.ratio_0_2 Scenario.cache_5 Scenario.with_ghost
           Scenario.steady (Scenario.G 1)).
  - vm_compute. reflexivity.
  - vm_compute. reflexivity.
  - vm_compute. reflexivity.
  - left. vm_compute. reflexivity.
  - vm_compute. lia.
Defined.

Lemma evict_bottom_of_Q_witness :
  match back (hir_stack_ Scenario.steady) with
  | None => evict_hir_resident Scenario.steady = Some Scenario.steady
  | Some victim_key =>
      ∃ c1, evict_hir_resident Scenario.steady = Some c1 ∧
        resident Scenario.steady victim_key = true ∧ lir Scenario.steady victim_key = false ∧
        stored c1 victim_key = None ∧ size c1 = size Scenario.steady - 1 ∧
        Q_keys c1 = removelast (Q_keys Scenario.steady) ∧ S_keys c1 = S_keys Scenario.steady ∧
        (∀ k, k ≠ victim_key →
              map_ c1 !! k = map_ Scenario.steady !! k ∧ stored c1 k = stored Scenario.steady k) ∧
        (is_Some (map_ c1 !! victim_key) ↔ victim_key ∈ S_keys Scenario.steady)
  end.
Proof.
  apply (evict_bottom_of_Q 5 Scenario.ratio_0_2 Scenario.cache_5 Scenario.with_ghost).
  - vm_compute. reflexivity.
  - vm_compute. reflexivity.
Defined.


Lemma default_ratio_one_hir_slot_witness :
  construct_default (K:=nat) (V:=string) 100
  = Constructed (mkCache 100 1 (100 - 1) 0 [] [] [] ∅ 0).
Proof. apply (default_ratio_one_hir_slot 100). lia. Defined.

Lemma Display_skips_nothing_witness :
  (∀ key, key ∈ S_keys Scenario.steady →
     Display_S_entry Scenario.steady key =
       "  [" +:+ pretty key +:+ "] "
       +:+ (if lir Scenario.steady key then "LIR"
            else if resident Scenario.steady key then "HIR-resident"
                 else "HIR-non-resident (ghost)")
       +:+ endl) ∧
  (∀ pair, pair ∈ (cache_ Scenario.steady).*2 →
     stored Scenario.steady pair.1 = Some pair.2 ∧
     Display_pair Scenario.steady pair =
       "  {" +:+ pretty pair.1 +:+ ": " +:+ pretty pair.2 +:+ "} "
       +:+ (if lir Scenario.steady pair.1 then "[LIR]" else "[HIR]") +:+ endl).
Proof.
  apply (Display_skips_nothing 5 Scenario.ratio_0_2 Scenario.cache_5 Scenario.with_ghost).
  - vm_compute. reflexivity.
  - vm_compute. reflexivity.
Defined.

Lemma get_resident_frame_witness :
  ∃ v c', get 2%nat (Scenario.after [Scenario.P 1 "A"; Scenario.P 2 "B"] Scenario.cache_1)
          = Some (Some v, c') ∧
          stored (Scenario.after [Scenario.P 1 "A"; Scenario.P 2 "B"] Scenario.cache_1) 2%nat
          = Some v ∧
          (∀ k, resident c' k
                = resident (Scenario.after [Scenario.P 1 "A"; Scenario.P 2 "B"] Scenario.cache_1) k) ∧
          size c' = size (Scenario.after [Scenario.P 1 "A"; Scenario.P 2 "B"] Scenario.cache_1).
Proof.
  apply (get_resident_frame 1 Scenario.ratio_0_5 Scenario.cache_1
           [Scenario.P 1 "A"; Scenario.P 2 "B"]).
  - vm_compute. reflexivity.
  - vm_compute. reflexivity.
  - vm_compute. reflexivity.
Defined.

Lemma hot_set_protected_witness :
  ∃ c', run [Scenario.G 1; Scenario.P 7 "G"; Scenario.G 2; Scenario.P 8 "H"; Scenario.G 3]
            Scenario.steady = Some c' ∧
    ∀ k, lir Scenario.steady k = true →
         lir c' k = true ∧ stored c' k = stored Scenario.steady k.
Proof.
  apply (hot_set_protected 5 Scenario.ratio_0_2 Scenario.cache_5 Scenario.with_ghost).
  - vm_compute. reflexivity.
  - vm_compute. reflexivity.
  - repeat (apply Forall_cons; split; [vm_compute; reflexivity|]). apply Forall_nil_2.
  - simpl. apply NoDup_cons. split; [by intros ?%list_elem_of_singleton|apply NoDup_singleton].
Defined.

Lemma put_resident_as_get_witness :
  ∃ v c1 c2, put 6%nat "F2" Scenario.steady = Some c1 ∧
    get 6%nat Scenario.steady = Some (Some v, c2) ∧
    lirs_stack_ c1 = lirs_stack_ c2 ∧ hir_stack_ c1 = hir_stack_ c2 ∧
    map_ c1 = map_ c2 ∧ lir_count_ c1 = lir_count_ c2 ∧
    stored c1 6%nat = Some "F2" ∧ ∀ k, k ≠ 6%nat → stored c1 k = stored c2 k.
Proof.
  apply (put_resident_as_get 5 Scenario.ratio_0_2 Scenario.cache_5 Scenario.with_ghost).
  - vm_compute. reflexivity.
  - vm_compute. reflexivity.
  - vm_compute. reflexivity.
Defined.

(** * The demonstrations of the repository *)

(** The [Display] example of the README: the text is the README's up to
    the blank line the README shows before the closing rule, which the
    code does not write. *)
Lemma Display_readme_example :
  Display (Scenario.after Scenario.readme Scenario.cache_5) =
  String.concat endl
    [""; "================== LIRS Cache State =================="; "";
     "[Capacity]"; "  Total: 5 | LIR: 4 | HIR: 1"; "  LIR count: 3 | Cache size: 3"; "";
     "[Stack S - LIRS Stack] (top -> bottom)"; "  [3] LIR"; "  [2] LIR"; "  [1] LIR"; "";
     "[Stack Q - HIR Resident] (top -> bottom)"; "  (empty)"; "";
     "[Cache Contents]"; "  {3: C} [LIR]"; "  {2: B} [LIR]"; "  {1: A} [LIR]";
     "======================================================"; ""; ""].
Proof. vm_compute. reflexivity. Qed.

(** What the [get] calls of [main] return, in order: the six of the
    first cache and the two of the loop cache. *)
Lemma main_results :
  results Scenario.main_ops Scenario.cache_5
    = Some [Some "A"; Some "D"; Some "F"; Some "A_updated"; None; None] ∧
  construct 3 (Double.of_ratio 34 100) = Constructed Scenario.loop_cache ∧
  results Scenario.loop_ops Scenario.loop_cache = Some [Some "v1"; Some "v2"].
Proof. vm_compute. done. Qed.
